(** * Chat over Boost.Asio: frame codec, chat room, sessions, client

    A shallow embedding of [server/src/server.cpp] and
    [client/src/client.cpp].  Objects behind a [boost::shared_ptr] live in
    an explicit heap, the operations handed to the [io_service] are kept
    in an explicit list of pending operations, and every completion
    handler is a function from worlds to worlds. *)

From stdpp Require Import base option list sorting gmap sets strings.
From Stdlib Require Import Ascii Lia.

Set Default Proof Using "Type".
Local Open Scope nat_scope.

(** ** Constants of [message.h]

    [server/include/message.h] is included by both programs; its two
    constants are taken as parameters of the whole development. *)
Class FrameConfig := {
  header_length : nat;
  max_body_length : nat
}.

(** The values of the Boost.Asio chat example, used for concrete runs. *)
Definition example_config : FrameConfig :=
  {| header_length := 4; max_body_length := 512 |}.

(** Removes the first occurrence of [x]: an operation leaves the list of
    pending operations when it completes. *)
Fixpoint remove_first {A} `{EqDecision A} (x : A) (l : list A) : list A :=
  match l with
  | [] => []
  | y :: l' => if decide (y = x) then l' else y :: remove_first x l'
  end.

(** The last [n] elements of a list. *)
Definition last_n {A} (n : nat) (l : list A) : list A := drop (length l - n) l.

(** ** Frame codec *)
Module Codec.

Definition space : ascii := ascii_of_nat 32.
Definition zero_digit : nat := 48.

Definition digit_char (d : nat) : ascii := ascii_of_nat (zero_digit + d).

Definition is_digit (c : ascii) : bool :=
  (zero_digit <=? nat_of_ascii c) && (nat_of_ascii c <=? zero_digit + 9).

Definition digit_value (c : ascii) : nat := nat_of_ascii c - zero_digit.

(** Decimal text of [n], most significant digit first. *)
Fixpoint decimal_aux (fuel n : nat) (acc : list ascii) : list ascii :=
  match fuel with
  | 0 => acc
  | S fuel' =>
      let acc' := digit_char (n mod 10) :: acc in
      if n / 10 =? 0 then acc' else decimal_aux fuel' (n / 10) acc'
  end.

Definition decimal (n : nat) : list ascii := decimal_aux (S n) n [].

Fixpoint parse_digits (acc : nat) (l : list ascii) : option nat :=
  match l with
  | [] => Some acc
  | c :: l' =>
      if is_digit c then parse_digits (10 * acc + digit_value c) l' else None
  end.

Fixpoint skip_padding (l : list ascii) : list ascii :=
  match l with
  | c :: l' => if decide (c = space) then skip_padding l' else l
  | [] => []
  end.

(** The text of a header: decimal digits behind padding. *)
Definition parse_header (h : list ascii) : option nat :=
  match skip_padding h with
  | [] => None
  | d => parse_digits 0 d
  end.

Section WithConfig.
Context `{cfg : FrameConfig}.

(** Modelled from the spec: [ChatMessage::encode_header] of message.h,
    which is not among the sources.  "Renders body_length as decimal
    text, fixed width header_length", "left-padded/justified to exactly
    header_length characters". *)
Definition encode_header (body_length : nat) : list ascii :=
  let d := decimal body_length in
  take header_length (replicate (header_length - length d) space ++ d).

(** Modelled from the spec: [ChatMessage::decode_header] of message.h,
    which is not among the sources.  "Parses the header text as a
    non-negative integer; fails if non-numeric or if the parsed value
    exceeds max_body_length". *)
Definition decode_header (header_bytes : list ascii) : option nat :=
  match parse_header (take header_length header_bytes) with
  | Some n => if n <=? max_body_length then Some n else None
  | None => None
  end.

End WithConfig.

(** A header is numeric when it is some padding followed by at least one
    decimal digit and nothing else. *)
Definition numeric (h : list ascii) : Prop :=
  ∃ pad d ds, h = replicate pad space ++ d :: ds ∧
              Forall (λ c, is_digit c = true) (d :: ds).

(** Value of a digit string read most significant digit first. *)
Definition digits_value (ds : list ascii) : nat :=
  foldl (λ acc c, 10 * acc + digit_value c) 0 ds.

End Codec.

(** ** Messages *)
Module Message.

Definition nul : ascii := ascii_of_nat 0.

(** [store off bytes buf]: [buf] with [bytes] copied to offset [off];
    what lies beyond the end of the buffer is not written. *)
Definition store (off : nat) (bytes buf : list ascii) : list ascii :=
  take off buf ++ take (length buf - off) bytes ++ drop (off + length bytes) buf.

(** Modelled from the spec: class [ChatMessage] of message.h, which is
    not among the sources.  "data: contiguous buffer of header_length +
    body_length bytes; header occupies the first header_length bytes,
    body the remainder"; "body_length: integer". *)
Record ChatMessage := {
  data_ : list ascii;
  body_length_ : nat
}.

#[export] Instance ChatMessage_eq_dec : EqDecision ChatMessage.
Proof. solve_decision. Defined.

Section WithConfig.
Context `{cfg : FrameConfig}.

(** Modelled from the spec: the default constructor ("constructed empty
    per read cycle"); the buffer has room for a header and a body of
    [max_body_length] bytes. *)
Definition new_message : ChatMessage :=
  {| data_ := replicate (header_length + max_body_length) nul;
     body_length_ := 0 |}.

(** Modelled from the spec: [length()], the size of header plus body. *)
Definition length (m : ChatMessage) : nat := header_length + body_length_ m.

(** Modelled from the spec: [body()], "the remainder" behind the header. *)
Definition body (m : ChatMessage) : list ascii := drop header_length (data_ m).

(** The bytes designated by [buffer(m.data(), m.length())]. *)
Definition frame (m : ChatMessage) : list ascii := take (length m) (data_ m).

(** Modelled from the spec: the setter [body_length(n)] ("body_length
    set"). *)
Definition set_body_length (n : nat) (m : ChatMessage) : ChatMessage :=
  {| data_ := data_ m; body_length_ := n |}.

(** [memcpy(m.body(), src, n)]. *)
Definition copy_body (src : list ascii) (n : nat) (m : ChatMessage) : ChatMessage :=
  {| data_ := store header_length (take n src) (data_ m);
     body_length_ := body_length_ m |}.

(** An [async_read] into [buffer(m.data(), header_length)]. *)
Definition fill_header (bytes : list ascii) (m : ChatMessage) : ChatMessage :=
  {| data_ := store 0 (take header_length bytes) (data_ m);
     body_length_ := body_length_ m |}.

(** An [async_read] into [buffer(m.body(), m.body_length())]. *)
Definition fill_body (bytes : list ascii) (m : ChatMessage) : ChatMessage :=
  copy_body bytes (body_length_ m) m.

(** Modelled from the spec: the method [encode_header()] writes the
    header of the current [body_length] into the buffer. *)
Definition encode_header (m : ChatMessage) : ChatMessage :=
  {| data_ := store 0 (Codec.encode_header (body_length_ m)) (data_ m);
     body_length_ := body_length_ m |}.

(** Modelled from the spec: the method [decode_header()] answers whether
    the header in the buffer is valid and, when it is, sets
    [body_length] from it. *)
Definition decode_header (m : ChatMessage) : bool * ChatMessage :=
  match Codec.decode_header (data_ m) with
  | Some n => (true, set_body_length n m)
  | None => (false, m)
  end.

(** Modelled from the spec: [str()], the body as text ("delivered body
    bytes for server-side logging of broadcast traffic"). *)
Definition str (m : ChatMessage) : list ascii := take (body_length_ m) (body m).

End WithConfig.
End Message.

(** ** The chat server ([server/src/server.cpp]) *)
Module Server.

Abbreviation ChatMessage := Message.ChatMessage.

(** Identity of an object held through a [boost::shared_ptr]. *)
Definition ptr := nat.

(** [typedef std::deque<ChatMessage> chatMessageQueue_t]. *)
Abbreviation chatMessageQueue_t := (list ChatMessage).

Definition max_recent_msgs : nat := 100.

(** [class ChatRoom]: [participants_] is a [std::set] of shared
    pointers, [recent_msgs_] a deque. *)
Record ChatRoom := {
  participants_ : gset ptr;
  recent_msgs_ : chatMessageQueue_t
}.

(** The data members of [class ChatSession]; [room_] is the reference
    [ChatRoom& room_], here the index of the server that owns the room.
    The socket is the session's identity on the wire. *)
Record ChatSession := {
  room_ : nat;
  read_msg_ : ChatMessage;
  write_msgs_ : chatMessageQueue_t
}.

(** The data members of [class ChatServer]: the acceptor with its
    endpoint, and the room, which is a member by value. *)
Record ChatServer := {
  acceptor_ : nat;
  server_room_ : ChatRoom
}.

(** An asynchronous operation handed to the [io_service]; each one holds
    a shared pointer to its session in the bound handler. *)
Inductive io_op :=
  | OpAccept (server : nat) (session : ptr)
  | OpReadHeader (session : ptr)
  | OpReadBody (session : ptr) (n : nat)
  | OpWrite (session : ptr) (bytes : list ascii).

#[export] Instance io_op_eq_dec : EqDecision io_op.
Proof. solve_decision. Defined.

Definition owner (op : io_op) : ptr :=
  match op with
  | OpAccept _ p | OpReadHeader p | OpReadBody p _ | OpWrite p _ => p
  end.

Definition is_write (op : io_op) : bool :=
  match op with OpWrite _ _ => true | _ => false end.

(** The state of one server process: [servers] is the list built by
    [main], [heap] the sessions alive behind shared pointers, [pending]
    the operations in flight, [wire] the frames fully written to
    sockets, [cout] what was printed. *)
Record World := {
  servers : list ChatServer;
  heap : gmap ptr ChatSession;
  next_ptr : ptr;
  pending : list io_op;
  wire : list (ptr * list ascii);
  cout : list (list ascii)
}.

Definition empty_world : World :=
  {| servers := []; heap := ∅; next_ptr := 0; pending := []; wire := []; cout := [] |}.

Definition set_servers (x : list ChatServer) (w : World) : World :=
  {| servers := x; heap := heap w; next_ptr := next_ptr w;
     pending := pending w; wire := wire w; cout := cout w |}.

Definition set_heap (x : gmap ptr ChatSession) (w : World) : World :=
  {| servers := servers w; heap := x; next_ptr := next_ptr w;
     pending := pending w; wire := wire w; cout := cout w |}.

Definition set_next_ptr (x : ptr) (w : World) : World :=
  {| servers := servers w; heap := heap w; next_ptr := x;
     pending := pending w; wire := wire w; cout := cout w |}.

Definition set_pending (x : list io_op) (w : World) : World :=
  {| servers := servers w; heap := heap w; next_ptr := next_ptr w;
     pending := x; wire := wire w; cout := cout w |}.

Definition set_wire (x : list (ptr * list ascii)) (w : World) : World :=
  {| servers := servers w; heap := heap w; next_ptr := next_ptr w;
     pending := pending w; wire := x; cout := cout w |}.

Definition set_cout (x : list (list ascii)) (w : World) : World :=
  {| servers := servers w; heap := heap w; next_ptr := next_ptr w;
     pending := pending w; wire := wire w; cout := x |}.

Definition empty_room : ChatRoom := {| participants_ := ∅; recent_msgs_ := [] |}.

(** The room of server [r]. *)
Definition room (r : nat) (w : World) : ChatRoom :=
  default empty_room (server_room_ <$> servers w !! r).

Definition update_room (r : nat) (f : ChatRoom → ChatRoom) (w : World) : World :=
  set_servers
    (alter (λ sv, {| acceptor_ := acceptor_ sv; server_room_ := f (server_room_ sv) |})
           r (servers w)) w.

Definition update_session (p : ptr) (f : ChatSession → ChatSession) (w : World) : World :=
  set_heap (alter f p (heap w)) w.

(** The outbound queue of session [p]. *)
Definition queue (p : ptr) (w : World) : chatMessageQueue_t :=
  default [] (write_msgs_ <$> heap w !! p).

(** Handing an operation to the [io_service]. *)
Definition issue (op : io_op) (w : World) : World :=
  set_pending (pending w ++ [op]) w.

(** [std::cout << ...]. *)
Definition print (s : list ascii) (w : World) : World :=
  set_cout (cout w ++ [s]) w.

Definition set_write_msgs (q : chatMessageQueue_t) (s : ChatSession) : ChatSession :=
  {| room_ := room_ s; read_msg_ := read_msg_ s; write_msgs_ := q |}.

Definition set_read_msg (m : ChatMessage) (s : ChatSession) : ChatSession :=
  {| room_ := room_ s; read_msg_ := m; write_msgs_ := write_msgs_ s |}.

(** [write_msgs_.push_back(msg)]. *)
Definition push (msg : ChatMessage) (s : ChatSession) : ChatSession :=
  set_write_msgs (write_msgs_ s ++ [msg]) s.

(** [write_msgs_.pop_front()]; popping an empty deque is undefined in
    the source, and never happens: a write completes only while its
    frame is at the head of the queue. *)
Definition pop_front (s : ChatSession) : ChatSession :=
  set_write_msgs (tail (write_msgs_ s)) s.

(** The participants of a [std::set] in iteration order (ascending). *)
Definition in_order (X : gset ptr) : list ptr := merge_sort (≤) (elements X).

Section WithConfig.
Context `{cfg : FrameConfig}.

(** [async_write(socket_, buffer(write_msgs_.front().data(),
    write_msgs_.front().length()), handle_write)]. *)
Definition async_write_front (p : ptr) (w : World) : World :=
  match queue p w with
  | m :: _ => issue (OpWrite p (Message.frame m)) w
  | [] => w
  end.

(** [async_read(socket_, buffer(read_msg_.data(), header_length),
    handle_read_header)]. *)
Definition async_read_header (p : ptr) (w : World) : World :=
  issue (OpReadHeader p) w.

(** [async_read(socket_, buffer(read_msg_.body(), read_msg_.body_length()),
    handle_read_body)]. *)
Definition async_read_body (p : ptr) (w : World) : World :=
  match heap w !! p with
  | Some s => issue (OpReadBody p (Message.body_length_ (read_msg_ s))) w
  | None => w
  end.

End WithConfig.

(** [ChatParticipant::deliver], dispatched to its one implementation
    [ChatSession::deliver]. *)
Module ChatParticipant.
Section WithConfig.
Context `{cfg : FrameConfig}.
(** [bool write_in_progress = !write_msgs_.empty();
    write_msgs_.push_back(msg);
    if (!write_in_progress) async_write(...front...);]
    A pointer to no session does not occur; the world is then left as
    it is. *)
Definition deliver (p : ptr) (msg : ChatMessage) (w : World) : World :=
  match heap w !! p with
  | None => w
  | Some s =>
      let write_in_progress := negb (bool_decide (write_msgs_ s = [])) in
      let w' := update_session p (push msg) w in
      if negb write_in_progress then async_write_front p w' else w'
  end.
End WithConfig.
End ChatParticipant.

Module ChatRoom.
Section WithConfig.
Context `{cfg : FrameConfig}.

(** [participants_.insert(participant);
    std::for_each(recent_msgs_.begin(), recent_msgs_.end(),
      boost::bind(&ChatParticipant::deliver, participant, _1));] *)
Definition join (r : nat) (participant : ptr) (w : World) : World :=
  let w1 := update_room r (λ rm,
    {| participants_ := {[participant]} ∪ participants_ rm;
       recent_msgs_ := recent_msgs_ rm |}) w in
  foldl (λ w msg, ChatParticipant.deliver participant msg w) w1
        (recent_msgs_ (room r w1)).

(** [participants_.erase(participant);] *)
Definition leave (r : nat) (participant : ptr) (w : World) : World :=
  update_room r (λ rm,
    {| participants_ := participants_ rm ∖ {[participant]};
       recent_msgs_ := recent_msgs_ rm |}) w.

(** [while (recent_msgs_.size() > max_recent_msgs) recent_msgs_.pop_front();] *)
Fixpoint pop_excess (q : chatMessageQueue_t) : chatMessageQueue_t :=
  match q with
  | [] => []
  | _ :: q' => if decide (max_recent_msgs < length q) then pop_excess q' else q
  end.

(** [std::cout << "[" << s << "]";
    recent_msgs_.push_back(msg);
    while (recent_msgs_.size() > max_recent_msgs) recent_msgs_.pop_front();
    std::for_each(participants_.begin(), participants_.end(),
      boost::bind(&ChatParticipant::deliver, _1, boost::ref(msg)));]
    The message is the [read_msg_] of the sender, passed by reference;
    no delivery changes a [read_msg_], so a copy stands for it. *)
Definition deliver (r : nat) (msg : ChatMessage) (w : World) : World :=
  let s := Message.str msg in
  let w0 := print ("["%char :: s ++ ["]"%char]) w in
  let w1 := update_room r (λ rm,
    {| participants_ := participants_ rm;
       recent_msgs_ := pop_excess (recent_msgs_ rm ++ [msg]) |}) w0 in
  foldl (λ w p, ChatParticipant.deliver p msg w) w1
        (in_order (participants_ (room r w1))).

End WithConfig.
End ChatRoom.

Module ChatSession.
Section WithConfig.
Context `{cfg : FrameConfig}.

Definition deliver := ChatParticipant.deliver.

(** [room_.join(shared_from_this()); async_read(...header...);] *)
Definition start (self : ptr) (w : World) : World :=
  match heap w !! self with
  | None => w
  | Some s => async_read_header self (ChatRoom.join (room_ s) self w)
  end.

(** [if (!error && read_msg_.decode_header()) async_read(...body...);
    else room_.leave(shared_from_this());]
    [error] is [true] when the [error_code] is set. *)
Definition handle_read_header (self : ptr) (error : bool) (w : World) : World :=
  match heap w !! self with
  | None => w
  | Some s =>
      if error then ChatRoom.leave (room_ s) self w
      else
        let '(ok, m) := Message.decode_header (read_msg_ s) in
        let w1 := update_session self (set_read_msg m) w in
        if ok then async_read_body self w1
        else ChatRoom.leave (room_ s) self w1
  end.

(** [if (!error) { room_.deliver(read_msg_); async_read(...header...); }
    else room_.leave(shared_from_this());] *)
Definition handle_read_body (self : ptr) (error : bool) (w : World) : World :=
  match heap w !! self with
  | None => w
  | Some s =>
      if negb error then
        async_read_header self (ChatRoom.deliver (room_ s) (read_msg_ s) w)
      else ChatRoom.leave (room_ s) self w
  end.

(** [if (!error) { write_msgs_.pop_front();
                   if (!write_msgs_.empty()) async_write(...front...); }
    else room_.leave(shared_from_this());] *)
Definition handle_write (self : ptr) (error : bool) (w : World) : World :=
  match heap w !! self with
  | None => w
  | Some s =>
      if negb error then
        let w1 := update_session self pop_front w in
        if negb (bool_decide (queue self w1 = [])) then async_write_front self w1
        else w1
      else ChatRoom.leave (room_ s) self w
  end.

End WithConfig.
End ChatSession.

Module ChatServer.
Section WithConfig.
Context `{cfg : FrameConfig}.

(** [new ChatSession(io_service_, room_)] followed by [async_accept]. *)
Definition start_accept (this : nat) (w : World) : World :=
  let new_session := next_ptr w in
  let s := {| room_ := this; read_msg_ := Message.new_message; write_msgs_ := [] |} in
  issue (OpAccept this new_session)
        (set_next_ptr (S new_session) (set_heap (<[new_session := s]> (heap w)) w)).

(** [if (!error) session->start();  start_accept();] *)
Definition handle_accept (this : nat) (session : ptr) (error : bool) (w : World) : World :=
  let w1 := if negb error then ChatSession.start session w else w in
  start_accept this w1.

(** The constructor; the new server is the last of [servers]. *)
Definition new (endpoint : nat) (w : World) : World :=
  let this := length (servers w) in
  start_accept this
    (set_servers (servers w ++ [{| acceptor_ := endpoint; server_room_ := empty_room |}]) w).

End WithConfig.
End ChatServer.

Section WithConfig.
Context `{cfg : FrameConfig}.

(** [tcp::endpoint endpoint(tcp::v4(), atoi(argv[i]));]: the endpoint
    takes its port as an [unsigned short], so the number that [atoi]
    returns is narrowed to 16 bits. *)
Definition endpoint_port (port : nat) : nat :=
  Z.to_nat (Z.of_nat port mod 2 ^ 16)%Z.

(** [main] up to [io_service.run()], when no constructor throws: one
    [ChatServer] per port argument; [ports] are [argv[1..]] after
    [atoi], where they are not negative. *)
Definition boot (ports : list nat) : World :=
  foldl (λ w port, ChatServer.new (endpoint_port port) w) empty_world ports.

(** [main]: [if (argc < 2) return 1;] and no server is built;
    otherwise, when no constructor throws, the reactor runs on what
    [boot] has built. *)
Definition main (ports : list nat) : nat + World :=
  if decide (S (length ports) < 2) then inl 1 else inr (boot ports).

(** *** The reactor: completions of pending operations *)

(** The completion of a pending operation, with its [error_code] and,
    for a read, the bytes that arrived. *)
Inductive completion :=
  | AcceptDone (server : nat) (session : ptr) (error : bool)
  | ReadHeaderDone (session : ptr) (error : bool) (bytes : list ascii)
  | ReadBodyDone (session : ptr) (n : nat) (error : bool) (bytes : list ascii)
  | WriteDone (session : ptr) (bytes : list ascii) (error : bool).

(** The operation leaves the pending list when it completes. *)
Definition take_op (op : io_op) (w : World) : option World :=
  if decide (op ∈ pending w) then Some (set_pending (remove_first op (pending w)) w)
  else None.

(** A session is referenced by the room it has joined and by the handler
    of each of its pending operations. *)
Definition referenced (w : World) (p : ptr) : Prop :=
  Exists (λ sv, p ∈ participants_ (server_room_ sv)) (servers w) ∨
  Exists (λ op, owner op = p) (pending w).

#[export] Instance referenced_dec w p : Decision (referenced w p).
Proof. unfold referenced. apply _. Defined.

(** When the last shared pointer goes away the session is destroyed,
    its queue with it, and the destructor of the socket closes it. *)
Definition release (w : World) : World :=
  set_heap (filter (λ kv, referenced w kv.1) (heap w)) w.

(** The session [p] exists.  A socket that was accepted is open as long
    as its session exists: the server closes no socket, the destructor
    of the session does. *)
Definition socket_open (p : ptr) (w : World) : Prop := is_Some (heap w !! p).

Definition transmit (p : ptr) (bytes : list ascii) (w : World) : World :=
  set_wire (wire w ++ [(p, bytes)]) w.

(** The bytes of a completed read are in [read_msg_] when the handler
    runs. *)
Definition fill_header_of (bytes : list ascii) (s : ChatSession) : ChatSession :=
  set_read_msg (Message.fill_header bytes (read_msg_ s)) s.

Definition fill_body_of (bytes : list ascii) (s : ChatSession) : ChatSession :=
  set_read_msg (Message.fill_body bytes (read_msg_ s)) s.

(** The handler bound to the completed operation is called; a
    completion of an operation that is not pending does not happen. *)
Definition dispatch (e : completion) (w : World) : option World :=
  match e with
  | AcceptDone srv p error =>
      w1 ← take_op (OpAccept srv p) w;
      Some (ChatServer.handle_accept srv p error w1)
  | ReadHeaderDone p error bytes =>
      w1 ← take_op (OpReadHeader p) w;
      Some (ChatSession.handle_read_header p error
              (update_session p (fill_header_of bytes) w1))
  | ReadBodyDone p n error bytes =>
      w1 ← take_op (OpReadBody p n) w;
      Some (ChatSession.handle_read_body p error
              (update_session p (fill_body_of bytes) w1))
  | WriteDone p bytes error =>
      w1 ← take_op (OpWrite p bytes) w;
      Some (ChatSession.handle_write p error
              (if error then w1 else transmit p bytes w1))
  end.

(** One turn of [io_service.run()]. *)
Definition step (e : completion) (w : World) : option World :=
  release <$> dispatch e w.

Fixpoint run (es : list completion) (w : World) : option World :=
  match es with
  | [] => Some w
  | e :: es' => w' ← step e w; run es' w'
  end.

(** Frames written to the socket of [p], oldest first. *)
Definition sent (p : ptr) (w : World) : list (list ascii) :=
  (filter (λ x, x.1 = p) (wire w)).*2.

(** The writes of [p] that are in flight. *)
Definition in_flight (p : ptr) (w : World) : list io_op :=
  filter (λ op, is_write op = true ∧ owner op = p) (pending w).

(** The reads and accepts of [p] that are in flight. *)
Definition reading (p : ptr) (w : World) : list io_op :=
  filter (λ op, is_write op = false ∧ owner op = p) (pending w).

(** *** Reasoning vocabulary *)

(** The write a delivery to [p] starts in world [w]. *)
Definition kick (msg : ChatMessage) (w : World) (p : ptr) : list io_op :=
  match heap w !! p with
  | Some s => if bool_decide (write_msgs_ s = []) then [OpWrite p (Message.frame msg)] else []
  | None => []
  end.

(** Operations on one room, for sequences of calls. *)
Inductive room_op :=
  | Join (p : ptr)
  | Leave (p : ptr)
  | Deliver (msg : ChatMessage).

Definition apply_op (r : nat) (op : room_op) (w : World) : World :=
  match op with
  | Join p => ChatRoom.join r p w
  | Leave p => ChatRoom.leave r p w
  | Deliver msg => ChatRoom.deliver r msg w
  end.

Definition delivered (ops : list room_op) : list ChatMessage :=
  omap (λ op, match op with Deliver msg => Some msg | _ => None end) ops.

(** A session whose accept is still pending. *)
Definition accepting (w : World) (p : ptr) : Prop :=
  ∃ srv, OpAccept srv p ∈ pending w.

(** What holds of every world between two handlers. *)
Record inv (w : World) : Prop := {
  inv_bound : ∀ p, is_Some (heap w !! p) → p < next_ptr w;
  inv_owner : ∀ op, op ∈ pending w → is_Some (heap w !! owner op);
  inv_head : ∀ p bytes, OpWrite p bytes ∈ pending w →
    ∃ m q, queue p w = m :: q ∧ bytes = Message.frame m;
  inv_one_write : ∀ p, length (in_flight p w) ≤ 1;
  inv_one_read : ∀ p, length (reading p w) ≤ 1;
  inv_accept : ∀ srv p, OpAccept srv p ∈ pending w →
    srv < length (servers w) ∧
    (∃ s, heap w !! p = Some s ∧ room_ s = srv ∧ write_msgs_ s = []) ∧
    ∀ r, p ∉ participants_ (room r w);
  inv_member : ∀ r p, p ∈ participants_ (room r w) →
    r < length (servers w) ∧ ∃ s, heap w !! p = Some s ∧ room_ s = r;
  inv_history : ∀ r, length (recent_msgs_ (room r w)) ≤ max_recent_msgs
}.

(** What a handler run on behalf of session [self] may do to the world:
    it keeps the servers, allocates only fresh sessions, leaves the wire
    alone, lets the queue of the tracked session grow at its tail only,
    and starts no read for any session but [self] and fresh ones. *)
Record evolves (self : ptr) (track : option ptr) (w w' : World) : Prop := {
  ev_servers : length (servers w') = length (servers w);
  ev_next : next_ptr w ≤ next_ptr w';
  ev_wire : wire w' = wire w;
  ev_heap : ∀ q, is_Some (heap w' !! q) → is_Some (heap w !! q) ∨ next_ptr w ≤ q;
  ev_queue : ∀ p, track = Some p → p < next_ptr w → queue p w `prefix_of` queue p w';
  ev_ops : ∀ op, op ∈ pending w' →
    op ∈ pending w ∨ is_write op = true ∨ owner op = self ∨ next_ptr w ≤ owner op
}.

(** The session and the operation a completion is about, and the frame
    it puts on the wire. *)
Definition event_session (e : completion) : ptr :=
  match e with
  | AcceptDone _ p _ | ReadHeaderDone p _ _ | ReadBodyDone p _ _ _ | WriteDone p _ _ => p
  end.

Definition event_op (e : completion) : io_op :=
  match e with
  | AcceptDone srv p _ => OpAccept srv p
  | ReadHeaderDone p _ _ => OpReadHeader p
  | ReadBodyDone p n _ _ => OpReadBody p n
  | WriteDone p bytes _ => OpWrite p bytes
  end.

Definition emitted (e : completion) : list (ptr * list ascii) :=
  match e with
  | WriteDone p bytes false => [(p, bytes)]
  | _ => []
  end.

(** A read completion of [p] that fails: with an error, or with a header
    that does not decode. *)
Definition read_fails (w : World) (p : ptr) (e : completion) : Prop :=
  match e with
  | ReadHeaderDone q error bytes =>
      q = p ∧
      (error = true ∨
       ∃ s, heap w !! p = Some s ∧
            (Message.decode_header (Message.fill_header bytes (read_msg_ s))).1 = false)
  | ReadBodyDone q _ error _ => q = p ∧ error = true
  | _ => False
  end.

(** Everything written or still to write on the connection of [p], in
    order: the frames on the wire followed by the frames of the queue. *)
Definition outbox (p : ptr) (w : World) : list (list ascii) :=
  sent p w ++ (Message.frame <$> queue p w).

(** The accepts in flight on the acceptor of server [srv]. *)
Definition is_accept_of (srv : nat) (op : io_op) : bool :=
  match op with
  | OpAccept s _ => bool_decide (s = srv)
  | _ => false
  end.

Definition accepts (srv : nat) (w : World) : list io_op :=
  filter (λ op, is_accept_of srv op = true) (pending w).

(** The reads and the accept that the handler of a completion starts:
    [handle_accept] starts the next accept whatever the error, and
    [start] the first read of an accepted session; a header that decodes
    is followed by the read of its body, a body by the read of the next
    header; a failed read is followed by nothing. *)
Definition reads_issued (e : completion) (w : World) : list io_op :=
  match e with
  | AcceptDone srv p error =>
      (if error then [] else [OpReadHeader p]) ++ [OpAccept srv (next_ptr w)]
  | ReadHeaderDone p error bytes =>
      match heap w !! p with
      | Some s =>
          let '(ok, m) := Message.decode_header (Message.fill_header bytes (read_msg_ s)) in
          if negb error && ok then [OpReadBody p (Message.body_length_ m)] else []
      | None => []
      end
  | ReadBodyDone p _ error _ => if error then [] else [OpReadHeader p]
  | WriteDone _ _ _ => []
  end.

(** The [read_msg_] of the session of a completion once its handler has
    run, from the session [s] before. *)
Definition read_msg_after (e : completion) (s : ChatSession) : ChatMessage :=
  match e with
  | ReadHeaderDone _ error bytes =>
      let m := Message.fill_header bytes (read_msg_ s) in
      if error then m else (Message.decode_header m).2
  | ReadBodyDone _ _ _ bytes => Message.fill_body bytes (read_msg_ s)
  | _ => read_msg_ s
  end.

(** A completion whose handler calls [room_.deliver]. *)
Definition delivers (e : completion) : bool :=
  match e with
  | ReadBodyDone _ _ false _ => true
  | _ => false
  end.

(** What the handler of a completion prints: [ChatRoom::deliver] prints
    the text of the message between brackets. *)
Definition logged (e : completion) (w : World) : list (list ascii) :=
  match e with
  | ReadBodyDone p _ false bytes =>
      match heap w !! p with
      | Some s =>
          ["["%char :: Message.str (Message.fill_body bytes (read_msg_ s)) ++ ["]"%char]]
      | None => []
      end
  | _ => []
  end.

(** A line of the log: some text between brackets. *)
Definition bracketed (l : list ascii) : Prop :=
  ∃ s, l = "["%char :: s ++ ["]"%char].

(** A session that receives nothing any more: it is in no room, has no
    write in flight and is not waiting to be accepted. *)
Definition muted (p : ptr) (w : World) : Prop :=
  p < next_ptr w ∧ (∀ r, p ∉ participants_ (room r w)) ∧
  in_flight p w = [] ∧ ¬ accepting w p.

(** A session as [start_accept] creates it. *)
Definition new_session (srv : nat) : ChatSession :=
  {| room_ := srv; read_msg_ := Message.new_message; write_msgs_ := [] |}.

(** What holds of the read loops between two handlers: a body is read
    with the length its header announced, which is at most
    [max_body_length]; every participant of a room is being read from;
    and the buffer of [read_msg_] keeps its size. *)
Record read_inv (w : World) : Prop := {
  rd_body : ∀ p n, OpReadBody p n ∈ pending w →
    ∃ s, heap w !! p = Some s ∧
         Message.body_length_ (read_msg_ s) = n ∧ n ≤ max_body_length;
  rd_member : ∀ r p, p ∈ participants_ (room r w) → reading p w ≠ [];
  rd_buffer : ∀ p s, heap w !! p = Some s →
    length (Message.data_ (read_msg_ s)) = header_length + max_body_length
}.

End WithConfig.

(** The worlds a server process started on [ports] can be in. *)
Inductive reachable `{cfg : FrameConfig} (ports : list nat) : World → Prop :=
  | reachable_boot : reachable ports (boot ports)
  | reachable_step w e w' :
      reachable ports w → step e w = Some w' → reachable ports w'.

End Server.

(** ** The chat client ([client/src/client.cpp]) *)
Module Client.

Abbreviation ChatMessage := Message.ChatMessage.
Abbreviation chatMessageQueue_t := (list ChatMessage).

(** The data members of [class ChatClient]; [socket_] is [true] while
    the socket is open, connected or not. *)
Record ChatClient := {
  socket_ : bool;
  read_msg_ : ChatMessage;
  write_msgs_ : chatMessageQueue_t
}.

Inductive io_op :=
  | OpConnect
  | OpReadHeader
  | OpReadBody (n : nat)
  | OpWrite (bytes : list ascii).

#[export] Instance io_op_eq_dec : EqDecision io_op.
Proof. solve_decision. Defined.

Definition is_write (op : io_op) : bool :=
  match op with OpWrite _ => true | _ => false end.

(** A handler given to [io_service_.post]. *)
Inductive task :=
  | DoWrite (msg : ChatMessage)
  | DoClose.

(** The client process as the reactor thread sees it. *)
Record World := {
  client : ChatClient;
  pending : list io_op;
  posted : list task;
  wire : list (list ascii);
  cout : list (list ascii)
}.

Definition set_client (x : ChatClient) (w : World) : World :=
  {| client := x; pending := pending w; posted := posted w;
     wire := wire w; cout := cout w |}.

Definition set_pending (x : list io_op) (w : World) : World :=
  {| client := client w; pending := x; posted := posted w;
     wire := wire w; cout := cout w |}.

Definition set_posted (x : list task) (w : World) : World :=
  {| client := client w; pending := pending w; posted := x;
     wire := wire w; cout := cout w |}.

Definition set_wire (x : list (list ascii)) (w : World) : World :=
  {| client := client w; pending := pending w; posted := posted w;
     wire := x; cout := cout w |}.

Definition set_cout (x : list (list ascii)) (w : World) : World :=
  {| client := client w; pending := pending w; posted := posted w;
     wire := wire w; cout := x |}.

Definition set_socket (b : bool) (c : ChatClient) : ChatClient :=
  {| socket_ := b; read_msg_ := read_msg_ c; write_msgs_ := write_msgs_ c |}.

Definition set_read_msg (m : ChatMessage) (c : ChatClient) : ChatClient :=
  {| socket_ := socket_ c; read_msg_ := m; write_msgs_ := write_msgs_ c |}.

Definition set_write_msgs (q : chatMessageQueue_t) (c : ChatClient) : ChatClient :=
  {| socket_ := socket_ c; read_msg_ := read_msg_ c; write_msgs_ := q |}.

Definition issue (op : io_op) (w : World) : World :=
  set_pending (pending w ++ [op]) w.

Definition post (t : task) (w : World) : World :=
  set_posted (posted w ++ [t]) w.

Definition print (s : list ascii) (w : World) : World :=
  set_cout (cout w ++ [s]) w.

Definition newline : ascii := ascii_of_nat 10.

Section WithConfig.
Context `{cfg : FrameConfig}.

(** The constructor: [async_connect] is started at once, and it opens
    the socket to start the connect. *)
Definition new : World :=
  {| client := {| socket_ := true; read_msg_ := Message.new_message; write_msgs_ := [] |};
     pending := [OpConnect]; posted := []; wire := []; cout := [] |}.

(** [io_service_.post(boost::bind(&ChatClient::do_write, this, msg));] *)
Definition write (msg : ChatMessage) (w : World) : World := post (DoWrite msg) w.

(** [io_service_.post(boost::bind(&ChatClient::do_close, this));] *)
Definition close (w : World) : World := post DoClose w.

Definition async_write_front (w : World) : World :=
  match write_msgs_ (client w) with
  | m :: _ => issue (OpWrite (Message.frame m)) w
  | [] => w
  end.

Definition async_read_header (w : World) : World := issue OpReadHeader w.

Definition async_read_body (w : World) : World :=
  issue (OpReadBody (Message.body_length_ (read_msg_ (client w)))) w.

(** [socket_.close();] *)
Definition do_close (w : World) : World :=
  set_client (set_socket false (client w)) w.

(** [if (!error) async_read(...header...);] *)
Definition handle_connect (error : bool) (w : World) : World :=
  if negb error then async_read_header w else w.

(** [if (!error && read_msg_.decode_header()) async_read(...body...);
    else do_close();] *)
Definition handle_read_header (error : bool) (w : World) : World :=
  if error then do_close w
  else
    let '(ok, m) := Message.decode_header (read_msg_ (client w)) in
    let w1 := set_client (set_read_msg m (client w)) w in
    if ok then async_read_body w1 else do_close w1.

(** [if (!error) { std::cout.write(read_msg_.body(), read_msg_.body_length());
                   std::cout << "\n"; async_read(...header...); }
    else do_close();] *)
Definition handle_read_body (error : bool) (w : World) : World :=
  if negb error then
    let m := read_msg_ (client w) in
    async_read_header
      (print [newline] (print (take (Message.body_length_ m) (Message.body m)) w))
  else do_close w.

(** [bool write_in_progress = !write_msgs_.empty();
    write_msgs_.push_back(msg);
    if (!write_in_progress) async_write(...front...);] *)
Definition do_write (msg : ChatMessage) (w : World) : World :=
  let write_in_progress := negb (bool_decide (write_msgs_ (client w) = [])) in
  let w' := set_client (set_write_msgs (write_msgs_ (client w) ++ [msg]) (client w)) w in
  if negb write_in_progress then async_write_front w' else w'.

(** [if (!error) { write_msgs_.pop_front();
                   if (!write_msgs_.empty()) async_write(...front...); }
    else do_close();] *)
Definition handle_write (error : bool) (w : World) : World :=
  if negb error then
    let w1 := set_client (set_write_msgs (tail (write_msgs_ (client w))) (client w)) w in
    if negb (bool_decide (write_msgs_ (client w1) = [])) then async_write_front w1
    else w1
  else do_close w.

(** *** The console loop of [main] *)

(** [std::cin.getline(line, n)] with [room = n - 1] on the characters
    still to come: the stored characters, the rest of the input, and
    whether [failbit] is set.  The end of the input is tested first,
    then the delimiter, then the room left in the buffer. *)
Fixpoint getline_aux (room : nat) (input stored : list ascii) {struct input}
    : list ascii * list ascii * bool :=
  match input with
  | [] => (stored, [], false)
  | c :: rest =>
      if decide (c = newline) then (stored, rest, false)
      else match room with
           | 0 => (stored, input, true)
           | S room' => getline_aux room' rest (stored ++ [c])
           end
  end.

(** The characters stored are followed by a terminating NUL; no
    character extracted at all sets [failbit] too. *)
Definition getline (n : nat) (input : list ascii) : list ascii * list ascii * bool :=
  match input with
  | [] => ([Message.nul], [], true)
  | _ => let '(stored, rest, fail) := getline_aux (n - 1) input [] in
         (stored ++ [Message.nul], rest, fail)
  end.

Fixpoint strlen (s : list ascii) : nat :=
  match s with
  | [] => 0
  | c :: s' => if decide (c = Message.nul) then 0 else S (strlen s')
  end.

(** The body of the [while] loop: the message built from [line]. *)
Definition message_of_line (line : list ascii) : ChatMessage :=
  let msg := Message.new_message in
  let msg := Message.set_body_length (strlen line) msg in
  let msg := Message.copy_body line (Message.body_length_ msg) msg in
  Message.encode_header msg.

(** [while (std::cin.getline(line, max_body_length + 1)) { ... c.write(msg); }]:
    the messages written, or [None] when [fuel] iterations do not reach
    the end of the loop. *)
Fixpoint console_loop (fuel : nat) (input : list ascii) : option (list ChatMessage) :=
  match fuel with
  | 0 => None
  | S fuel' =>
      let '(line, rest, fail) := getline (max_body_length + 1) input in
      if fail then Some []
      else msgs ← console_loop fuel' rest; Some (message_of_line line :: msgs)
  end.

(** The handlers [main] posts for the console input [input]. *)
Definition main_posts (input : list ascii) : option (list task) :=
  msgs ← console_loop (S (length input)) input;
  Some ((DoWrite <$> msgs) ++ [DoClose]).

(** A frame that is valid by construction: built by the loop body from
    a line no longer than [max_body_length], with that length as its
    [body_length], and with a header that decodes. *)
Definition valid_frame (msg : ChatMessage) : Prop :=
  ∃ line, msg = message_of_line line ∧
          Message.body_length_ msg = strlen line ∧
          strlen line ≤ max_body_length ∧
          Message.decode_header msg = (true, msg).

(** *** The reactor *)

(** What happens to the client: calls of [write] and [close] from the
    console thread, a posted handler run by the reactor, and completions
    of pending operations. *)
Inductive event :=
  | CallWrite (msg : ChatMessage)
  | CallClose
  | RunPosted (i : nat)
  | ConnectDone (error : bool)
  | ReadHeaderDone (error : bool) (bytes : list ascii)
  | ReadBodyDone (n : nat) (error : bool) (bytes : list ascii)
  | WriteDone (bytes : list ascii) (error : bool).

Definition take_op (op : io_op) (w : World) : option World :=
  if decide (op ∈ pending w) then Some (set_pending (remove_first op (pending w)) w)
  else None.

Definition run_task (t : task) (w : World) : World :=
  match t with
  | DoWrite msg => do_write msg w
  | DoClose => do_close w
  end.

Definition step (e : event) (w : World) : option World :=
  match e with
  | CallWrite msg => Some (write msg w)
  | CallClose => Some (close w)
  | RunPosted i =>
      t ← posted w !! i;
      Some (run_task t (set_posted (delete i (posted w)) w))
  | ConnectDone error =>
      w1 ← take_op OpConnect w;
      Some (handle_connect error w1)
  | ReadHeaderDone error bytes =>
      w1 ← take_op OpReadHeader w;
      Some (handle_read_header error
              (set_client (set_read_msg (Message.fill_header bytes (read_msg_ (client w1))) (client w1)) w1))
  | ReadBodyDone n error bytes =>
      w1 ← take_op (OpReadBody n) w;
      Some (handle_read_body error
              (set_client (set_read_msg (Message.fill_body bytes (read_msg_ (client w1))) (client w1)) w1))
  | WriteDone bytes error =>
      w1 ← take_op (OpWrite bytes) w;
      Some (handle_write error (if error then w1 else set_wire (wire w1 ++ [bytes]) w1))
  end.

Fixpoint run (es : list event) (w : World) : option World :=
  match es with
  | [] => Some w
  | e :: es' => w' ← step e w; run es' w'
  end.

(** The writes that are in flight. *)
Definition in_flight (w : World) : list io_op :=
  filter (λ op, is_write op = true) (pending w).

(** The frames written or still to write, in order. *)
Definition outbox (w : World) : list (list ascii) :=
  wire w ++ (Message.frame <$> write_msgs_ (client w)).

(** The connect and the reads that are in flight. *)
Definition reads (w : World) : list io_op :=
  filter (λ op, is_write op = false) (pending w).

(** A connect or a read that fails: with an error, or with a header
    that does not decode. *)
Definition read_fails (w : World) (e : event) : Prop :=
  match e with
  | ConnectDone error => error = true
  | ReadHeaderDone error bytes =>
      error = true ∨
      (Message.decode_header (Message.fill_header bytes (read_msg_ (client w)))).1 = false
  | ReadBodyDone _ error _ => error = true
  | _ => False
  end.

(** The operation a completion is about. *)
Definition event_op (e : event) : option io_op :=
  match e with
  | ConnectDone _ => Some OpConnect
  | ReadHeaderDone _ _ => Some OpReadHeader
  | ReadBodyDone n _ _ => Some (OpReadBody n)
  | WriteDone bytes _ => Some (OpWrite bytes)
  | _ => None
  end.

(** The read the handler of a completion starts: a connect and a body
    are followed by the read of a header, a header that decodes by the
    read of its body, a failure by nothing. *)
Definition reads_issued (e : event) (w : World) : list io_op :=
  match e with
  | ConnectDone error => if error then [] else [OpReadHeader]
  | ReadHeaderDone error bytes =>
      let '(ok, m) :=
        Message.decode_header (Message.fill_header bytes (read_msg_ (client w))) in
      if negb error && ok then [OpReadBody (Message.body_length_ m)] else []
  | ReadBodyDone _ error _ => if error then [] else [OpReadHeader]
  | _ => []
  end.

(** [read_msg_] once the handler of a completion has run. *)
Definition read_msg_after (e : event) (m : ChatMessage) : ChatMessage :=
  match e with
  | ReadHeaderDone error bytes =>
      let m' := Message.fill_header bytes m in
      if error then m' else (Message.decode_header m').2
  | ReadBodyDone _ _ bytes => Message.fill_body bytes m
  | _ => m
  end.

(** What the handler of a completion prints: [handle_read_body] prints
    the body and a newline. *)
Definition printed (e : event) (w : World) : list (list ascii) :=
  match e with
  | ReadBodyDone _ false bytes =>
      let m := Message.fill_body bytes (read_msg_ (client w)) in
      [take (Message.body_length_ m) (Message.body m); [newline]]
  | _ => []
  end.

(** What holds of the read loop of the client between two handlers:
    the connect or one read at most is in flight; a body is read with
    the length its header announced, at most [max_body_length]; the
    buffer of [read_msg_] keeps its size; and until the connect
    completes nothing was printed. *)
Record read_inv (w : World) : Prop := {
  rd_one : length (reads w) ≤ 1;
  rd_body : ∀ n, OpReadBody n ∈ pending w →
    Message.body_length_ (read_msg_ (client w)) = n ∧ n ≤ max_body_length;
  rd_buffer :
    length (Message.data_ (read_msg_ (client w))) = header_length + max_body_length;
  rd_connect : OpConnect ∈ pending w → cout w = []
}.

(** The console input made of the lines [ls], each ended by a newline. *)
Definition line_input (ls : list (list ascii)) : list ascii :=
  ls ≫= (λ l, l ++ [newline]).

(** The message the loop builds for the line [l]: [getline] has stored
    it in the buffer followed by NUL. *)
Definition message_of (l : list ascii) : ChatMessage :=
  message_of_line (l ++ [Message.nul]).

(** What holds of the client between two handlers: a write in flight
    carries the frame at the head of the queue, and there is at most
    one. *)
Record inv (w : World) : Prop := {
  inv_head : ∀ bytes, OpWrite bytes ∈ pending w →
    ∃ m q, write_msgs_ (client w) = m :: q ∧ bytes = Message.frame m;
  inv_one_write : length (in_flight w) ≤ 1
}.

End WithConfig.

Inductive reachable `{cfg : FrameConfig} : World → Prop :=
  | reachable_new : reachable new
  | reachable_step w e w' : reachable w → step e w = Some w' → reachable w'.

End Client.

(** ** Concrete runs *)
Module Examples.
Import Server.
#[local] Existing Instance example_config.

(** The world a run ends in. *)
Definition the (o : option World) : World := default empty_world o.

Definition text (s : string) : list ascii := String.list_ascii_of_string s.

(** The frame of a chat line. *)
Definition frame_of (s : string) : list ascii :=
  Codec.encode_header (String.length s) ++ text s.

(** A client sends [s] on the connection of session [p]. *)
Definition says (p : ptr) (s : string) : list completion :=
  [ReadHeaderDone p false (Codec.encode_header (String.length s));
   ReadBodyDone p (String.length s) false (text s)].

(** One server; a client connects and says hello and world. *)
Definition chatter : list completion :=
  [AcceptDone 0 0 false] ++ says 0 "hello" ++ says 0 "world".

Definition after_chatter : World := the (run chatter (boot [4000])).




(** Two servers, one connection accepted by each. *)
Definition two_ports : World :=
  the (run [AcceptDone 0 0 false; AcceptDone 1 1 false] (boot [4000; 4001])).

(** The write of the first echo fails right after the chatter. *)
Definition write_failure : completion := WriteDone 0 (frame_of "hello") true.

Definition after_write_failure : World := the (step write_failure after_chatter).




(** The write of the first echo completes right after the chatter. *)
Definition first_write : completion := WriteDone 0 (frame_of "hello") false.

Definition after_first_write : World := the (step first_write after_chatter).

(** The client connects, the console thread writes a message, the
    reactor runs the posted handler, and the write completes. *)
Definition client_events (msg : ChatMessage) : list Client.event :=
  [Client.ConnectDone false; Client.CallWrite msg; Client.RunPosted 0].

Definition client_writing (msg : ChatMessage) : Client.World :=
  default Client.new (Client.run (client_events msg) Client.new).

Definition client_written (msg : ChatMessage) : Client.World :=
  default Client.new
    (Client.step (Client.WriteDone (Message.frame msg) false) (client_writing msg)).

(** A session as [start_accept] creates it. *)
Definition fresh (srv : nat) : ChatSession :=
  {| room_ := srv; read_msg_ := Message.new_message; write_msgs_ := [] |}.

(** The message the client builds for the line [hi]. *)
Definition hi : ChatMessage := Client.message_of_line (text "hi" ++ [Message.nul]).

(** Console input of two lines, the second without a newline. *)
Definition two_lines : list ascii :=
  text "hi" ++ [Client.newline] ++ text "you".

(** The first accept of a server fails. *)
Definition failed_accept : completion := AcceptDone 0 0 true.

Definition after_failed_accept : World := the (step failed_accept (boot [4000])).

(** The client of the first of two servers sends hi: its header
    arrives, then its body. *)
Definition hi_header : completion := ReadHeaderDone 0 false (Codec.encode_header 2).

Definition hi_body : completion := ReadBodyDone 0 2 false (text "hi").

Definition two_ports_header : World := the (step hi_header two_ports).

Definition two_ports_hi : World := the (step hi_body two_ports_header).

(** After the failed write, the muted session still sends a message. *)
Definition muted_says : list completion := says 0 "again".

Definition after_muted_says : World := the (run muted_says after_write_failure).

(** The client receives hi, or loses its connection. *)
Definition client_header : Client.World :=
  default Client.new
    (Client.step (Client.ReadHeaderDone false (Codec.encode_header 2)) (client_writing hi)).

Definition client_heard : Client.World :=
  default Client.new (Client.step (Client.ReadBodyDone 2 false (text "hi")) client_header).



(** A line of one character more than [max_body_length]. *)
Definition long_line : list ascii := replicate 513 "a"%char.






End Examples.

(** * Facts *)

(** ** The codec: round trip and rejection *)
Module CodecFacts.
Import Codec.

Lemma digit_char_is_digit d : d < 10 → is_digit (digit_char d) = true.
Proof.
  intros Hd. unfold is_digit, digit_char, zero_digit.
  rewrite nat_ascii_embedding by lia.
  apply andb_true_intro; split; apply Nat.leb_le; lia.
Qed.

Lemma digit_value_char d : d < 10 → digit_value (digit_char d) = d.
Proof.
  intros Hd. unfold digit_value, digit_char, zero_digit.
  rewrite nat_ascii_embedding by lia. lia.
Qed.

Lemma is_digit_not_space c : is_digit c = true → c ≠ space.
Proof. intros Hc ->. discriminate Hc. Qed.

Lemma digits_value_snoc ds c :
  digits_value (ds ++ [c]) = 10 * digits_value ds + digit_value c.
Proof. unfold digits_value. by rewrite foldl_app. Qed.

Lemma decimal_aux_S fuel n acc :
  decimal_aux (S fuel) n acc =
  if n / 10 =? 0 then digit_char (n mod 10) :: acc
  else decimal_aux fuel (n / 10) (digit_char (n mod 10) :: acc).
Proof. reflexivity. Qed.

(** What [decimal_aux] conses in front of the accumulator. *)
Lemma decimal_aux_spec fuel : ∀ n acc, n < fuel →
  ∃ ds, decimal_aux fuel n acc = ds ++ acc ∧ ds ≠ [] ∧
        Forall (λ c, is_digit c = true) ds ∧ digits_value ds = n ∧
        ∀ k, 0 < k → n < 10 ^ k → length ds ≤ k.
Proof.
  induction fuel as [|fuel IH]; intros n acc Hn; [lia|].
  rewrite decimal_aux_S. destruct (Nat.eqb_spec (n / 10) 0) as [Hq|Hq].
  - assert (n < 10) by (apply Nat.div_small_iff in Hq; lia).
    exists [digit_char (n mod 10)]. rewrite Nat.mod_small by done.
    split_and!.
    + done.
    + done.
    + repeat constructor. by apply digit_char_is_digit.
    + unfold digits_value. cbn [foldl]. rewrite digit_value_char by done. lia.
    + intros k Hk _. simpl. lia.
  - assert (n / 10 < fuel) as Hlt.
    { assert (0 < n) by (destruct n; [by destruct Hq|lia]).
      assert (n / 10 < n) by (apply Nat.div_lt; lia). lia. }
    destruct (IH (n / 10) (digit_char (n mod 10) :: acc) Hlt)
      as (ds & -> & Hne & Hall & Hval & Hlen).
    assert (n mod 10 < 10) as Hm by (apply Nat.mod_upper_bound; lia).
    exists (ds ++ [digit_char (n mod 10)]). split_and!.
    * by rewrite <-app_assoc.
    * by destruct ds.
    * apply Forall_app; split; [done|]. repeat constructor.
      by apply digit_char_is_digit.
    * rewrite digits_value_snoc, Hval, digit_value_char by done.
      pose proof (Nat.div_mod_eq n 10). lia.
    * intros k Hk Hpow. rewrite length_app. simpl.
      destruct k as [|[|k]]; [lia| |].
      -- simpl in Hpow. apply Nat.div_small_iff in Hpow; lia.
      -- assert (length ds ≤ S k); [|lia]. apply Hlen; [lia|].
         apply Nat.Div0.div_lt_upper_bound. by rewrite <-Nat.pow_succ_r'.
Qed.

Lemma decimal_spec n :
  decimal n ≠ [] ∧ Forall (λ c, is_digit c = true) (decimal n) ∧
  digits_value (decimal n) = n ∧
  ∀ k, 0 < k → n < 10 ^ k → length (decimal n) ≤ k.
Proof.
  unfold decimal.
  destruct (decimal_aux_spec (S n) n [] ltac:(lia)) as (ds & -> & ?).
  by rewrite app_nil_r.
Qed.

Lemma parse_digits_Some acc ds n :
  parse_digits acc ds = Some n ↔
  Forall (λ c, is_digit c = true) ds ∧
  foldl (λ a c, 10 * a + digit_value c) acc ds = n.
Proof.
  revert acc. induction ds as [|c ds IH]; intros acc; simpl.
  - split; [intros [= ->]; by split|intros [_ ->]; done].
  - destruct (is_digit c) eqn:Hc.
    + rewrite IH, Forall_cons. tauto.
    + rewrite Forall_cons. split; [done|]. intros [[? _] _]. congruence.
Qed.

Lemma skip_padding_split h :
  ∃ pad, h = replicate pad space ++ skip_padding h.
Proof.
  induction h as [|c h [pad IH]]; [by exists 0|]. simpl.
  case_decide as Hc; [|by exists 0].
  subst c. exists (S pad). simpl. by f_equal.
Qed.

Lemma skip_padding_digits pad d ds :
  is_digit d = true → skip_padding (replicate pad space ++ d :: ds) = d :: ds.
Proof.
  intros Hd. induction pad as [|pad IH].
  - cbn [replicate app skip_padding].
    rewrite decide_False; [done|]. by apply is_digit_not_space.
  - cbn [replicate app skip_padding]. by rewrite decide_True.
Qed.

(** [parse_header] accepts exactly the numeric headers, with their value. *)
Lemma parse_header_Some h n :
  parse_header h = Some n ↔
  ∃ pad d ds, h = replicate pad space ++ d :: ds ∧
              Forall (λ c, is_digit c = true) (d :: ds) ∧
              digits_value (d :: ds) = n.
Proof.
  unfold parse_header. split.
  - destruct (skip_padding_split h) as [pad Hh].
    destruct (skip_padding h) as [|d ds] eqn:Hs; [done|].
    intros [Hall Hval]%parse_digits_Some. by exists pad, d, ds.
  - intros (pad & d & ds & -> & Hall & Hval).
    rewrite skip_padding_digits by (by inversion Hall).
    by apply parse_digits_Some.
Qed.

Lemma parse_header_None h : parse_header h = None ↔ ¬ numeric h.
Proof.
  unfold numeric. split.
  - intros Hp (pad & d & ds & Hh & Hall).
    assert (parse_header h = Some (digits_value (d :: ds))) as Hs; [|congruence].
    apply parse_header_Some. by exists pad, d, ds.
  - intros Hn. destruct (parse_header h) as [n|] eqn:Hp; [|done].
    destruct Hn. apply parse_header_Some in Hp as (pad & d & ds & ? & ? & ?).
    by exists pad, d, ds.
Qed.

Section WithConfig.
Context `{cfg : FrameConfig}.

Lemma encode_header_fits b :
  0 < header_length → b < 10 ^ header_length →
  ∃ pad, encode_header b = replicate pad space ++ decimal b ∧
         length (encode_header b) = header_length.
Proof.
  intros Hpos Hb. destruct (decimal_spec b) as (_ & _ & _ & Hlen).
  specialize (Hlen _ Hpos Hb). unfold encode_header.
  exists (header_length - length (decimal b)).
  rewrite take_ge; [|rewrite length_app, length_replicate; lia].
  split; [done|]. rewrite length_app, length_replicate; lia.
Qed.

Theorem decode_encode_header b :
  0 < header_length → max_body_length < 10 ^ header_length →
  b ≤ max_body_length →
  decode_header (encode_header b) = Some b.
Proof.
  intros Hpos Hfit Hb.
  destruct (encode_header_fits b Hpos ltac:(lia)) as (pad & Henc & Hlen).
  unfold decode_header. rewrite take_ge by lia.
  destruct (decimal_spec b) as (Hne & Hall & Hval & _).
  assert (parse_header (encode_header b) = Some b) as ->.
  { apply parse_header_Some. destruct (decimal b) as [|d ds] eqn:Hd; [done|].
    by exists pad, d, ds. }
  by rewrite (proj2 (Nat.leb_le _ _) Hb).
Qed.

Lemma decode_header_Some h n :
  decode_header h = Some n ↔
  parse_header (take header_length h) = Some n ∧ n ≤ max_body_length.
Proof.
  unfold decode_header. destruct (parse_header _) as [v|]; [|by intuition].
  destruct (Nat.leb_spec v max_body_length); split.
  - intros [= ->]. by split.
  - by intros [[= ->] _].
  - done.
  - intros [[= ->] ?]. lia.
Qed.

(** C7. For every body length [b] with [0 ≤ b ≤ max_body_length],
    decoding the encoded header succeeds and gives [b] back; decoding
    fails on every header that is not numeric, and on every numeric
    header whose value exceeds [max_body_length].  The constants are
    such that the decimal text of [max_body_length] fits the header. *)
Theorem header_round_trip :
  0 < header_length → max_body_length < 10 ^ header_length →
  (∀ b, b ≤ max_body_length → decode_header (encode_header b) = Some b) ∧
  (∀ h, ¬ numeric (take header_length h) → decode_header h = None) ∧
  (∀ h pad d ds,
     take header_length h = replicate pad space ++ d :: ds →
     Forall (λ c, is_digit c = true) (d :: ds) →
     max_body_length < digits_value (d :: ds) →
     decode_header h = None).
Proof.
  intros Hpos Hfit. split_and!.
  - intros b Hb. by apply decode_encode_header.
  - intros h Hn. apply parse_header_None in Hn.
    unfold decode_header. by rewrite Hn.
  - intros h pad d ds Hh Hall Hbig.
    destruct (decode_header h) as [n|] eqn:Hdec; [|done].
    apply decode_header_Some in Hdec as [Hp Hle].
    apply parse_header_Some in Hp as (pad' & d' & ds' & Hh' & Hall' & Hval).
    assert (parse_header (take header_length h) = Some (digits_value (d :: ds))) as Hp1.
    { apply parse_header_Some. by exists pad, d, ds. }
    assert (parse_header (take header_length h) = Some n) as Hp2.
    { apply parse_header_Some. by exists pad', d', ds'. }
    rewrite Hp1 in Hp2. injection Hp2 as Heq. lia.
Qed.

End WithConfig.

Lemma header_round_trip_witness :
  @decode_header example_config (@encode_header example_config 512) = Some 512
  ∧ @decode_header example_config (String.list_ascii_of_string "12ab") = None
  ∧ @decode_header example_config (String.list_ascii_of_string " 513") = None.
Proof.
  destruct (@header_round_trip example_config) as (H1 & H2 & H3).
  - simpl. lia.
  - apply Nat.ltb_lt. vm_compute. reflexivity.
  - split_and!.
    + apply H1. simpl. lia.
    + apply H2. intros (pad & d & ds & Hh & Hall).
      destruct pad as [|pad]; [|by destruct pad].
      injection Hh as <- <-. inversion Hall as [|? ? _ Hall']. inversion Hall' as [|? ? _ Hall''].
      inversion Hall'' as [|? ? Hc _]. discriminate Hc.
    + apply (H3 _ 1 "5"%char (String.list_ascii_of_string "13")).
      * reflexivity.
      * repeat constructor.
      * vm_compute. lia.
Defined.

End CodecFacts.

(** ** Messages: buffers and headers *)
Module MessageFacts.
Import Message.

Lemma length_store off bytes buf :
  off ≤ List.length buf → List.length (store off bytes buf) = List.length buf.
Proof.
  intros Hoff. unfold store.
  rewrite !length_app, !length_take, length_drop. lia.
Qed.

Lemma take_store_0 bytes buf :
  List.length bytes ≤ List.length buf →
  take (List.length bytes) (store 0 bytes buf) = bytes.
Proof.
  intros Hlen. unfold store. rewrite take_0, app_nil_l.
  rewrite (take_ge bytes) by lia. by rewrite take_app_length.
Qed.

Section WithConfig.
Context `{cfg : FrameConfig}.

(** Decoding a message whose header was just encoded. *)
Lemma decode_encode_message m :
  0 < header_length → max_body_length < 10 ^ header_length →
  body_length_ m ≤ max_body_length →
  header_length ≤ List.length (data_ m) →
  decode_header (encode_header m) = (true, encode_header m).
Proof.
  intros Hpos Hfit Hb Hbuf. unfold decode_header.
  destruct (CodecFacts.encode_header_fits (body_length_ m) Hpos ltac:(lia))
    as (pad & _ & Hlen).
  assert (Codec.decode_header (data_ (encode_header m)) = Some (body_length_ m)) as ->.
  { unfold Codec.decode_header at 1. cbn [encode_header data_].
    rewrite <-Hlen at 1. rewrite take_store_0 by lia.
    pose proof (CodecFacts.decode_encode_header (body_length_ m) Hpos Hfit Hb) as Hd.
    unfold Codec.decode_header in Hd. by rewrite take_ge in Hd by lia. }
  by destruct m.
Qed.

End WithConfig.
End MessageFacts.

(** ** The console loop of the client *)
Module ConsoleFacts.
Import Client.

Lemma strlen_le s : strlen s ≤ length s.
Proof. induction s as [|c s IH]; simpl; [lia|]. case_decide; lia. Qed.

Lemma strlen_app_nul s : strlen (s ++ [Message.nul]) ≤ length s.
Proof.
  induction s as [|c s IH]; cbn [app strlen length].
  - by rewrite decide_True.
  - case_decide; lia.
Qed.

Section WithConfig.
Context `{cfg : FrameConfig}.

Lemma getline_aux_stored room input stored s rest fail :
  getline_aux room input stored = (s, rest, fail) →
  length s ≤ length stored + room.
Proof.
  revert room stored. induction input as [|c input IH]; intros room stored; simpl.
  - intros ?; simplify_eq. lia.
  - case_decide; [intros ?; simplify_eq; lia|].
    destruct room as [|room]; [intros ?; simplify_eq; lia|].
    intros Hg%IH. rewrite length_app in Hg. simpl in Hg. lia.
Qed.

Lemma getline_aux_rest room input stored s rest :
  getline_aux room input stored = (s, rest, false) →
  length rest ≤ pred (length input).
Proof.
  revert room stored. induction input as [|c input IH]; intros room stored; simpl.
  - intros ?; simplify_eq. done.
  - case_decide; [intros ?; simplify_eq; lia|].
    destruct room as [|room]; [done|].
    intros Hg%IH. lia.
Qed.

(** A line that [getline] delivers is shorter than the buffer, and the
    input has advanced. *)
Lemma getline_ok n input line rest :
  getline n input = (line, rest, false) →
  strlen line ≤ n - 1 ∧ length rest < length input.
Proof.
  unfold getline. destruct input as [|c input]; [done|].
  destruct (getline_aux _ _ _) as [[s r] f] eqn:Hg. intros ?; simplify_eq.
  split.
  - apply getline_aux_stored in Hg. simpl in Hg.
    pose proof (strlen_app_nul s). lia.
  - apply getline_aux_rest in Hg. simpl in *. lia.
Qed.

(** The loop ends on every input. *)
Lemma console_loop_total fuel : ∀ input,
  length input < fuel → is_Some (console_loop fuel input).
Proof.
  induction fuel as [|fuel IH]; intros input Hlen; [lia|].
  cbn [console_loop].
  destruct (getline _ _) as [[line rest] fail] eqn:Hg.
  destruct fail; [done|].
  apply getline_ok in Hg as [_ Hrest].
  destruct (IH rest ltac:(lia)) as [msgs ->]. done.
Qed.

Lemma message_of_line_body_length line :
  Message.body_length_ (message_of_line line) = strlen line.
Proof. reflexivity. Qed.

Lemma message_of_line_decodes line :
  0 < header_length → max_body_length < 10 ^ header_length →
  strlen line ≤ max_body_length →
  Message.decode_header (message_of_line line) = (true, message_of_line line).
Proof.
  intros Hpos Hfit Hlen. unfold message_of_line.
  apply MessageFacts.decode_encode_message; [done|done|done|].
  cbn [Message.copy_body Message.data_ Message.set_body_length Message.new_message].
  rewrite MessageFacts.length_store; rewrite length_replicate; lia.
Qed.

Lemma console_loop_valid fuel : ∀ input msgs,
  0 < header_length → max_body_length < 10 ^ header_length →
  console_loop fuel input = Some msgs → Forall valid_frame msgs.
Proof.
  induction fuel as [|fuel IH]; intros input msgs Hpos Hfit; [done|].
  cbn [console_loop].
  destruct (getline _ _) as [[line rest] fail] eqn:Hg.
  destruct fail; [by intros [= <-]|].
  destruct (console_loop fuel rest) as [msgs'|] eqn:Hloop; [|done].
  intros [= <-]. constructor; [|by eapply IH].
  apply getline_ok in Hg as [Hlen _].
  replace (max_body_length + 1 - 1) with max_body_length in Hlen by lia.
  exists line. split_and!; [done|done|done|].
  by apply message_of_line_decodes.
Qed.

(** C9. Every frame the console loop builds is valid by construction:
    the loop ends on every input, and each message it writes has the
    length of its line as [body_length], at most [max_body_length], so
    that its header decodes.  The same holds of the message built from
    any line a successful [getline] delivers. *)
Theorem console_frames_valid :
  0 < header_length → max_body_length < 10 ^ header_length →
  (∀ input line rest,
     getline (max_body_length + 1) input = (line, rest, false) →
     Message.body_length_ (message_of_line line) = strlen line ∧
     strlen line ≤ max_body_length ∧
     Message.decode_header (message_of_line line) = (true, message_of_line line)) ∧
  (∀ input, ∃ msgs,
     console_loop (S (length input)) input = Some msgs ∧
     Forall valid_frame msgs ∧
     main_posts input = Some ((DoWrite <$> msgs) ++ [DoClose])).
Proof.
  intros Hpos Hfit. split.
  - intros input line rest [Hlen _]%getline_ok.
    replace (max_body_length + 1 - 1) with max_body_length in Hlen by lia.
    split_and!; [done|done|]. by apply message_of_line_decodes.
  - intros input.
    destruct (console_loop_total (S (length input)) input ltac:(lia)) as [msgs Hloop].
    exists msgs. split_and!; [done| |].
    + by eapply console_loop_valid.
    + unfold main_posts. by rewrite Hloop.
Qed.

End WithConfig.

Lemma console_frames_valid_witness :
  ∃ msgs, @console_loop example_config 6 Examples.two_lines = Some msgs ∧
          Forall (@valid_frame example_config) msgs ∧
          Message.body_length_ <$> msgs = [2; 3].
Proof.
  destruct (@console_frames_valid example_config) as [_ Hloop].
  - simpl. lia.
  - apply Nat.ltb_lt. vm_compute. reflexivity.
  - destruct (Hloop Examples.two_lines) as (msgs & Hrun & Hvalid & _).
    exists msgs. split_and!; [done|done|].
    vm_compute in Hrun. injection Hrun as <-. reflexivity.
Defined.

End ConsoleFacts.

(** ** Rooms and sessions: what each call does *)
Module ServerFacts.
Import Server.

#[local] Set Warnings "-clear-no-such-hyp".

Ltac wsimpl :=
  unfold update_session, update_room, issue, print, transmit,
    set_servers, set_heap, set_next_ptr, set_pending, set_wire, set_cout in *;
  cbn [servers heap next_ptr pending wire cout] in *.

Lemma World_eta w :
  {| servers := servers w; heap := heap w; next_ptr := next_ptr w;
     pending := pending w; wire := wire w; cout := cout w |} = w.
Proof. by destruct w. Qed.

Lemma alter_absent (h : gmap ptr ChatSession) f p :
  h !! p = None → alter f p h = h.
Proof.
  intros Hp. apply map_eq. intros q. rewrite lookup_alter.
  case_decide; [subst; by rewrite Hp|done].
Qed.

(** *** Rooms *)

Lemma room_servers r w w' : servers w = servers w' → room r w = room r w'.
Proof. unfold room. by intros ->. Qed.

Lemma room_update_room r r' f w :
  room r' (update_room r f w) =
  if decide (r = r' ∧ r < length (servers w)) then f (room r w) else room r' w.
Proof.
  unfold room, update_room. wsimpl. rewrite list_lookup_alter.
  case_decide as Hr; subst.
  - destruct (servers w !! r') as [sv|] eqn:Hsv; simpl.
    + apply lookup_lt_Some in Hsv. by rewrite decide_True.
    + apply lookup_ge_None in Hsv. rewrite decide_False by lia. done.
  - rewrite decide_False; [done|]. by intros [? _].
Qed.

Lemma room_update_room_eq r f w :
  r < length (servers w) → room r (update_room r f w) = f (room r w).
Proof. intros Hr. rewrite room_update_room. by rewrite decide_True. Qed.

Lemma room_update_room_ne r r' f w :
  r ≠ r' → room r' (update_room r f w) = room r' w.
Proof. intros Hr. rewrite room_update_room. rewrite decide_False; [done|]. by intros [? _]. Qed.

Lemma room_out_of_range r w :
  length (servers w) ≤ r → room r w = empty_room.
Proof. intros Hr. unfold room. by rewrite lookup_ge_None_2. Qed.

Lemma update_room_out_of_range r f w :
  length (servers w) ≤ r → update_room r f w = w.
Proof.
  intros Hr. unfold update_room.
  replace (alter _ r (servers w)) with (servers w); [apply World_eta|].
  apply list_eq. intros i. rewrite list_lookup_alter.
  case_decide; [subst|done]. by rewrite lookup_ge_None_2.
Qed.

Lemma length_servers_update_room r f w :
  length (servers (update_room r f w)) = length (servers w).
Proof. wsimpl. apply length_alter. Qed.

Section WithConfig.
Context `{cfg : FrameConfig}.

(** *** [ChatSession::deliver] *)

Lemma deliver_eq p msg w :
  ChatParticipant.deliver p msg w =
  set_pending (pending w ++ kick msg w p) (set_heap (alter (push msg) p (heap w)) w).
Proof.
  unfold ChatParticipant.deliver, kick.
  destruct (heap w !! p) as [s|] eqn:Hp.
  - rewrite negb_involutive. case_bool_decide as Hq.
    + unfold async_write_front, queue. wsimpl.
      rewrite lookup_alter, decide_True, Hp by done.
      cbn. by rewrite Hq.
    + wsimpl. by rewrite app_nil_r.
  - rewrite alter_absent, app_nil_r by done. wsimpl. by rewrite World_eta.
Qed.

Lemma kick_heap msg w w' p :
  heap w' !! p = heap w !! p → kick msg w' p = kick msg w p.
Proof. unfold kick. by intros ->. Qed.

Lemma elem_of_kick op msg w p :
  op ∈ kick msg w p ↔
  op = OpWrite p (Message.frame msg) ∧ ∃ s, heap w !! p = Some s ∧ write_msgs_ s = [].
Proof.
  unfold kick. destruct (heap w !! p) as [s|].
  - case_bool_decide; [rewrite list_elem_of_singleton|rewrite elem_of_nil].
    + split; [intros ->; eauto|tauto].
    + split; [done|]. intros [_ (s' & [= <-] & ?)]. done.
  - rewrite elem_of_nil. split; [done|]. by intros [_ (? & ? & _)].
Qed.

(** A message delivered to each participant of [l] in turn. *)
Lemma broadcast_fields msg l : ∀ w,
  let w' := foldl (λ w p, ChatParticipant.deliver p msg w) w l in
  servers w' = servers w ∧ next_ptr w' = next_ptr w ∧
  wire w' = wire w ∧ cout w' = cout w.
Proof.
  induction l as [|p l IH]; intros w; [done|].
  cbn [foldl]. destruct (IH (ChatParticipant.deliver p msg w)) as (-> & -> & -> & ->).
  by rewrite deliver_eq.
Qed.

Lemma broadcast_heap msg l : ∀ w q,
  NoDup l →
  heap (foldl (λ w p, ChatParticipant.deliver p msg w) w l) !! q =
  if decide (q ∈ l) then push msg <$> heap w !! q else heap w !! q.
Proof.
  induction l as [|p l IH]; intros w q Hnd.
  - rewrite decide_False; [done|]. apply not_elem_of_nil.
  - apply NoDup_cons in Hnd as [Hp Hnd]. cbn [foldl].
    rewrite IH by done. rewrite deliver_eq. wsimpl. rewrite lookup_alter.
    destruct (decide (p = q)) as [->|Hpq].
    + rewrite decide_False by done. rewrite decide_True; [done|]. by left.
    + destruct (decide (q ∈ l)) as [Hq|Hq].
      * rewrite decide_True; [done|]. by right.
      * rewrite decide_False; [done|]. rewrite elem_of_cons. by intros [->|?].
Qed.

Lemma broadcast_pending msg l : ∀ w,
  NoDup l →
  pending (foldl (λ w p, ChatParticipant.deliver p msg w) w l) =
  pending w ++ (l ≫= kick msg w).
Proof.
  induction l as [|p l IH]; intros w Hnd.
  - cbn. by rewrite app_nil_r.
  - apply NoDup_cons in Hnd as [Hp Hnd]. cbn [foldl].
    rewrite IH by done. rewrite bind_cons, app_assoc. f_equal.
    + by rewrite deliver_eq.
    + apply Forall_bind_ext, Forall_forall. intros q Hq.
      apply kick_heap. rewrite deliver_eq. wsimpl.
      apply lookup_alter_ne. by intros ->.
Qed.

(** Several messages delivered to one participant. *)
Lemma replay_fields p msgs : ∀ w,
  let w' := foldl (λ w msg, ChatParticipant.deliver p msg w) w msgs in
  servers w' = servers w ∧ next_ptr w' = next_ptr w ∧
  wire w' = wire w ∧ cout w' = cout w.
Proof.
  induction msgs as [|m msgs IH]; intros w; [done|].
  cbn [foldl]. destruct (IH (ChatParticipant.deliver p m w)) as (-> & -> & -> & ->).
  by rewrite deliver_eq.
Qed.

Lemma replay_heap p msgs : ∀ w,
  heap (foldl (λ w msg, ChatParticipant.deliver p msg w) w msgs) =
  alter (λ s, set_write_msgs (write_msgs_ s ++ msgs) s) p (heap w).
Proof.
  induction msgs as [|m msgs IH]; intros w.
  - cbn [foldl]. apply map_eq. intros q. rewrite lookup_alter.
    case_decide; [subst|done]. destruct (heap w !! q) as [[]|]; [|done].
    simpl. unfold set_write_msgs. simpl. by rewrite app_nil_r.
  - cbn [foldl]. rewrite IH, deliver_eq. wsimpl. rewrite alter_alter_eq.
    apply alter_ext. intros s _. unfold push, set_write_msgs. simpl.
    by rewrite <-app_assoc.
Qed.

Lemma kick_push msg msg' w p :
  kick msg' (ChatParticipant.deliver p msg w) p = [].
Proof.
  unfold kick. rewrite deliver_eq. wsimpl. rewrite lookup_alter, decide_True by done.
  destruct (heap w !! p) as [s|]; [|done]. simpl.
  rewrite bool_decide_eq_false_2; [done|]. by destruct (write_msgs_ s).
Qed.

Lemma replay_pending p msgs : ∀ w,
  pending (foldl (λ w msg, ChatParticipant.deliver p msg w) w msgs) =
  pending w ++ match msgs with [] => [] | msg :: _ => kick msg w p end.
Proof.
  induction msgs as [|m msgs IH]; intros w.
  - cbn. by rewrite app_nil_r.
  - cbn [foldl]. rewrite IH. destruct msgs as [|m' msgs].
    + rewrite app_nil_r. by rewrite deliver_eq.
    + rewrite kick_push, app_nil_r. by rewrite deliver_eq.
Qed.

Lemma in_order_NoDup X : NoDup (in_order X).
Proof.
  unfold in_order. rewrite merge_sort_Permutation. apply NoDup_elements.
Qed.

Lemma elem_of_in_order p X : p ∈ in_order X ↔ p ∈ X.
Proof.
  unfold in_order. rewrite merge_sort_Permutation. apply elem_of_elements.
Qed.

(** *** [ChatRoom] *)

Lemma length_last_n {A} n (l : list A) : length (last_n n l) = length l `min` n.
Proof. unfold last_n. rewrite length_drop. lia. Qed.

Lemma last_n_app {A} n (l k : list A) :
  last_n n (last_n n l ++ k) = last_n n (l ++ k).
Proof.
  unfold last_n at 1 3. rewrite !length_app, length_last_n.
  destruct (decide (length l ≤ n)) as [Hle|Hgt].
  - unfold last_n. replace (length l - n) with 0 by lia.
    rewrite drop_0. f_equal. lia.
  - unfold last_n. rewrite !drop_app, drop_drop, length_drop. f_equal; f_equal; lia.
Qed.

Lemma pop_excess_last_n q : ChatRoom.pop_excess q = last_n max_recent_msgs q.
Proof.
  unfold last_n.
  induction q as [|x q IH]; [done|]. cbn [ChatRoom.pop_excess].
  case_decide as Hlen.
  - rewrite IH. cbn [length] in *.
    replace (S (length q) - max_recent_msgs) with (S (length q - max_recent_msgs)) by lia.
    done.
  - replace (length (x :: q) - max_recent_msgs) with 0 by lia. done.
Qed.

Lemma join_eq r p w :
  ChatRoom.join r p w =
  let w1 := update_room r (λ rm,
    {| participants_ := {[p]} ∪ participants_ rm;
       recent_msgs_ := recent_msgs_ rm |}) w in
  let msgs := recent_msgs_ (room r w) in
  set_pending (pending w ++ match msgs with [] => [] | msg :: _ => kick msg w p end)
    (set_heap (alter (λ s, set_write_msgs (write_msgs_ s ++ msgs) s) p (heap w)) w1).
Proof.
  unfold ChatRoom.join. cbn zeta.
  set (w1 := update_room r _ w).
  assert (recent_msgs_ (room r w1) = recent_msgs_ (room r w)) as ->.
  { unfold w1. rewrite room_update_room. by case_decide. }
  set (msgs := recent_msgs_ (room r w)).
  pose proof (replay_fields p msgs w1) as (Hs & Hn & Hw & Hc).
  pose proof (replay_heap p msgs w1) as Hh.
  pose proof (replay_pending p msgs w1) as Hp.
  destruct (foldl _ w1 msgs) as [sv h n pd wr co]. simpl in *. subst.
  unfold set_pending, set_heap. simpl. f_equal.
Qed.

Lemma leave_fields r p w :
  let w' := ChatRoom.leave r p w in
  heap w' = heap w ∧ next_ptr w' = next_ptr w ∧ pending w' = pending w ∧
  wire w' = wire w ∧ cout w' = cout w ∧
  length (servers w') = length (servers w).
Proof. unfold ChatRoom.leave. wsimpl. by rewrite length_alter. Qed.

Lemma room_leave r r' p w :
  room r' (ChatRoom.leave r p w) =
  if decide (r = r') then
    {| participants_ := participants_ (room r w) ∖ {[p]};
       recent_msgs_ := recent_msgs_ (room r w) |}
  else room r' w.
Proof.
  unfold ChatRoom.leave. rewrite room_update_room.
  destruct (decide (r = r')) as [<-|Hne].
  - case_decide as Hr; [done|].
    rewrite room_out_of_range by (apply Nat.nlt_ge; tauto).
    unfold empty_room. simpl. f_equal. set_solver.
  - rewrite decide_False; [done|]. tauto.
Qed.

Lemma leave_leave r p w :
  ChatRoom.leave r p (ChatRoom.leave r p w) = ChatRoom.leave r p w.
Proof.
  unfold ChatRoom.leave, update_room. wsimpl. f_equal.
  rewrite list_alter_alter_eq. apply list_eq. intros i.
  rewrite !list_lookup_alter. case_decide; [subst|done].
  destruct (servers w !! i) as [[ep [X h]]|]; [|done]. simpl.
  do 3 f_equal. set_solver.
Qed.

Lemma leave_absent r p w :
  p ∉ participants_ (room r w) → ChatRoom.leave r p w = w.
Proof.
  intros Hp. unfold ChatRoom.leave, update_room.
  replace (alter _ r (servers w)) with (servers w); [apply World_eta|].
  apply list_eq. intros i. rewrite list_lookup_alter.
  case_decide; [subst|done]. unfold room in Hp.
  destruct (servers w !! i) as [[ep [X h]]|]; [|done]. simpl in *.
  do 3 f_equal. set_solver.
Qed.

Lemma room_deliver r r' msg w :
  room r' (ChatRoom.deliver r msg w) =
  if decide (r = r' ∧ r < length (servers w)) then
    {| participants_ := participants_ (room r w);
       recent_msgs_ := ChatRoom.pop_excess (recent_msgs_ (room r w) ++ [msg]) |}
  else room r' w.
Proof.
  unfold ChatRoom.deliver. cbn zeta.
  match goal with |- context [foldl ?f ?w1 ?l] =>
    pose proof (broadcast_fields msg l w1) as (Hs & _) end.
  cbn zeta in Hs. rewrite (room_servers _ _ _ Hs).
  rewrite room_update_room. done.
Qed.

Lemma room_deliver_participants r r' msg w :
  participants_ (room r' (ChatRoom.deliver r msg w)) = participants_ (room r' w).
Proof. rewrite room_deliver. case_decide as Hr; [|done]. by destruct Hr as [<- _]. Qed.

Lemma room_deliver_heap r msg w q :
  heap (ChatRoom.deliver r msg w) !! q =
  if decide (q ∈ participants_ (room r w)) then push msg <$> heap w !! q
  else heap w !! q.
Proof.
  unfold ChatRoom.deliver. cbn zeta.
  rewrite broadcast_heap by apply in_order_NoDup.
  assert (∀ f w0, participants_ (room r (update_room r (λ rm,
     {| participants_ := participants_ rm; recent_msgs_ := f rm |}) w0))
     = participants_ (room r w0)) as Hpart.
  { intros f w0. rewrite room_update_room. by case_decide. }
  rewrite Hpart. wsimpl.
  destruct (decide (q ∈ participants_ (room r w))) as [Hq|Hq].
  - rewrite decide_True; [done|]. by apply elem_of_in_order.
  - rewrite decide_False; [done|]. by rewrite elem_of_in_order.
Qed.

Lemma room_deliver_pending r msg w :
  pending (ChatRoom.deliver r msg w) =
  pending w ++ (in_order (participants_ (room r w)) ≫= kick msg w).
Proof.
  unfold ChatRoom.deliver. cbn zeta.
  rewrite broadcast_pending by apply in_order_NoDup.
  assert (∀ f w0, participants_ (room r (update_room r (λ rm,
     {| participants_ := participants_ rm; recent_msgs_ := f rm |}) w0))
     = participants_ (room r w0)) as Hpart.
  { intros f w0. rewrite room_update_room. by case_decide. }
  rewrite Hpart. done.
Qed.

Lemma room_deliver_fields r msg w :
  let w' := ChatRoom.deliver r msg w in
  length (servers w') = length (servers w) ∧ next_ptr w' = next_ptr w ∧
  wire w' = wire w.
Proof.
  unfold ChatRoom.deliver. cbn zeta.
  match goal with |- context [foldl ?f ?w1 ?l] =>
    pose proof (broadcast_fields msg l w1) as (Hs & Hn & Hw & _) end.
  cbn zeta in *. rewrite Hs, Hn, Hw. wsimpl. by rewrite length_alter.
Qed.

Lemma room_join r r' p w :
  room r' (ChatRoom.join r p w) =
  if decide (r = r' ∧ r < length (servers w)) then
    {| participants_ := {[p]} ∪ participants_ (room r w);
       recent_msgs_ := recent_msgs_ (room r w) |}
  else room r' w.
Proof.
  rewrite join_eq. cbn zeta.
  match goal with |- room r' (set_pending _ (set_heap _ ?w1)) = _ =>
    rewrite (room_servers r' _ w1) by done end.
  by rewrite room_update_room.
Qed.

Lemma queue_lookup p w s : heap w !! p = Some s → queue p w = write_msgs_ s.
Proof. unfold queue. by intros ->. Qed.

Lemma length_apply_op r op w :
  length (servers (apply_op r op w)) = length (servers w).
Proof.
  destruct op as [p|p|msg]; cbn [apply_op].
  - rewrite join_eq. wsimpl. by rewrite length_alter.
  - apply leave_fields.
  - apply room_deliver_fields.
Qed.

Lemma recent_run r ops : ∀ w h,
  r < length (servers w) →
  recent_msgs_ (room r w) = last_n max_recent_msgs h →
  recent_msgs_ (room r (foldl (λ w op, apply_op r op w) w ops)) =
  last_n max_recent_msgs (h ++ delivered ops).
Proof.
  induction ops as [|op ops IH]; intros w h Hr Hh.
  - cbn. by rewrite app_nil_r.
  - cbn [foldl]. pose proof (length_apply_op r op w) as Hlen.
    destruct op as [p|p|msg]; cbn [apply_op] in *.
    + apply IH; [lia|]. by rewrite room_join, decide_True.
    + apply IH; [lia|]. by rewrite room_leave, decide_True.
    + replace (h ++ delivered (Deliver msg :: ops))
        with ((h ++ [msg]) ++ delivered ops) by by rewrite <-app_assoc.
      apply IH; [lia|]. rewrite room_deliver, decide_True by done.
      cbn [recent_msgs_]. by rewrite pop_excess_last_n, Hh, last_n_app.
Qed.

(** The history after any calls on a room that starts empty. *)
Lemma recent_history_calls r w ops :
  r < length (servers w) →
  recent_msgs_ (room r w) = [] →
  let w' := foldl (λ w op, apply_op r op w) w ops in
  recent_msgs_ (room r w') =
    drop (length (delivered ops) - 100) (delivered ops) ∧
  length (recent_msgs_ (room r w')) ≤ 100 ∧
  (length (delivered ops) ≤ 100 → recent_msgs_ (room r w') = delivered ops).
Proof.
  intros Hr Hempty w'. unfold w'.
  rewrite (recent_run r ops w []) by done. cbn [app]. split_and!.
  - done.
  - rewrite length_last_n. unfold max_recent_msgs. lia.
  - intros Hle. unfold last_n, max_recent_msgs.
    by replace (length (delivered ops) - 100) with 0 by lia.
Qed.

(** The history after one [deliver]. *)
Lemma recent_history_deliver r w msg :
  r < length (servers w) →
  length (recent_msgs_ (room r (ChatRoom.deliver r msg w))) ≤ 100 ∧
  recent_msgs_ (room r (ChatRoom.deliver r msg w)) =
    drop (length (recent_msgs_ (room r w) ++ [msg]) - 100)
         (recent_msgs_ (room r w) ++ [msg]).
Proof.
  intros Hr. rewrite room_deliver, decide_True by done.
  cbn [recent_msgs_]. rewrite pop_excess_last_n. split; [|done].
  rewrite length_last_n. unfold max_recent_msgs. lia.
Qed.


(** C10. [join] and [leave] never change [recent_msgs_] and touch no
    other room; [leave] changes nothing but the participant set, from
    which it removes the participant, and leaving twice, or leaving
    without being a member, is the same as leaving once or not at all. *)
Theorem join_leave_frame r p w :
  (∀ r', recent_msgs_ (room r' (ChatRoom.join r p w)) = recent_msgs_ (room r' w)) ∧
  (∀ r', recent_msgs_ (room r' (ChatRoom.leave r p w)) = recent_msgs_ (room r' w)) ∧
  (∀ r', r' ≠ r → room r' (ChatRoom.join r p w) = room r' w ∧
                  room r' (ChatRoom.leave r p w) = room r' w) ∧
  participants_ (room r (ChatRoom.leave r p w)) = participants_ (room r w) ∖ {[p]} ∧
  (heap (ChatRoom.leave r p w) = heap w ∧
   pending (ChatRoom.leave r p w) = pending w ∧
   wire (ChatRoom.leave r p w) = wire w ∧
   cout (ChatRoom.leave r p w) = cout w) ∧
  ChatRoom.leave r p (ChatRoom.leave r p w) = ChatRoom.leave r p w ∧
  (p ∉ participants_ (room r w) → ChatRoom.leave r p w = w).
Proof.
  split_and!.
  - intros r'. rewrite room_join. case_decide as Hr; [|done]. by destruct Hr as [<- _].
  - intros r'. rewrite room_leave. case_decide as Hr; [|done]. by subst.
  - intros r' Hne. rewrite room_join, room_leave.
    rewrite !decide_False; [done|congruence|]. intros [? _]. congruence.
  - by rewrite room_leave, decide_True.
  - done.
  - done.
  - done.
  - done.
  - apply leave_leave.
  - apply leave_absent.
Qed.

Lemma last_pop_excess q msg : last (ChatRoom.pop_excess (q ++ [msg])) = Some msg.
Proof.
  rewrite pop_excess_last_n. unfold last_n. rewrite length_app. cbn [length].
  unfold max_recent_msgs.
  destruct (decide (length q + 1 - 100 = 0)) as [->|Hne].
  - rewrite drop_0. apply last_snoc.
  - rewrite drop_app_le by lia. apply last_snoc.
Qed.

(** What [deliver] does to the room and to the sessions. *)
Lemma deliver_spec r msg w :
  r < length (servers w) →
  let w' := ChatRoom.deliver r msg w in
  recent_msgs_ (room r w') = ChatRoom.pop_excess (recent_msgs_ (room r w) ++ [msg]) ∧
  last (recent_msgs_ (room r w')) = Some msg ∧
  participants_ (room r w') = participants_ (room r w) ∧
  (∀ p s, p ∈ participants_ (room r w) → heap w !! p = Some s →
          queue p w' = write_msgs_ s ++ [msg]) ∧
  (∀ p, p ∉ participants_ (room r w) → heap w' !! p = heap w !! p) ∧
  (∀ self s, heap w !! self = Some s → room_ s = r →
             self ∈ participants_ (room r w) →
             queue self (ChatSession.handle_read_body self false w) =
             write_msgs_ s ++ [read_msg_ s]).
Proof.
  intros Hr w'. unfold w'. split_and!.
  - by rewrite room_deliver, decide_True.
  - rewrite room_deliver, decide_True by done. apply last_pop_excess.
  - apply room_deliver_participants.
  - intros p s Hp Hs. unfold queue.
    by rewrite room_deliver_heap, decide_True, Hs.
  - intros p Hp. by rewrite room_deliver_heap, decide_False.
  - intros self s Hs <- Hself. unfold ChatSession.handle_read_body.
    rewrite Hs. cbn [negb]. unfold async_read_header, queue. wsimpl.
    by rewrite room_deliver_heap, decide_True, Hs.
Qed.

(** What [join] does, and [start] around it. *)
Lemma join_replay r p s w :
  r < length (servers w) → heap w !! p = Some s →
  let w' := ChatRoom.join r p w in
  participants_ (room r w') = {[p]} ∪ participants_ (room r w) ∧
  recent_msgs_ (room r w') = recent_msgs_ (room r w) ∧
  queue p w' = write_msgs_ s ++ recent_msgs_ (room r w) ∧
  (∀ q, q ≠ p → heap w' !! q = heap w !! q) ∧
  (∃ ops, pending w' = pending w ++ ops ∧
          Forall (λ op, owner op = p ∧ is_write op = true) ops) ∧
  (∀ msg, queue p (ChatRoom.deliver r msg w') =
          write_msgs_ s ++ recent_msgs_ (room r w) ++ [msg]) ∧
  (room_ s = r →
     ChatSession.start p w = async_read_header p w' ∧
     pending (ChatSession.start p w) = pending w' ++ [OpReadHeader p]).
Proof.
  intros Hr Hs w'. unfold w'.
  assert (queue p (ChatRoom.join r p w) = write_msgs_ s ++ recent_msgs_ (room r w)) as Hq.
  { unfold queue. rewrite join_eq. cbn zeta. wsimpl.
    by rewrite lookup_alter, decide_True, Hs. }
  split_and!.
  - by rewrite room_join, decide_True.
  - by rewrite room_join, decide_True.
  - done.
  - intros q Hq'. rewrite join_eq. cbn zeta. wsimpl. by rewrite lookup_alter_ne.
  - rewrite join_eq. cbn zeta. wsimpl. eexists. split; [done|].
    destruct (recent_msgs_ (room r w)) as [|m ?]; [done|].
    apply Forall_forall. intros op [-> _]%elem_of_kick. done.
  - intros msg. unfold queue in *. rewrite room_deliver_heap.
    rewrite decide_True by (rewrite room_join, decide_True by done; set_solver).
    destruct (heap (ChatRoom.join r p w) !! p) as [s'|] eqn:Hs'.
    + simpl in *. rewrite Hq. by rewrite app_assoc.
    + rewrite join_eq in Hs'. cbn zeta in Hs'. wsimpl.
      rewrite lookup_alter, decide_True, Hs in Hs' by done. done.
  - intros <-. unfold ChatSession.start. rewrite Hs. done.
Qed.

End WithConfig.
End ServerFacts.

(** ** The invariant of the server *)
Module ReactorFacts.
Import Server ServerFacts.

#[local] Set Warnings "-clear-no-such-hyp".

(** *** Pending operations *)

Lemma elem_of_remove_first {A} `{EqDecision A} (op' op : A) l :
  op' ∈ remove_first op l → op' ∈ l.
Proof.
  induction l as [|x l IH]; [done|]. cbn [remove_first].
  case_decide; rewrite !elem_of_cons; [tauto|]. intros [->|?]; [by left|right; auto].
Qed.

Lemma elem_of_remove_first_ne {A} `{EqDecision A} (op' op : A) l :
  op' ≠ op → op' ∈ l → op' ∈ remove_first op l.
Proof.
  intros Hne. induction l as [|x l IH]; [done|]. cbn [remove_first].
  case_decide; rewrite !elem_of_cons; [intros [->|?]; [congruence|done]|].
  intros [->|?]; [by left|right; auto].
Qed.

Lemma filter_remove_first_ne {A} `{EqDecision A} (P : A → Prop) `{∀ x, Decision (P x)} op l :
  ¬ P op → filter P (remove_first op l) = filter P l.
Proof.
  intros Hop. induction l as [|x l IH]; [done|]. cbn [remove_first].
  case_decide; subst.
  - by rewrite filter_cons_False.
  - rewrite !filter_cons. case_decide; by rewrite IH.
Qed.

Lemma length_filter_remove_first {A} `{EqDecision A} (P : A → Prop) `{∀ x, Decision (P x)} op l :
  op ∈ l → P op →
  S (length (filter P (remove_first op l))) = length (filter P l).
Proof.
  intros Hin Hop. induction l as [|x l IH]; [by apply elem_of_nil in Hin|].
  cbn [remove_first]. case_decide; subst.
  - by rewrite filter_cons_True.
  - apply elem_of_cons in Hin as [->|Hin]; [done|].
    rewrite !filter_cons. case_decide; cbn [length]; by rewrite IH.
Qed.

Lemma filter_nil_iff {A} (P : A → Prop) `{∀ x, Decision (P x)} (l : list A) :
  filter P l = [] ↔ ∀ x, x ∈ l → ¬ P x.
Proof.
  split.
  - intros Hnil x Hx HP. by eapply filter_nil_not_elem_of.
  - intros Hall. induction l as [|x l IH]; [done|].
    rewrite filter_cons_False by (apply Hall; by left).
    apply IH. intros y Hy. apply Hall. by right.
Qed.

Section WithConfig.
Context `{cfg : FrameConfig}.

Lemma in_flight_nil p w :
  in_flight p w = [] ↔ ∀ bytes, OpWrite p bytes ∉ pending w.
Proof.
  unfold in_flight. rewrite filter_nil_iff. split.
  - intros Hall bytes Hin. by apply (Hall _ Hin).
  - intros Hall [| | |q bytes] Hin [Hw Ho]; try done. simpl in Ho. subst.
    by apply (Hall bytes).
Qed.

Lemma reading_nil p w :
  reading p w = [] ↔ ∀ op, op ∈ pending w → owner op = p → is_write op = true.
Proof.
  unfold reading. rewrite filter_nil_iff. split.
  - intros Hall op Hin Ho. destruct (is_write op) eqn:Hw; [done|].
    by destruct (Hall _ Hin).
  - intros Hall op Hin [Hw Ho]. rewrite Hall in Hw; done.
Qed.

Lemma inv_no_write w p : inv w → queue p w = [] → in_flight p w = [].
Proof.
  intros Hinv Hq. apply in_flight_nil. intros bytes Hin.
  destruct (inv_head _ Hinv _ _ Hin) as (m & q & Hq' & _). congruence.
Qed.

(** Fields that the invariant does not read. *)
Lemma inv_transmit p bytes w : inv w → inv (transmit p bytes w).
Proof. by intros []. Qed.

Lemma inv_print s w : inv w → inv (print s w).
Proof. by intros []. Qed.

Lemma inv_take_op op w w' : inv w → take_op op w = Some w' → inv w'.
Proof.
  intros [] Htake. unfold take_op in Htake. case_decide as Hin; [|done].
  injection Htake as <-.
  assert (∀ op', op' ∈ remove_first op (pending w) → op' ∈ pending w) as Hsub
    by (intros op'; apply elem_of_remove_first).
  split; wsimpl; try done.
  - auto.
  - intros p bytes Hop. by apply inv_head0, Hsub.
  - intros p. etrans; [|apply (inv_one_write0 p)]. unfold in_flight. wsimpl.
    destruct (decide (is_write op = true ∧ owner op = p)) as [HP|HP].
    + rewrite <-(length_filter_remove_first _ op (pending w)) by done. lia.
    + by rewrite filter_remove_first_ne.
  - intros p. etrans; [|apply (inv_one_read0 p)]. unfold reading. wsimpl.
    destruct (decide (is_write op = false ∧ owner op = p)) as [HP|HP].
    + rewrite <-(length_filter_remove_first _ op (pending w)) by done. lia.
    + by rewrite filter_remove_first_ne.
  - intros srv p Hop. by apply inv_accept0, Hsub.
Qed.

(** What the completed operation leaves behind. *)
Lemma take_op_fields op w w' :
  take_op op w = Some w' →
  op ∈ pending w ∧ pending w' = remove_first op (pending w) ∧
  servers w' = servers w ∧ heap w' = heap w ∧ next_ptr w' = next_ptr w ∧
  wire w' = wire w ∧ cout w' = cout w.
Proof.
  unfold take_op. case_decide; [|done]. by intros [= <-].
Qed.

Lemma take_write_in_flight p bytes w w' :
  inv w → take_op (OpWrite p bytes) w = Some w' → in_flight p w' = [].
Proof.
  intros Hinv (Hin & Hp & _)%take_op_fields.
  apply length_zero_iff_nil. pose proof (inv_one_write _ Hinv p) as Hone.
  unfold in_flight in *. rewrite Hp.
  rewrite <-(length_filter_remove_first _ (OpWrite p bytes) (pending w)) in Hone by done.
  lia.
Qed.

Lemma take_read_reading op w w' :
  inv w → is_write op = false → take_op op w = Some w' →
  reading (owner op) w' = [].
Proof.
  intros Hinv Hop (Hin & Hp & _)%take_op_fields.
  apply length_zero_iff_nil. pose proof (inv_one_read _ Hinv (owner op)) as Hone.
  unfold reading in *. rewrite Hp.
  rewrite <-(length_filter_remove_first _ op (pending w)) in Hone by done.
  lia.
Qed.

Lemma lookup_update_session p f w q :
  heap (update_session p f w) !! q =
  if decide (p = q) then f <$> heap w !! p else heap w !! q.
Proof. wsimpl. apply lookup_alter. Qed.

Lemma is_Some_update_session p f w q :
  is_Some (heap (update_session p f w) !! q) ↔ is_Some (heap w !! q).
Proof.
  rewrite lookup_update_session. case_decide; [subst|done].
  by rewrite fmap_is_Some.
Qed.

Lemma queue_update_session p f w q :
  queue q (update_session p f w) =
  if decide (p = q) then default [] (write_msgs_ ∘ f <$> heap w !! p) else queue q w.
Proof.
  unfold queue. rewrite lookup_update_session. case_decide; [|done].
  by destruct (heap w !! p).
Qed.

(** A change to one session that keeps its room, keeps the queue of an
    accepting session empty and keeps the frame in flight at the head. *)
Lemma inv_update_session p f w :
  inv w →
  (∀ s, room_ (f s) = room_ s) →
  (∀ s, heap w !! p = Some s → accepting w p → write_msgs_ (f s) = []) →
  (∀ s bytes, heap w !! p = Some s → OpWrite p bytes ∈ pending w →
     ∃ m q, write_msgs_ (f s) = m :: q ∧ bytes = Message.frame m) →
  inv (update_session p f w).
Proof.
  intros [] Hroom Hacc Hhead. split.
  - intros q Hq%is_Some_update_session. by apply inv_bound0.
  - intros op Hop. apply is_Some_update_session. by apply inv_owner0.
  - intros q bytes Hop. rewrite queue_update_session. case_decide; [subst|by apply inv_head0].
    destruct (inv_owner0 _ Hop) as [s Hs]. simpl in Hs. rewrite Hs. simpl. eauto.
  - done.
  - done.
  - intros srv q Hop. destruct (inv_accept0 _ _ Hop) as (Hsrv & (s & Hs & Hr & Hq) & Hpart).
    split_and!; [done| |done]. rewrite lookup_update_session.
    destruct (decide (p = q)) as [->|]; [|eauto].
    rewrite Hs. simpl. eexists. split_and!; [done|by rewrite Hroom|].
    apply Hacc; [done|]. by exists srv.
  - intros r q Hq. destruct (inv_member0 _ _ Hq) as (Hr & s & Hs & Hrs).
    split; [done|]. rewrite lookup_update_session.
    destruct (decide (p = q)) as [->|]; [|eauto].
    rewrite Hs. simpl. eexists. split; [done|]. by rewrite Hroom.
  - done.
Qed.

Lemma accepting_issue op w p :
  (∀ srv q, op ≠ OpAccept srv q) → accepting (issue op w) p ↔ accepting w p.
Proof.
  intros Hop. unfold accepting. wsimpl. split; intros [srv Hin]; exists srv.
  - apply elem_of_app in Hin as [?|Hin%list_elem_of_singleton]; [done|].
    by destruct (Hop srv p).
  - apply elem_of_app. by left.
Qed.

Lemma inv_issue_read op w :
  inv w → is_write op = false → (∀ srv q, op ≠ OpAccept srv q) →
  is_Some (heap w !! owner op) → reading (owner op) w = [] →
  inv (issue op w).
Proof.
  intros [] Hw Hna Hsome Hread. split; wsimpl; try done.
  - intros op' [?|Heq%list_elem_of_singleton]%elem_of_app; [auto|by subst].
  - intros p bytes [?|Heq%list_elem_of_singleton]%elem_of_app; [by apply inv_head0|].
    by rewrite <-Heq in Hw.
  - intros p. unfold in_flight. wsimpl. rewrite filter_app.
    rewrite (filter_cons_False _ op) by (intros [? _]; congruence).
    rewrite filter_nil, app_nil_r. apply inv_one_write0.
  - intros p. unfold reading in *. wsimpl. rewrite filter_app, length_app.
    destruct (decide (owner op = p)) as [<-|Hne].
    + rewrite Hread. rewrite filter_cons_True by done. simpl. lia.
    + rewrite (filter_cons_False _ op) by (intros [_ ?]; congruence).
      rewrite filter_nil. simpl. pose proof (inv_one_read0 p). unfold reading in *. lia.
  - intros srv p [?|Heq%list_elem_of_singleton]%elem_of_app; [by apply inv_accept0|].
    by destruct (Hna srv p).
Qed.

Lemma inv_issue_write p bytes w :
  inv w → in_flight p w = [] →
  (∃ m q, queue p w = m :: q ∧ bytes = Message.frame m) →
  inv (issue (OpWrite p bytes) w).
Proof.
  intros [] Hfl Hhead. split; wsimpl; try done.
  - intros op' [?|Heq%list_elem_of_singleton]%elem_of_app; [auto|]. subst op'. simpl.
    destruct Hhead as (m & q & Hq & _). unfold queue in Hq.
    by destruct (heap w !! p).
  - intros p' bytes' [?|Heq%list_elem_of_singleton]%elem_of_app; [by apply inv_head0|].
    by simplify_eq.
  - intros p'. unfold in_flight in *. wsimpl. rewrite filter_app, length_app.
    destruct (decide (p = p')) as [<-|Hne].
    + rewrite Hfl. rewrite filter_cons_True by done. simpl. lia.
    + rewrite (filter_cons_False _ (OpWrite p bytes)) by (intros [_ ?]; done).
      rewrite filter_nil. simpl. pose proof (inv_one_write0 p'). unfold in_flight in *. lia.
  - intros p'. unfold reading. wsimpl. rewrite filter_app.
    rewrite (filter_cons_False _ (OpWrite p bytes)) by (by intros [? _]).
    rewrite filter_nil, app_nil_r. apply inv_one_read0.
  - intros srv p' [?|Heq%list_elem_of_singleton]%elem_of_app; [by apply inv_accept0|done].
Qed.

(** A change to one room that adds as participants only sessions of
    that room that are not accepting, and keeps the history bounded. *)
Lemma inv_update_room r f w :
  inv w →
  (∀ p, p ∈ participants_ (f (room r w)) →
        p ∈ participants_ (room r w) ∨
        ((∃ s, heap w !! p = Some s ∧ room_ s = r) ∧ ¬ accepting w p)) →
  length (recent_msgs_ (f (room r w))) ≤ max_recent_msgs →
  inv (update_room r f w).
Proof.
  intros [] Hpart Hhist.
  assert (∀ r' p, p ∈ participants_ (room r' (update_room r f w)) →
            r' < length (servers w) ∧
            (p ∈ participants_ (room r' w) ∨
             ((∃ s, heap w !! p = Some s ∧ room_ s = r') ∧ ¬ accepting w p))) as Hin.
  { intros r' p. rewrite room_update_room. case_decide as Hr.
    - destruct Hr as [<- Hr]. intros Hp. split; [done|]. auto.
    - intros Hp. split; [|by left]. by apply inv_member0 in Hp as [? _]. }
  split; try done.
  - intros srv p Hop. destruct (inv_accept0 _ _ Hop) as (Hsrv & Hs & Hnp).
    split_and!; [by rewrite length_servers_update_room|done|].
    intros r' [_ [Hp|[_ Hp]]]%Hin; [by apply (Hnp r')|].
    apply Hp. by exists srv.
  - intros r' p [Hr [Hp|[Hp _]]]%Hin.
    + rewrite length_servers_update_room. by apply inv_member0.
    + by rewrite length_servers_update_room.
  - intros r'. rewrite room_update_room. case_decide; [done|apply inv_history0].
Qed.

Lemma inv_leave r p w : inv w → inv (ChatRoom.leave r p w).
Proof.
  intros Hinv. apply inv_update_room; [done| |apply Hinv].
  cbn. intros q. set_solver.
Qed.

Lemma accepting_deliver q msg w p :
  accepting (ChatParticipant.deliver q msg w) p ↔ accepting w p.
Proof.
  rewrite deliver_eq. unfold accepting. wsimpl. split; intros [srv Hin]; exists srv.
  - apply elem_of_app in Hin as [?|[? _]%elem_of_kick]; done.
  - apply elem_of_app. by left.
Qed.

(** A delivery to a session that is not accepting. *)
Lemma inv_deliver q msg w :
  inv w → ¬ accepting w q → inv (ChatParticipant.deliver q msg w).
Proof.
  intros Hinv Hacc.
  assert (inv (update_session q (push msg) w)) as Hinv1.
  { apply inv_update_session; [done|done|done|].
    intros s bytes Hs Hop. destruct (inv_head _ Hinv _ _ Hop) as (m & k & Hq & ->).
    rewrite (queue_lookup _ _ _ Hs) in Hq. cbn. rewrite Hq. eauto. }
  rewrite deliver_eq. unfold kick.
  destruct (heap w !! q) as [s|] eqn:Hs; [|by rewrite app_nil_r].
  case_bool_decide as Hq; [|by rewrite app_nil_r].
  apply (inv_issue_write q (Message.frame msg) (update_session q (push msg) w)); [done| |].
  - apply in_flight_nil. intros bytes Hop. wsimpl.
    destruct (inv_head _ Hinv _ _ Hop) as (m & k & Hq' & _).
    rewrite (queue_lookup _ _ _ Hs) in Hq'. congruence.
  - exists msg, []. split; [|done]. rewrite queue_update_session, decide_True by done.
    rewrite Hs. cbn. by rewrite Hq.
Qed.

Lemma inv_broadcast msg l : ∀ w,
  inv w → (∀ q, q ∈ l → ¬ accepting w q) →
  inv (foldl (λ w p, ChatParticipant.deliver p msg w) w l).
Proof.
  induction l as [|p l IH]; intros w Hinv Hacc; [done|]. cbn [foldl].
  apply IH.
  - apply inv_deliver; [done|]. apply Hacc. by left.
  - intros q Hq. rewrite accepting_deliver. apply Hacc. by right.
Qed.

Lemma inv_replay p msgs : ∀ w,
  inv w → ¬ accepting w p →
  inv (foldl (λ w msg, ChatParticipant.deliver p msg w) w msgs).
Proof.
  induction msgs as [|m msgs IH]; intros w Hinv Hacc; [done|]. cbn [foldl].
  apply IH; [by apply inv_deliver|by rewrite accepting_deliver].
Qed.

Lemma inv_not_accepting_member w r p :
  inv w → p ∈ participants_ (room r w) → ¬ accepting w p.
Proof.
  intros Hinv Hp [srv Hop]. destruct (inv_accept _ Hinv _ _ Hop) as (_ & _ & Hn).
  by apply (Hn r).
Qed.

Lemma inv_room_deliver r msg w : inv w → inv (ChatRoom.deliver r msg w).
Proof.
  intros Hinv. unfold ChatRoom.deliver. cbn zeta.
  set (w1 := update_room r _ _).
  assert (inv w1) as Hinv1.
  { apply inv_update_room; [by apply inv_print|cbn; auto|].
    cbn [recent_msgs_]. rewrite pop_excess_last_n, length_last_n. lia. }
  apply inv_broadcast; [done|].
  intros q Hq%elem_of_in_order. by eapply inv_not_accepting_member.
Qed.

Lemma inv_join r p s w :
  inv w → heap w !! p = Some s → room_ s = r → ¬ accepting w p →
  inv (ChatRoom.join r p w).
Proof.
  intros Hinv Hs Hr Hacc. unfold ChatRoom.join. cbn zeta.
  apply inv_replay.
  - apply inv_update_room; [done| |apply Hinv].
    cbn. intros q [Hq%elem_of_singleton|Hq]%elem_of_union; [|by left].
    subst q. right. eauto.
  - done.
Qed.

Lemma reading_room_deliver p r msg w :
  reading p (ChatRoom.deliver r msg w) = reading p w.
Proof.
  unfold reading. rewrite room_deliver_pending, filter_app.
  rewrite (proj2 (filter_nil_iff _ (_ ≫= _))); [by rewrite app_nil_r|].
  intros op (q & [-> _]%elem_of_kick & _)%list_elem_of_bind [? _]. done.
Qed.

Lemma reading_join p r q w :
  reading p (ChatRoom.join r q w) = reading p w.
Proof.
  unfold reading. rewrite join_eq. cbn zeta. wsimpl. rewrite filter_app.
  rewrite (proj2 (filter_nil_iff _ (match _ with [] => [] | _ => _ end)));
    [by rewrite app_nil_r|].
  intros op Hop [Hw _]. destruct (recent_msgs_ (room r w)); [by apply elem_of_nil in Hop|].
  apply elem_of_kick in Hop as [-> _]. done.
Qed.

Lemma is_Some_room_deliver r msg w q :
  is_Some (heap (ChatRoom.deliver r msg w) !! q) ↔ is_Some (heap w !! q).
Proof. rewrite room_deliver_heap. case_decide; [|done]. by rewrite fmap_is_Some. Qed.

Lemma is_Some_join r p w q :
  is_Some (heap (ChatRoom.join r p w) !! q) ↔ is_Some (heap w !! q).
Proof.
  rewrite join_eq. cbn zeta. wsimpl. rewrite lookup_alter.
  case_decide; [subst|done]. by rewrite fmap_is_Some.
Qed.

Lemma reading_leave p r q w : reading p (ChatRoom.leave r q w) = reading p w.
Proof. done. Qed.

Lemma reading_update_session p q f w : reading p (update_session q f w) = reading p w.
Proof. done. Qed.

(** *** The handlers keep the invariant *)

Lemma inv_handle_read_header self error w :
  inv w → reading self w = [] →
  inv (ChatSession.handle_read_header self error w).
Proof.
  intros Hinv Hread. unfold ChatSession.handle_read_header.
  destruct (heap w !! self) as [s|] eqn:Hs; [|done].
  destruct error; [by apply inv_leave|].
  destruct (Message.decode_header (read_msg_ s)) as [ok m].
  assert (inv (update_session self (set_read_msg m) w)) as Hinv1.
  { apply inv_update_session; [done|done| |].
    - intros s' Hs' [srv Hop]. destruct (inv_accept _ Hinv _ _ Hop) as (_ & (s'' & ? & _ & ?) & _).
      by simplify_eq.
    - intros s' bytes Hs' Hop. destruct (inv_head _ Hinv _ _ Hop) as (k & q & Hq & ->).
      rewrite (queue_lookup _ _ _ Hs') in Hq. eauto. }
  destruct ok; [|by apply inv_leave].
  unfold async_read_body. rewrite lookup_update_session, decide_True, Hs by done.
  cbn [fmap option_fmap option_map].
  apply inv_issue_read; [done|done|done| |done].
  cbn [owner]. apply is_Some_update_session. by rewrite Hs.
Qed.

Lemma inv_handle_read_body self error w :
  inv w → reading self w = [] →
  inv (ChatSession.handle_read_body self error w).
Proof.
  intros Hinv Hread. unfold ChatSession.handle_read_body.
  destruct (heap w !! self) as [s|] eqn:Hs; [|done].
  destruct error; cbn [negb]; [by apply inv_leave|].
  unfold async_read_header. apply inv_issue_read; [|done|done| |].
  - by apply inv_room_deliver.
  - cbn [owner]. apply is_Some_room_deliver. by rewrite Hs.
  - cbn [owner]. by rewrite reading_room_deliver.
Qed.

Lemma inv_handle_write self error w :
  inv w → in_flight self w = [] →
  inv (ChatSession.handle_write self error w).
Proof.
  intros Hinv Hfl. unfold ChatSession.handle_write.
  destruct (heap w !! self) as [s|] eqn:Hs; [|done].
  destruct error; cbn [negb]; [by apply inv_leave|].
  set (w1 := update_session self _ w).
  assert (inv w1) as Hinv1.
  { apply inv_update_session; [done|done| |].
    - intros s' Hs' [srv Hop]. destruct (inv_accept _ Hinv _ _ Hop) as (_ & (s'' & ? & _ & Hq) & _).
      simplify_eq. cbn. by rewrite Hq.
    - intros s' bytes _ Hop. by apply in_flight_nil with (bytes := bytes) in Hfl. }
  case_bool_decide as Hq; cbn [negb]; [done|].
  unfold async_write_front. destruct (queue self w1) as [|m q] eqn:Hq1; [done|].
  apply inv_issue_write; [done|done|eauto].
Qed.

Lemma inv_start self w :
  inv w → reading self w = [] → inv (ChatSession.start self w).
Proof.
  intros Hinv Hread. unfold ChatSession.start.
  destruct (heap w !! self) as [s|] eqn:Hs; [|done].
  unfold async_read_header. apply inv_issue_read; [|done|done| |].
  - eapply inv_join; [done|done|done|].
    intros [srv Hop]. by pose proof (proj1 (reading_nil _ _) Hread _ Hop eq_refl).
  - cbn [owner]. apply is_Some_join. by rewrite Hs.
  - cbn [owner]. by rewrite reading_join.
Qed.

Lemma inv_set_read_msg p (f : ChatSession → ChatMessage) w :
  inv w → inv (update_session p (λ s, set_read_msg (f s) s) w).
Proof.
  intros Hinv. apply inv_update_session; [done|done| |].
  - intros s Hs [srv Hop].
    destruct (inv_accept _ Hinv _ _ Hop) as (_ & (s' & ? & _ & ?) & _). by simplify_eq.
  - intros s bytes Hs Hop. destruct (inv_head _ Hinv _ _ Hop) as (k & q & Hq & ->).
    rewrite (queue_lookup _ _ _ Hs) in Hq. eauto.
Qed.

Lemma length_servers_join r p w :
  length (servers (ChatRoom.join r p w)) = length (servers w).
Proof. rewrite join_eq. cbn zeta. wsimpl. apply length_alter. Qed.

Lemma length_servers_start p w :
  length (servers (ChatSession.start p w)) = length (servers w).
Proof.
  unfold ChatSession.start. destruct (heap w !! p); [|done].
  unfold async_read_header. wsimpl. apply length_servers_join.
Qed.

Lemma inv_start_accept srv w :
  inv w → srv < length (servers w) → inv (ChatServer.start_accept srv w).
Proof.
  intros [] Hsrv. unfold ChatServer.start_accept. cbn zeta.
  set (n := next_ptr w).
  assert (heap w !! n = None) as Hfresh.
  { apply eq_None_not_Some. intros Hn%inv_bound0. unfold n in Hn. lia. }
  assert (∀ p, is_Some (heap w !! p) → p ≠ n) as Hne by (intros p Hp ->; by rewrite Hfresh in Hp; destruct Hp).
  assert (∀ op, op ∈ pending w → owner op ≠ n) as Hown by (intros op Hop; by apply Hne, inv_owner0).
  split; wsimpl.
  - intros p. rewrite lookup_insert. case_decide; [subst; lia|].
    intros Hp%inv_bound0. lia.
  - intros op [Hop|Heq%list_elem_of_singleton]%elem_of_app.
    + rewrite lookup_insert_ne by (apply not_eq_sym; auto). auto.
    + subst op. cbn. by rewrite lookup_insert_eq.
  - intros p bytes [Hop|Heq%list_elem_of_singleton]%elem_of_app; [|done].
    unfold queue. wsimpl. rewrite lookup_insert_ne by (apply not_eq_sym, (Hown _ Hop)).
    by apply inv_head0.
  - intros p. unfold in_flight. wsimpl. rewrite filter_app.
    rewrite (filter_cons_False _ (OpAccept _ _)) by (by intros [? _]).
    rewrite filter_nil, app_nil_r. apply inv_one_write0.
  - intros p. unfold reading in *. wsimpl. rewrite filter_app, length_app.
    destruct (decide (p = n)) as [->|Hp].
    + rewrite (proj2 (filter_nil_iff _ (pending w))).
      * rewrite filter_cons_True by done. simpl. lia.
      * intros op Hop [_ Ho]. by apply (Hown _ Hop).
    + rewrite (filter_cons_False _ (OpAccept _ _)) by (intros [_ ?]; cbn in *; congruence).
      rewrite filter_nil. simpl. pose proof (inv_one_read0 p). lia.
  - intros srv' p [Hop|Heq%list_elem_of_singleton]%elem_of_app.
    + destruct (inv_accept0 _ _ Hop) as (? & Hs & ?). split_and!; [done| |done].
      rewrite lookup_insert_ne by (apply not_eq_sym, (Hown _ Hop)). done.
    + simplify_eq. split_and!; [done| |].
      * rewrite lookup_insert_eq. eauto.
      * intros r Hr. destruct (inv_member0 _ _ Hr) as (_ & s & Hs & _).
        by apply (Hne n).
  - intros r p Hp. destruct (inv_member0 _ _ Hp) as (? & s & Hs & ?).
    split; [done|]. rewrite lookup_insert_ne by (apply not_eq_sym, Hne; eauto). eauto.
  - done.
Qed.

Lemma inv_handle_accept srv session error w :
  inv w → srv < length (servers w) → reading session w = [] →
  inv (ChatServer.handle_accept srv session error w).
Proof.
  intros Hinv Hsrv Hread. unfold ChatServer.handle_accept. cbn zeta.
  destruct error; cbn [negb].
  - by apply inv_start_accept.
  - apply inv_start_accept; [by apply inv_start|]. by rewrite length_servers_start.
Qed.

(** *** Destruction of unreferenced sessions *)

Lemma lookup_release w p :
  heap (release w) !! p = if decide (referenced w p) then heap w !! p else None.
Proof.
  unfold release. wsimpl. case_decide as Hr.
  - destruct (heap w !! p) as [s|] eqn:Hs.
    + by apply map_lookup_filter_Some.
    + apply map_lookup_filter_None. left. done.
  - apply map_lookup_filter_None. right. intros s _. done.
Qed.

Lemma referenced_owner w op : op ∈ pending w → referenced w (owner op).
Proof. intros Hop. right. apply Exists_exists. eauto. Qed.

Lemma referenced_member w r p : p ∈ participants_ (room r w) → referenced w p.
Proof.
  intros Hp. left. apply Exists_exists. unfold room in Hp.
  destruct (servers w !! r) as [sv|] eqn:Hsv; [|set_solver].
  exists sv. split; [|done]. by eapply list_elem_of_lookup_2.
Qed.

Lemma inv_release w : inv w → inv (release w).
Proof.
  intros []. split.
  - intros p. rewrite lookup_release. case_decide; [apply inv_bound0|by intros []].
  - intros op Hop. rewrite lookup_release, decide_True by by apply referenced_owner.
    by apply inv_owner0.
  - intros p bytes Hop. unfold queue.
    rewrite lookup_release, decide_True by by apply (referenced_owner _ _ Hop).
    by apply inv_head0.
  - done.
  - done.
  - intros srv p Hop. destruct (inv_accept0 _ _ Hop) as (? & ? & ?).
    split_and!; [done| |done].
    by rewrite lookup_release, decide_True by by apply (referenced_owner _ _ Hop).
  - intros r p Hp. destruct (inv_member0 _ _ Hp) as (? & ?). split; [done|].
    by rewrite lookup_release, decide_True by by eapply referenced_member.
  - done.
Qed.

(** Every session that exists after [release] is referenced. *)
Lemma release_referenced w p :
  is_Some (heap (release w) !! p) → referenced (release w) p.
Proof. rewrite lookup_release. case_decide; [done|by intros []]. Qed.

(** *** Start-up and steps *)

Lemma room_add_server sv w r :
  server_room_ sv = empty_room →
  room r (set_servers (servers w ++ [sv]) w) = room r w.
Proof.
  intros Hsv. unfold room. wsimpl.
  destruct (decide (r < length (servers w))) as [Hr|Hr].
  - by rewrite lookup_app_l.
  - rewrite (lookup_ge_None_2 (servers w)) by lia.
    rewrite lookup_app_r by lia.
    destruct (r - length (servers w)) as [|k]; cbn; [by rewrite Hsv|done].
Qed.

Lemma inv_new endpoint w : inv w → inv (ChatServer.new endpoint w).
Proof.
  intros Hinv. unfold ChatServer.new. cbn zeta.
  apply inv_start_accept; [|wsimpl; rewrite length_app; simpl; lia].
  destruct Hinv. split; try done.
  - intros srv p Hop. destruct (inv_accept0 _ _ Hop) as (? & ? & Hn).
    split_and!; [wsimpl; rewrite length_app; lia|done|].
    intros r. rewrite room_add_server by done. apply Hn.
  - intros r p. rewrite room_add_server by done. intros Hp.
    destruct (inv_member0 _ _ Hp) as (? & ?). split; [|done].
    wsimpl. rewrite length_app. lia.
  - intros r. rewrite room_add_server by done. apply inv_history0.
Qed.

Lemma inv_empty_world : inv empty_world.
Proof.
  split; cbn.
  - intros p [? Hp]. by rewrite lookup_empty in Hp.
  - intros op Hop. by apply elem_of_nil in Hop.
  - intros p bytes Hop. by apply elem_of_nil in Hop.
  - intros p. cbn. lia.
  - intros p. cbn. lia.
  - intros srv p Hop. by apply elem_of_nil in Hop.
  - intros r p Hp. rewrite room_out_of_range in Hp by (cbn; lia). set_solver.
  - intros r. rewrite room_out_of_range by (cbn; lia). cbn. lia.
Qed.

Lemma inv_boot ports : inv (boot ports).
Proof.
  unfold boot. generalize inv_empty_world. generalize empty_world.
  induction ports as [|port ports IH]; intros w Hinv; [done|].
  cbn [foldl]. by apply IH, inv_new.
Qed.

Lemma inv_dispatch e w w' : inv w → dispatch e w = Some w' → inv w'.
Proof.
  intros Hinv. destruct e as [srv p error|p error bytes|p n error bytes|p bytes error];
    cbn [dispatch]; intros Hd;
    match type of Hd with (take_op ?op w ≫= _) = _ =>
      destruct (take_op op w) as [w1|] eqn:Htake; [|done] end;
    cbn in Hd; injection Hd as <-;
    pose proof (inv_take_op _ _ _ Hinv Htake) as Hinv1.
  - apply inv_handle_accept; [done| |].
    + destruct (take_op_fields _ _ _ Htake) as (Hop & _ & -> & _).
      by destruct (inv_accept _ Hinv _ _ Hop).
    + by apply (take_read_reading (OpAccept srv p) w).
  - apply inv_handle_read_header; [by apply inv_set_read_msg|].
    rewrite reading_update_session. by apply (take_read_reading (OpReadHeader p) w).
  - apply inv_handle_read_body; [by apply inv_set_read_msg|].
    rewrite reading_update_session. by apply (take_read_reading (OpReadBody p n) w).
  - apply inv_handle_write.
    + destruct error; [done|by apply inv_transmit].
    + pose proof (take_write_in_flight _ _ _ _ Hinv Htake). by destruct error.
Qed.

Lemma inv_step e w w' : inv w → step e w = Some w' → inv w'.
Proof.
  intros Hinv. unfold step. destruct (dispatch e w) as [w1|] eqn:Hd; [|done].
  intros [= <-]. by eapply inv_release, inv_dispatch.
Qed.

Lemma reachable_inv ports w : reachable ports w → inv w.
Proof. induction 1; [apply inv_boot|by eapply inv_step]. Qed.

Lemma inv_run es : ∀ w w', inv w → run es w = Some w' → inv w'.
Proof.
  induction es as [|e es IH]; intros w w' Hinv; cbn [run]; [by intros [= <-]|].
  destruct (step e w) as [w1|] eqn:Hs; [|done]. cbn.
  apply IH. by eapply inv_step.
Qed.

Lemma reachable_run ports es : ∀ w w',
  reachable ports w → run es w = Some w' → reachable ports w'.
Proof.
  induction es as [|e es IH]; intros w w' Hreach; cbn [run]; [by intros [= <-]|].
  destruct (step e w) as [w1|] eqn:Hs; [|done]. cbn.
  apply IH. by eapply reachable_step.
Qed.

End WithConfig.
End ReactorFacts.

(** ** What a handler may change *)
Module EffectFacts.
Import Server ServerFacts ReactorFacts.

#[local] Set Warnings "-clear-no-such-hyp".

Section WithConfig.
Context `{cfg : FrameConfig}.

Lemma evolves_refl self track w : evolves self track w w.
Proof. split; auto. Qed.

Lemma evolves_trans self track w1 w2 w3 :
  evolves self track w1 w2 → evolves self track w2 w3 → evolves self track w1 w3.
Proof.
  intros [] []. split.
  - congruence.
  - lia.
  - congruence.
  - intros q [Hq|Hq]%ev_heap1; [|right; lia].
    apply ev_heap0 in Hq as [?|?]; auto.
  - intros p Hp Hlt. etrans; [by apply ev_queue0|]. apply ev_queue1; [done|lia].
  - intros op [Hop|[?|[?|?]]]%ev_ops1; [|auto|auto|right; right; right; lia].
    apply ev_ops0 in Hop. tauto.
Qed.

Lemma evolves_update_session self track q f w :
  (∀ s, track = Some q → write_msgs_ s `prefix_of` write_msgs_ (f s)) →
  evolves self track w (update_session q f w).
Proof.
  intros Hf. split; try done.
  - intros p Hp%is_Some_update_session. by left.
  - intros p Hp _. rewrite queue_update_session. case_decide; [subst|done].
    unfold queue. destruct (heap w !! p) as [s|]; [|done]. cbn. by apply Hf.
  - auto.
Qed.

Lemma evolves_update_room self track r f w :
  evolves self track w (update_room r f w).
Proof. split; auto. apply length_servers_update_room. Qed.

Lemma evolves_print self track s w : evolves self track w (print s w).
Proof. split; auto. Qed.

Lemma evolves_issue self track op w :
  is_write op = true ∨ owner op = self →
  evolves self track w (issue op w).
Proof.
  intros Hop. split; try done; [auto|].
  intros op' [?|Heq%list_elem_of_singleton]%elem_of_app; [auto|]. subst. tauto.
Qed.

Lemma evolves_deliver self track q msg w :
  evolves self track w (ChatParticipant.deliver q msg w).
Proof.
  rewrite deliver_eq.
  eapply evolves_trans; [apply (evolves_update_session _ _ q (push msg))|].
  { intros s _. by apply prefix_app_r. }
  unfold kick. destruct (heap w !! q) as [s|].
  - case_bool_decide.
    + apply (evolves_issue _ _ (OpWrite q _) (update_session q (push msg) w)). by left.
    + rewrite app_nil_r. exact (evolves_refl _ _ (update_session q (push msg) w)).
  - rewrite app_nil_r. exact (evolves_refl _ _ (update_session q (push msg) w)).
Qed.

Lemma evolves_broadcast self track msg l : ∀ w,
  evolves self track w (foldl (λ w p, ChatParticipant.deliver p msg w) w l).
Proof.
  induction l as [|p l IH]; intros w; [apply evolves_refl|]. cbn [foldl].
  eapply evolves_trans; [apply evolves_deliver|apply IH].
Qed.

Lemma evolves_replay self track p msgs : ∀ w,
  evolves self track w (foldl (λ w msg, ChatParticipant.deliver p msg w) w msgs).
Proof.
  induction msgs as [|m msgs IH]; intros w; [apply evolves_refl|]. cbn [foldl].
  eapply evolves_trans; [apply evolves_deliver|apply IH].
Qed.

Lemma evolves_join self track r p w : evolves self track w (ChatRoom.join r p w).
Proof.
  unfold ChatRoom.join. cbn zeta.
  eapply evolves_trans; [apply evolves_update_room|apply evolves_replay].
Qed.

Lemma evolves_leave self track r p w : evolves self track w (ChatRoom.leave r p w).
Proof. apply evolves_update_room. Qed.

Lemma evolves_room_deliver self track r msg w :
  evolves self track w (ChatRoom.deliver r msg w).
Proof.
  unfold ChatRoom.deliver. cbn zeta.
  eapply evolves_trans; [apply evolves_print|].
  eapply evolves_trans; [apply evolves_update_room|apply evolves_broadcast].
Qed.

Lemma evolves_start_accept self track srv w :
  evolves self track w (ChatServer.start_accept srv w).
Proof.
  unfold ChatServer.start_accept. cbn zeta. split; wsimpl.
  - done.
  - lia.
  - done.
  - intros q. rewrite lookup_insert. case_decide; [subst; right; lia|auto].
  - intros p _ Hp. unfold queue. wsimpl. rewrite lookup_insert_ne by lia. done.
  - intros op [?|Heq%list_elem_of_singleton]%elem_of_app; [auto|]. subst.
    right. right. right. cbn. lia.
Qed.

Lemma evolves_start self track w : evolves self track w (ChatSession.start self w).
Proof.
  unfold ChatSession.start. destruct (heap w !! self); [|apply evolves_refl].
  eapply evolves_trans; [apply evolves_join|apply evolves_issue; by right].
Qed.

Lemma evolves_handle_accept self track srv error w :
  evolves self track w (ChatServer.handle_accept srv self error w).
Proof.
  unfold ChatServer.handle_accept. cbn zeta.
  eapply evolves_trans; [|apply evolves_start_accept].
  destruct error; [apply evolves_refl|apply evolves_start].
Qed.

Lemma evolves_handle_read_header self track error w :
  evolves self track w (ChatSession.handle_read_header self error w).
Proof.
  unfold ChatSession.handle_read_header.
  destruct (heap w !! self) as [s|] eqn:Hs; [|apply evolves_refl].
  destruct error; [apply evolves_leave|].
  destruct (Message.decode_header _) as [ok m].
  eapply evolves_trans; [by apply (evolves_update_session _ _ self (set_read_msg m))|].
  destruct ok; [|apply evolves_leave].
  unfold async_read_body.
  destruct (heap (update_session self (set_read_msg m) w) !! self); [|apply evolves_refl].
  apply evolves_issue. by right.
Qed.

Lemma evolves_handle_read_body self track error w :
  evolves self track w (ChatSession.handle_read_body self error w).
Proof.
  unfold ChatSession.handle_read_body.
  destruct (heap w !! self) as [s|] eqn:Hs; [|apply evolves_refl].
  destruct error; cbn [negb]; [apply evolves_leave|].
  eapply evolves_trans; [apply evolves_room_deliver|apply evolves_issue; by right].
Qed.

Lemma evolves_handle_write self' self track error w :
  track ≠ Some self →
  evolves self' track w (ChatSession.handle_write self error w).
Proof.
  intros Htrack. unfold ChatSession.handle_write.
  destruct (heap w !! self) as [s|] eqn:Hs; [|apply evolves_refl].
  destruct error; cbn [negb]; [apply evolves_leave|].
  eapply evolves_trans; [by apply evolves_update_session|].
  case_bool_decide; cbn [negb]; [apply evolves_refl|].
  unfold async_write_front. destruct (queue _ _); [apply evolves_refl|].
  apply evolves_issue. by left.
Qed.

Lemma dispatch_evolves e track w w' :
  dispatch e w = Some w' →
  (track = Some (event_session e) → is_write (event_op e) = false) →
  event_op e ∈ pending w ∧
  ∃ w1, servers w1 = servers w ∧ heap w1 = heap w ∧ next_ptr w1 = next_ptr w ∧
        pending w1 = remove_first (event_op e) (pending w) ∧
        wire w1 = wire w ++ emitted e ∧
        evolves (if is_write (event_op e) then next_ptr w else event_session e)
                track w1 w'.
Proof using Type.
  intros Hd Htrack.
  destruct e as [srv p error|p error bytes|p n error bytes|p bytes error];
    cbn [dispatch] in Hd;
    match type of Hd with (take_op ?op w ≫= _) = _ =>
      destruct (take_op op w) as [w1|] eqn:Htake; [|done] end;
    cbn in Hd; injection Hd as <-;
    destruct (take_op_fields _ _ _ Htake) as (Hin & Hp & Hs & Hh & Hn & Hw & _);
    (split; [done|]); cbn [event_op event_session is_write emitted] in *.
  - exists w1. rewrite app_nil_r. split_and!; try done. apply evolves_handle_accept.
  - exists w1. rewrite app_nil_r. split_and!; try done.
    eapply evolves_trans; [|apply evolves_handle_read_header].
    apply evolves_update_session. by intros.
  - exists w1. rewrite app_nil_r. split_and!; try done.
    eapply evolves_trans; [|apply evolves_handle_read_body].
    apply evolves_update_session. by intros.
  - exists (if error then w1 else transmit p bytes w1).
    destruct error; [rewrite app_nil_r|]; (split_and!; try done).
    + apply evolves_handle_write. intros ->. by specialize (Htrack eq_refl).
    + cbn. by rewrite Hw.
    + apply evolves_handle_write. intros ->. by specialize (Htrack eq_refl).
Qed.

Lemma release_fields w :
  servers (release w) = servers w ∧ next_ptr (release w) = next_ptr w ∧
  pending (release w) = pending w ∧ wire (release w) = wire w.
Proof. done. Qed.

Lemma queue_release p w :
  socket_open p (release w) → queue p (release w) = queue p w.
Proof.
  unfold socket_open, queue. rewrite lookup_release.
  case_decide; [done|by intros []].
Qed.

(** *** Steps *)

Lemma step_wire e w w' : step e w = Some w' → wire w' = wire w ++ emitted e.
Proof.
  unfold step. destruct (dispatch e w) as [w2|] eqn:Hd; [|done]. intros [= <-].
  destruct (dispatch_evolves e None _ _ Hd ltac:(done)) as (_ & w1 & _ & _ & _ & _ & Hw & []).
  cbn. congruence.
Qed.

Lemma step_servers e w w' :
  step e w = Some w' → length (servers w') = length (servers w).
Proof.
  unfold step. destruct (dispatch e w) as [w2|] eqn:Hd; [|done]. intros [= <-].
  destruct (dispatch_evolves e None _ _ Hd ltac:(done)) as (_ & w1 & Hs & _ & _ & _ & _ & []).
  cbn. congruence.
Qed.

Lemma step_next_ptr e w w' : step e w = Some w' → next_ptr w ≤ next_ptr w'.
Proof.
  unfold step. destruct (dispatch e w) as [w2|] eqn:Hd; [|done]. intros [= <-].
  destruct (dispatch_evolves e None _ _ Hd ltac:(done)) as (_ & w1 & _ & _ & Hn & _ & _ & []).
  cbn. lia.
Qed.

Lemma step_heap e w w' q :
  step e w = Some w' → is_Some (heap w' !! q) →
  is_Some (heap w !! q) ∨ next_ptr w ≤ q.
Proof.
  unfold step. destruct (dispatch e w) as [w2|] eqn:Hd; [|done]. intros [= <-].
  destruct (dispatch_evolves e None _ _ Hd ltac:(done)) as (_ & w1 & _ & Hh & Hn & _ & _ & []).
  rewrite lookup_release. case_decide; [|by intros []].
  intros Hq%ev_heap0. by rewrite <-Hh, <-Hn.
Qed.


Lemma step_queue e p w w' :
  step e w = Some w' →
  (event_session e = p → is_write (event_op e) = false) →
  p < next_ptr w → socket_open p w' →
  queue p w `prefix_of` queue p w'.
Proof.
  unfold step. destruct (dispatch e w) as [w2|] eqn:Hd; [|done]. intros [= <-] He Hlt Hopen.
  destruct (dispatch_evolves e (Some p) _ _ Hd) as (_ & w1 & _ & Hh & Hn & _ & _ & []).
  { intros [= Heq]. by apply He. }
  rewrite queue_release by done. etrans; [|apply ev_queue0; [done|lia]].
  unfold queue. by rewrite Hh.
Qed.

Lemma step_event_pending e w w' : step e w = Some w' → event_op e ∈ pending w.
Proof.
  unfold step. destruct (dispatch e w) as [w2|] eqn:Hd; [|done]. intros _.
  by destruct (dispatch_evolves e None _ _ Hd ltac:(done)).
Qed.

End WithConfig.
End EffectFacts.

(** ** Sessions in the running server *)
Module SessionFacts.
Import Server ServerFacts ReactorFacts EffectFacts.

#[local] Set Warnings "-clear-no-such-hyp".

Section WithConfig.
Context `{cfg : FrameConfig}.

(** *** Closed sessions stay closed, idle readers stay idle *)

Lemma closed_step e p w w' :
  step e w = Some w' → p < next_ptr w → ¬ socket_open p w →
  p < next_ptr w' ∧ ¬ socket_open p w'.
Proof.
  intros Hs Hlt Hclosed. split.
  - apply step_next_ptr in Hs. lia.
  - intros [Hq|Hq]%(step_heap _ _ _ _ Hs); [done|lia].
Qed.

Lemma closed_run es : ∀ p w w',
  run es w = Some w' → p < next_ptr w → ¬ socket_open p w → ¬ socket_open p w'.
Proof.
  induction es as [|e es IH]; intros p w w'; cbn [run]; [by intros [= <-]|].
  destruct (step e w) as [w1|] eqn:Hs; [|done]. cbn. intros Hrun Hlt Hclosed.
  destruct (closed_step _ _ _ _ Hs Hlt Hclosed). by eapply IH.
Qed.



(** *** A failed read *)

Lemma lookup_update_self p f w s :
  heap w !! p = Some s → heap (update_session p f w) !! p = Some (f s).
Proof. intros Hs. by rewrite lookup_update_session, decide_True, Hs. Qed.

Lemma heap_update_self p f w s :
  heap w !! p = Some s → heap (update_session p f w) = <[p := f s]> (heap w).
Proof.
  intros Hs. wsimpl. apply map_eq. intros q.
  rewrite lookup_alter, lookup_insert. case_decide; [subst; by rewrite Hs|done].
Qed.


Lemma length_le_1_elem {A} (l : list A) x : length l ≤ 1 → x ∈ l → l = [x].
Proof.
  destruct l as [|y [|z l]]; cbn; [by intros _ ?%elem_of_nil| |lia].
  by intros _ ->%list_elem_of_singleton.
Qed.


(** *** Every session that exists is referenced *)

Lemma referenced_room w q :
  referenced w q ↔
  (∃ r, q ∈ participants_ (room r w)) ∨ (∃ op, op ∈ pending w ∧ owner op = q).
Proof.
  unfold referenced. rewrite !Exists_exists. split; (intros [Hq|Hq]; [left|by right]).
  - destruct Hq as (sv & [r Hr]%list_elem_of_lookup & Hq). exists r.
    unfold room. by rewrite Hr.
  - destruct Hq as [r Hq]. unfold room in Hq.
    destruct (servers w !! r) as [sv|] eqn:Hr; [|set_solver].
    exists sv. split; [by eapply list_elem_of_lookup_2|done].
Qed.

Lemma boot_referenced ports q :
  is_Some (heap (boot ports) !! q) → referenced (boot ports) q.
Proof.
  unfold boot.
  assert (∀ q, is_Some (heap empty_world !! q) → referenced empty_world q) as Hempty.
  { intros q' [? Hq]. cbn in Hq. by rewrite lookup_empty in Hq. }
  revert q Hempty. generalize empty_world.
  induction ports as [|port ports IH]; intros w q Hw; [by apply Hw|].
  cbn [foldl]. apply IH. clear q. intros q.
  unfold ChatServer.new, ChatServer.start_accept. cbn zeta. wsimpl.
  unfold referenced. wsimpl. rewrite lookup_insert. case_decide as Hq.
  - intros _. right. apply Exists_app. right. apply Exists_cons. by left.
  - intros [Hs|Hop]%Hw; [left|right]; apply Exists_app; by left.
Qed.

Lemma reachable_referenced ports w q :
  reachable ports w → is_Some (heap w !! q) → referenced w q.
Proof.
  destruct 1 as [|w e w' _ Hstep]; [apply boot_referenced|].
  unfold step in Hstep. destruct (dispatch e w) as [w2|]; [|done].
  injection Hstep as <-. apply release_referenced.
Qed.


(** C8, as the code has it.  A process has one server, and so one room,
    for each port it was started with, for its whole lifetime; a
    connection accepted by a server joins the room of that server and
    no other room, and every participant of a room is a session of that
    room; started with one port, the process has exactly one room. *)
Theorem one_room_per_port ports w :
  reachable ports w →
  length (servers w) = length ports ∧
  (∀ r p, p ∈ participants_ (room r w) →
          r < length ports ∧ ∃ s, heap w !! p = Some s ∧ room_ s = r) ∧
  (∀ r r' p, p ∈ participants_ (room r w) → p ∈ participants_ (room r' w) → r = r') ∧
  (∀ srv p w', step (AcceptDone srv p false) w = Some w' →
               p ∈ participants_ (room srv w') ∧
               ∀ r, p ∈ participants_ (room r w') → r = srv) ∧
  (length ports = 1 → ∀ r p, p ∈ participants_ (room r w) → r = 0).
Proof.
  intros Hreach.
  assert (∀ w, reachable ports w → length (servers w) = length ports) as Hlen.
  { clear w Hreach. induction 1 as [|w e w' _ IH Hstep].
    - unfold boot. rewrite <-(Nat.add_0_l (length ports)).
      change 0 with (length (servers empty_world)). generalize empty_world.
      induction ports as [|port ports IH]; intros w; cbn [foldl length]; [lia|].
      rewrite IH. unfold ChatServer.new, ChatServer.start_accept. wsimpl.
      rewrite length_app. cbn. lia.
    - by rewrite (step_servers _ _ _ Hstep). }
  assert (∀ w, reachable ports w → ∀ r p, p ∈ participants_ (room r w) →
            r < length ports ∧ ∃ s, heap w !! p = Some s ∧ room_ s = r) as Hmem.
  { intros w0 Hw0 r p Hp. rewrite <-(Hlen _ Hw0).
    by apply (inv_member _ (reachable_inv _ _ Hw0)). }
  assert (∀ w, reachable ports w → ∀ r r' p, p ∈ participants_ (room r w) →
            p ∈ participants_ (room r' w) → r = r') as Huniq.
  { intros w0 Hw0 r r' p (_ & s & Hs & <-)%(Hmem _ Hw0) (_ & s' & Hs' & <-)%(Hmem _ Hw0).
    by simplify_eq. }
  split_and!; [by apply Hlen|by apply Hmem|by apply Huniq| |].
  - intros srv p w' Hstep.
    assert (p ∈ participants_ (room srv w')) as Hin.
    { pose proof (reachable_inv _ _ Hreach) as Hinv.
      unfold step in Hstep. cbn [dispatch] in Hstep.
      destruct (take_op (OpAccept srv p) w) as [w1|] eqn:Htake; [|done].
      cbn in Hstep. injection Hstep as <-.
      destruct (take_op_fields _ _ _ Htake) as (Hop & _ & Hsv & Hh & _).
      destruct (inv_accept _ Hinv _ _ Hop) as (Hsrv & (s & Hs & Hr & _) & _).
      unfold ChatServer.handle_accept, ChatSession.start. cbn [negb]. rewrite Hh, Hs, Hr.
      change (room srv (release (ChatServer.start_accept srv (async_read_header p ?w0))))
        with (room srv w0).
      rewrite room_join, decide_True by (rewrite Hsv; done). cbn. set_solver. }
    split; [done|]. intros r Hr. by eapply (Huniq w'); [eapply reachable_step|..].
  - intros Hone r p (Hr & _)%(Hmem _ Hreach). lia.
Qed.

(** *** Accepting a connection *)

Lemma accept_replays_history ports w srv p w' :
  reachable ports w → step (AcceptDone srv p false) w = Some w' →
  reading p w = [OpAccept srv p] ∧
  p ∈ participants_ (room srv w') ∧
  queue p w' = recent_msgs_ (room srv w) ∧
  reading p w' = [OpReadHeader p].
Proof.
  intros Hreach Hstep. pose proof (reachable_inv _ _ Hreach) as Hinv.
  pose proof (inv_step _ _ _ Hinv Hstep) as Hinv'.
  pose proof (step_event_pending _ _ _ Hstep) as Hop. cbn [event_op] in Hop.
  destruct (inv_accept _ Hinv _ _ Hop) as (Hsrv & (s & Hs & Hr & Hq) & _).
  unfold step in Hstep. cbn [dispatch] in Hstep.
  destruct (take_op (OpAccept srv p) w) as [w1|] eqn:Htake; [|done].
  cbn [mbind option_bind fmap option_fmap option_map] in Hstep. injection Hstep as <-.
  destruct (take_op_fields _ _ _ Htake) as (_ & _ & Hsv & Hh & Hn & _).
  assert (heap w1 !! p = Some s) as Hs1 by (by rewrite Hh).
  set (w2 := ChatServer.handle_accept srv p false w1) in *.
  assert (p ∈ participants_ (room srv w2) ∧ OpReadHeader p ∈ pending w2 ∧
          heap w2 !! p = Some (set_write_msgs (write_msgs_ s ++ recent_msgs_ (room srv w)) s))
    as (Hpart & Hread & Hs2).
  { unfold w2, ChatServer.handle_accept, ChatSession.start. cbn [negb]. rewrite Hs1, Hr.
    unfold ChatServer.start_accept, async_read_header. cbn zeta. split_and!.
    - change (room srv (issue _ (set_next_ptr _ (set_heap _ (issue _ ?w0)))))
        with (room srv w0).
      rewrite room_join, decide_True by (by rewrite Hsv). cbn. set_solver.
    - wsimpl. apply elem_of_app. left. apply elem_of_app. right. by left.
    - wsimpl. rewrite lookup_insert_ne.
      + rewrite join_eq. cbn zeta. wsimpl.
        rewrite lookup_alter, decide_True, Hs1 by done. cbn.
        by rewrite (room_servers srv w1 w).
      + change (next_ptr (ChatRoom.join srv p w1) ≠ p).
        rewrite join_eq. cbn zeta. wsimpl. rewrite Hn.
        pose proof (inv_bound _ Hinv p ltac:(eauto)). lia. }
  split_and!.
  - apply length_le_1_elem; [apply Hinv|]. by apply list_elem_of_filter.
  - done.
  - unfold queue. rewrite lookup_release, decide_True by by eapply referenced_member.
    rewrite Hs2. cbn. by rewrite Hq.
  - apply length_le_1_elem; [apply Hinv'|]. by apply list_elem_of_filter.
Qed.

(** *** A message arrives *)

Lemma read_body_broadcasts ports w self s n body w' :
  reachable ports w → heap w !! self = Some s →
  step (ReadBodyDone self n false body) w = Some w' →
  ∀ q, q ∈ participants_ (room (room_ s) w) →
       queue q w' = queue q w ++ [Message.fill_body body (read_msg_ s)].
Proof.
  intros Hreach Hs Hstep q Hq. pose proof (reachable_inv _ _ Hreach) as Hinv.
  destruct (inv_member _ Hinv _ _ Hq) as (_ & sq & Hsq & _).
  unfold step in Hstep. cbn [dispatch] in Hstep.
  destruct (take_op (OpReadBody self n) w) as [w1|] eqn:Htake; [|done].
  cbn [mbind option_bind fmap option_fmap option_map] in Hstep. injection Hstep as <-.
  destruct (take_op_fields _ _ _ Htake) as (_ & _ & Hsv & Hh & _).
  assert (heap w1 !! self = Some s) as Hs1 by (by rewrite Hh).
  pose proof (lookup_update_self self (fill_body_of body) w1 s Hs1) as Hfs.
  unfold ChatSession.handle_read_body. rewrite Hfs. cbn [negb].
  change (room_ (fill_body_of body s)) with (room_ s).
  change (read_msg_ (fill_body_of body s)) with (Message.fill_body body (read_msg_ s)).
  set (msg := Message.fill_body body (read_msg_ s)).
  set (w2 := update_session self (fill_body_of body) w1).
  assert (room (room_ s) w2 = room (room_ s) w) as Hroom by (by apply room_servers).
  assert (∃ sq', heap w2 !! q = Some sq' ∧ write_msgs_ sq' = write_msgs_ sq) as (sq' & Hsq' & Hqq).
  { unfold w2. rewrite lookup_update_session. case_decide as Hself.
    - subst q. rewrite Hs1. cbn. eexists. split; [done|]. by simplify_eq.
    - rewrite Hh. eauto. }
  unfold queue at 1. rewrite lookup_release, decide_True.
  - cbn [async_read_header issue set_pending heap].
    rewrite room_deliver_heap, Hroom, decide_True, Hsq' by done. cbn.
    by rewrite Hqq, (queue_lookup _ _ _ Hsq).
  - apply (referenced_member _ (room_ s)).
    change (room (room_ s) (async_read_header self ?w0)) with (room (room_ s) w0).
    by rewrite room_deliver_participants, Hroom.
Qed.

(** C3. [deliver] appends the message to the history of the room and
    enqueues it to every participant of the room, none skipped and
    nobody else touched; a session whose read completes is a
    participant like the others, so it gets its own message back; and
    when the read of a body completes in the running server, the
    message is at the end of the queue of every participant of the room
    of the session that read it. *)
Theorem deliver_broadcasts :
  (∀ r msg w,
     r < length (servers w) →
     let w' := ChatRoom.deliver r msg w in
     recent_msgs_ (room r w') = ChatRoom.pop_excess (recent_msgs_ (room r w) ++ [msg]) ∧
     last (recent_msgs_ (room r w')) = Some msg ∧
     participants_ (room r w') = participants_ (room r w) ∧
     (∀ p s, p ∈ participants_ (room r w) → heap w !! p = Some s →
             queue p w' = write_msgs_ s ++ [msg]) ∧
     (∀ p, p ∉ participants_ (room r w) → heap w' !! p = heap w !! p) ∧
     (∀ self s, heap w !! self = Some s → room_ s = r →
                self ∈ participants_ (room r w) →
                queue self (ChatSession.handle_read_body self false w) =
                write_msgs_ s ++ [read_msg_ s])) ∧
  (∀ ports w self s n body w',
     reachable ports w → heap w !! self = Some s →
     step (ReadBodyDone self n false body) w = Some w' →
     ∀ q, q ∈ participants_ (room (room_ s) w) →
          queue q w' = queue q w ++ [Message.fill_body body (read_msg_ s)]).
Proof.
  split.
  - intros r msg w. apply deliver_spec.
  - intros ports w self s n body w'. apply read_body_broadcasts.
Qed.

(** C1. [join] adds the participant to the set and then enqueues the
    whole history to it, oldest first, and to nobody else; a message
    broadcast afterwards comes behind the history in its queue; [start]
    issues the first read of the session only after this join: when a
    connection is accepted, no read of the session was pending before,
    and afterwards the session is a participant, its queue is the
    history, and its one read is in flight. *)
Theorem join_replays_history :
  (∀ r p s w,
     r < length (servers w) → heap w !! p = Some s →
     let w' := ChatRoom.join r p w in
     participants_ (room r w') = {[p]} ∪ participants_ (room r w) ∧
     recent_msgs_ (room r w') = recent_msgs_ (room r w) ∧
     queue p w' = write_msgs_ s ++ recent_msgs_ (room r w) ∧
     (∀ q, q ≠ p → heap w' !! q = heap w !! q) ∧
     (∃ ops, pending w' = pending w ++ ops ∧
             Forall (λ op, owner op = p ∧ is_write op = true) ops) ∧
     (∀ msg, queue p (ChatRoom.deliver r msg w') =
             write_msgs_ s ++ recent_msgs_ (room r w) ++ [msg]) ∧
     (room_ s = r →
        ChatSession.start p w = async_read_header p w' ∧
        pending (ChatSession.start p w) = pending w' ++ [OpReadHeader p])) ∧
  (∀ ports w srv p w',
     reachable ports w → step (AcceptDone srv p false) w = Some w' →
     reading p w = [OpAccept srv p] ∧
     p ∈ participants_ (room srv w') ∧
     queue p w' = recent_msgs_ (room srv w) ∧
     reading p w' = [OpReadHeader p]).
Proof.
  split.
  - intros r p s w. apply join_replay.
  - intros ports w srv p w'. apply accept_replays_history.
Qed.

(** C2. Whatever the calls on a room that starts with an empty history,
    the history holds at most 100 messages and is exactly the last 100
    messages delivered, in delivery order (all of them while there are
    no more than 100); every single [deliver] leaves at most 100
    messages, the new one last; and in every world the server can
    reach, every history holds at most 100 messages. *)
Theorem recent_history_bounded :
  (∀ r w,
     r < length (servers w) → recent_msgs_ (room r w) = [] →
     ∀ ops,
       let w' := foldl (λ w op, apply_op r op w) w ops in
       recent_msgs_ (room r w') =
         drop (length (delivered ops) - 100) (delivered ops) ∧
       length (recent_msgs_ (room r w')) ≤ 100 ∧
       (length (delivered ops) ≤ 100 → recent_msgs_ (room r w') = delivered ops)) ∧
  (∀ r w msg,
     r < length (servers w) →
     length (recent_msgs_ (room r (ChatRoom.deliver r msg w))) ≤ 100 ∧
     recent_msgs_ (room r (ChatRoom.deliver r msg w)) =
       drop (length (recent_msgs_ (room r w) ++ [msg]) - 100)
            (recent_msgs_ (room r w) ++ [msg])) ∧
  (∀ ports w r,
     reachable ports w → length (recent_msgs_ (room r w)) ≤ 100).
Proof.
  split_and!.
  - intros r w Hr Hempty ops. by apply recent_history_calls.
  - intros r w msg Hr. by apply recent_history_deliver.
  - intros ports w r Hinv%reachable_inv. apply Hinv.
Qed.

End WithConfig.
End SessionFacts.

(** ** The outbound queue of a session *)
Module QueueFacts.
Import Server ServerFacts ReactorFacts EffectFacts SessionFacts.

#[local] Set Warnings "-clear-no-such-hyp".

Section WithConfig.
Context `{cfg : FrameConfig}.

(** Enqueueing: the frame goes to the tail, and its write is started
    only when the queue was empty. *)
Lemma deliver_enqueues p msg w s :
  heap w !! p = Some s →
  queue p (ChatSession.deliver p msg w) = write_msgs_ s ++ [msg] ∧
  wire (ChatSession.deliver p msg w) = wire w ∧
  pending (ChatSession.deliver p msg w) =
    pending w ++
    (if bool_decide (write_msgs_ s = []) then [OpWrite p (Message.frame msg)] else []).
Proof.
  intros Hs. unfold ChatSession.deliver. rewrite deliver_eq. split_and!.
  - unfold queue. wsimpl. by rewrite lookup_alter, decide_True, Hs.
  - done.
  - wsimpl. unfold kick. by rewrite Hs.
Qed.

Lemma sent_step e p w w' :
  step e w = Some w' →
  sent p w' = sent p w ++ (filter (λ x, x.1 = p) (emitted e)).*2.
Proof.
  intros Hw%step_wire. unfold sent. by rewrite Hw, filter_app, fmap_app.
Qed.

Lemma write_done_ok p bytes w w' :
  inv w → step (WriteDone p bytes false) w = Some w' →
  sent p w' = sent p w ++ [bytes] ∧
  (∃ m, queue p w = m :: queue p w' ∧ bytes = Message.frame m) ∧
  in_flight p w' =
    match queue p w' with m' :: _ => [OpWrite p (Message.frame m')] | [] => [] end.
Proof.
  intros Hinv Hstep. pose proof (inv_step _ _ _ Hinv Hstep) as Hinv'.
  pose proof (sent_step _ p _ _ Hstep) as Hsent.
  change (emitted (WriteDone p bytes false)) with [(p, bytes)] in Hsent.
  rewrite filter_cons_True, filter_nil in Hsent by done.
  split; [done|].
  unfold step in Hstep. cbn [dispatch] in Hstep.
  destruct (take_op (OpWrite p bytes) w) as [w1|] eqn:Htake; [|done].
  cbn in Hstep. injection Hstep as <-.
  destruct (take_op_fields _ _ _ Htake) as (Hin & Hp & Hsv & Hh & _).
  destruct (inv_head _ Hinv _ _ Hin) as (m & q & Hq & ->).
  destruct (inv_owner _ Hinv _ Hin) as [s Hs]. cbn [owner] in Hs.
  rewrite (queue_lookup _ _ _ Hs) in Hq.
  set (w2 := ChatSession.handle_write p false (transmit p (Message.frame m) w1)) in *.
  assert (heap w2 !! p = Some (pop_front s) ∧
          (∀ m' q', q = m' :: q' → OpWrite p (Message.frame m') ∈ pending w2))
    as [Hs2 Hissued].
  { assert (heap (transmit p (Message.frame m) w1) !! p = Some s) as Hst
      by (cbn; by rewrite Hh).
    unfold w2, ChatSession.handle_write. rewrite Hst. cbn [negb].
    pose proof (lookup_update_self p pop_front _ _ Hst) as Hsq.
    assert (queue p (update_session p pop_front (transmit p (Message.frame m) w1)) = q)
      as Hqq by (rewrite (queue_lookup _ _ _ Hsq); cbn; by rewrite Hq).
    rewrite Hqq. destruct q as [|m' q'].
    - rewrite bool_decide_eq_true_2 by done. cbn [negb]. split; [exact Hsq|done].
    - rewrite bool_decide_eq_false_2 by done. cbn [negb].
      unfold async_write_front. rewrite Hqq. split; [exact Hsq|].
      intros ? ? [= <- <-]. wsimpl. apply elem_of_app. right. by left. }
  assert (queue p (release w2) = q) as Hq'.
  { unfold queue. rewrite lookup_release.
    case_decide as Href; [rewrite Hs2; cbn; by rewrite Hq|].
    destruct q as [|m' q']; [done|]. destruct Href.
    apply (referenced_owner _ (OpWrite p (Message.frame m'))). by eapply Hissued. }
  rewrite Hq'. split.
  - exists m. by rewrite (queue_lookup _ _ _ Hs), Hq.
  - destruct q as [|m' q'].
    + by apply inv_no_write.
    + apply length_le_1_elem; [apply Hinv'|].
      apply list_elem_of_filter. split; [done|]. by eapply Hissued.
Qed.

Lemma write_done_error p bytes w w' :
  inv w → step (WriteDone p bytes true) w = Some w' →
  sent p w' = sent p w ∧ in_flight p w' = [] ∧
  (socket_open p w' → queue p w' = queue p w).
Proof.
  intros Hinv Hstep.
  pose proof (sent_step _ p _ _ Hstep) as Hsent.
  change (emitted (WriteDone p bytes true)) with (@nil (ptr * list ascii)) in Hsent.
  rewrite filter_nil, app_nil_r in Hsent. split; [done|].
  unfold step in Hstep. cbn [dispatch] in Hstep.
  destruct (take_op (OpWrite p bytes) w) as [w1|] eqn:Htake; [|done].
  cbn in Hstep. injection Hstep as <-.
  pose proof (take_write_in_flight _ _ _ _ Hinv Htake) as Hfl.
  destruct (take_op_fields _ _ _ Htake) as (Hin & Hp & Hsv & Hh & _).
  unfold ChatSession.handle_write. destruct (heap w1 !! p) as [s|]; cbn [negb].
  - split; [done|]. intros Hopen. rewrite queue_release by done.
    unfold queue. cbn. by rewrite Hh.
  - split; [done|]. intros Hopen. rewrite queue_release by done.
    unfold queue. by rewrite Hh.
Qed.

Lemma other_event p e w w' :
  inv w → step e w = Some w' →
  (∀ bytes error, e ≠ WriteDone p bytes error) →
  socket_open p w → socket_open p w' →
  sent p w' = sent p w ∧ queue p w `prefix_of` queue p w'.
Proof.
  intros Hinv Hstep He Hopen Hopen'. split.
  - rewrite (sent_step _ p _ _ Hstep).
    destruct e as [| | |q bytes []]; cbn [emitted];
      rewrite ?filter_nil, ?app_nil_r; try done.
    rewrite filter_cons_False, filter_nil; [by rewrite app_nil_r|].
    cbn. intros ->. by destruct (He bytes false).
  - apply (step_queue e); [done| |by apply (inv_bound _ Hinv)|done].
    intros <-. destruct e as [| | |q bytes error]; try done.
    by destruct (He bytes error).
Qed.

(** Along a run in which no write of [p] fails and [p] stays open, the
    outbox of [p] only grows at its end, and so does what was sent. *)
Lemma outbox_run es : ∀ p w w',
  inv w → run es w = Some w' →
  socket_open p w → socket_open p w' →
  (∀ bytes, WriteDone p bytes true ∉ es) →
  outbox p w `prefix_of` outbox p w' ∧ sent p w `prefix_of` sent p w'.
Proof.
  induction es as [|e es IH]; intros p w w' Hinv; cbn [run]; [by intros [= <-]|].
  destruct (step e w) as [w1|] eqn:Hstep; [|done]. cbn. intros Hrun Hopen Hopen' Hok.
  pose proof (inv_step _ _ _ Hinv Hstep) as Hinv1.
  assert (socket_open p w1) as Hopen1.
  { destruct (decide (socket_open p w1)) as [|Hclosed]; [done|].
    destruct (closed_run es p w1 w' Hrun); [|done|done].
    pose proof (step_next_ptr _ _ _ Hstep). pose proof (inv_bound _ Hinv p Hopen). lia. }
  destruct (IH p w1 w' Hinv1 Hrun Hopen1 Hopen') as [Hbox Hsent].
  { intros bytes Hin. apply (Hok bytes). by right. }
  assert (outbox p w `prefix_of` outbox p w1 ∧ sent p w `prefix_of` sent p w1) as [? ?];
    [|split; by etrans].
  assert ((∃ bytes error, e = WriteDone p bytes error) ∨
          (∀ bytes error, e ≠ WriteDone p bytes error))
    as [(bytes & error & ->)|Hother].
  { destruct e as [| | |q bytes error]; try by right.
    destruct (decide (q = p)) as [->|]; [left; eauto|right; congruence]. }
  - destruct error; [destruct (Hok bytes); by left|].
    destruct (write_done_ok _ _ _ _ Hinv Hstep) as (Hs & (m & Hq & ->) & _).
    unfold outbox. rewrite Hs, Hq. cbn. rewrite <-app_assoc. split; [done|].
    by apply prefix_app_r.
  - destruct (other_event p e w w1 Hinv Hstep) as [Hs Hq]; [done|done|done|].
    unfold outbox. rewrite Hs. split; [|done].
    destruct Hq as [k ->]. rewrite fmap_app. by apply prefix_app, prefix_app_r.
Qed.

End WithConfig.
End QueueFacts.

(** ** The outbound queue of the client *)
Module ClientFacts.
Import Client.
Import ReactorFacts (elem_of_remove_first, filter_remove_first_ne,
  length_filter_remove_first, filter_nil_iff).
Import SessionFacts (length_le_1_elem).

#[local] Set Warnings "-clear-no-such-hyp".

Ltac cl_simpl :=
  unfold write, close, post, issue, print, do_close, async_read_header,
    async_read_body, set_client, set_pending, set_posted, set_wire, set_cout,
    set_socket, set_read_msg, set_write_msgs in *;
  cbn [client pending posted wire cout socket_ read_msg_ write_msgs_] in *.

Section WithConfig.
Context `{cfg : FrameConfig}.

Lemma client_in_flight_nil w : in_flight w = [] ↔ ∀ bytes, OpWrite bytes ∉ pending w.
Proof.
  unfold in_flight. rewrite filter_nil_iff. split.
  - intros Hall bytes Hin. by apply (Hall _ Hin).
  - intros Hall [| | |bytes] Hin Hw; try done. by apply (Hall bytes).
Qed.

Lemma client_inv_no_write w : inv w → write_msgs_ (client w) = [] → in_flight w = [].
Proof.
  intros Hinv Hq. apply client_in_flight_nil. intros bytes Hin.
  destruct (inv_head _ Hinv _ Hin) as (m & q & Hq' & _). congruence.
Qed.

(** A change that leaves the queue and the pending operations alone. *)
Lemma client_inv_same w w' :
  inv w → pending w' = pending w →
  write_msgs_ (client w') = write_msgs_ (client w) → inv w'.
Proof.
  intros [] Hp Hq. split.
  - intros bytes. rewrite Hp, Hq. apply inv_head0.
  - unfold in_flight. by rewrite Hp.
Qed.

Lemma client_inv_issue_read op w : inv w → is_write op = false → inv (issue op w).
Proof.
  intros [] Hop. split; cl_simpl.
  - intros bytes [?|Heq%list_elem_of_singleton]%elem_of_app; [by apply inv_head0|].
    by rewrite <-Heq in Hop.
  - unfold in_flight in *. cl_simpl. rewrite filter_app.
    rewrite (filter_cons_False _ op) by congruence.
    by rewrite filter_nil, app_nil_r.
Qed.

Lemma client_inv_issue_write bytes w :
  inv w → in_flight w = [] →
  (∃ m q, write_msgs_ (client w) = m :: q ∧ bytes = Message.frame m) →
  inv (issue (OpWrite bytes) w).
Proof.
  intros [] Hfl Hhead. split; cl_simpl.
  - intros bytes' [?|Heq%list_elem_of_singleton]%elem_of_app; [by apply inv_head0|].
    by simplify_eq.
  - unfold in_flight in *. cl_simpl. rewrite filter_app, Hfl.
    rewrite filter_cons_True by done. rewrite filter_nil. cbn. lia.
Qed.

Lemma client_inv_take_op op w w' : inv w → take_op op w = Some w' → inv w'.
Proof.
  intros [] Htake. unfold take_op in Htake. case_decide as Hin; [|done].
  injection Htake as <-. split; cl_simpl.
  - intros bytes Hop%elem_of_remove_first. by apply inv_head0.
  - etrans; [|apply inv_one_write0]. unfold in_flight. cl_simpl.
    destruct (decide (is_write op = true)) as [HP|HP].
    + rewrite <-(length_filter_remove_first _ op (pending w)) by done. lia.
    + by rewrite filter_remove_first_ne.
Qed.

Lemma client_take_op_fields op w w' :
  take_op op w = Some w' →
  op ∈ pending w ∧ pending w' = remove_first op (pending w) ∧
  client w' = client w ∧ posted w' = posted w ∧ wire w' = wire w ∧ cout w' = cout w.
Proof. unfold take_op. case_decide; [|done]. by intros [= <-]. Qed.

Lemma client_take_write_in_flight bytes w w' :
  inv w → take_op (OpWrite bytes) w = Some w' → in_flight w' = [].
Proof.
  intros Hinv (Hin & Hp & _)%client_take_op_fields.
  apply length_zero_iff_nil. pose proof (inv_one_write _ Hinv) as Hone.
  unfold in_flight in *. rewrite Hp.
  rewrite <-(length_filter_remove_first _ (OpWrite bytes) (pending w)) in Hone by done.
  lia.
Qed.

Lemma client_inv_do_write msg w : inv w → inv (do_write msg w).
Proof.
  intros Hinv. unfold do_write. cbn zeta. rewrite negb_involutive.
  set (w1 := set_client _ w).
  case_bool_decide as Hq.
  - unfold async_write_front. unfold w1 at 1. cl_simpl. rewrite Hq. cbn [app].
    apply (client_inv_issue_write _ w1).
    + split.
      * intros bytes Hop. destruct (inv_head _ Hinv _ Hop) as (m & q & Hq' & _). congruence.
      * apply Hinv.
    + by apply (client_inv_no_write w).
    + unfold w1. cl_simpl. rewrite Hq. by exists msg, [].
  - split.
    + intros bytes Hop. destruct (inv_head _ Hinv _ Hop) as (m & q & Hq' & ->).
      unfold w1. cl_simpl. rewrite Hq'. by exists m, (q ++ [msg]).
    + apply Hinv.
Qed.

Lemma client_inv_handle_write error w :
  inv w → in_flight w = [] → inv (handle_write error w).
Proof.
  intros Hinv Hfl. unfold handle_write. destruct error; cbn [negb].
  - by apply (client_inv_same w).
  - cbn zeta. set (w1 := set_client _ w).
    assert (inv w1) as Hinv1.
    { split; [|apply Hinv]. intros bytes Hop.
      by apply client_in_flight_nil with (bytes := bytes) in Hfl. }
    case_bool_decide; cbn [negb]; [done|].
    unfold async_write_front. destruct (write_msgs_ (client w1)) as [|m q] eqn:Hq; [done|].
    apply client_inv_issue_write; [done|done|eauto].
Qed.

Lemma client_inv_new : inv new.
Proof.
  split.
  - intros bytes Hin. apply list_elem_of_singleton in Hin. done.
  - unfold in_flight. cbn [new pending]. rewrite filter_cons_False by done.
    rewrite filter_nil. cbn. lia.
Qed.

Lemma client_inv_step e w w' : inv w → step e w = Some w' → inv w'.
Proof.
  intros Hinv. destruct e as [msg| |i|error|error bytes|n error bytes|bytes error];
    cbn [step].
  - intros [= <-]. by apply (client_inv_same w).
  - intros [= <-]. by apply (client_inv_same w).
  - destruct (posted w !! i) as [t|]; [|done]. cbn. intros [= <-].
    assert (inv (set_posted (delete i (posted w)) w)) as Hinv1 by by apply (client_inv_same w).
    destruct t as [msg|]; cbn [run_task]; [by apply client_inv_do_write|].
    by eapply client_inv_same.
  - destruct (take_op _ w) as [w1|] eqn:Htake; [|done]. cbn. intros [= <-].
    pose proof (client_inv_take_op _ _ _ Hinv Htake) as Hinv1.
    unfold handle_connect. destruct error; cbn [negb]; [done|].
    apply client_inv_issue_read; [|done]. by eapply client_inv_same.
  - destruct (take_op _ w) as [w1|] eqn:Htake; [|done]. cbn. intros [= <-].
    pose proof (client_inv_take_op _ _ _ Hinv Htake) as Hinv1.
    unfold handle_read_header. destruct error; [by eapply client_inv_same|].
    destruct (Message.decode_header _) as [[] m].
    + apply client_inv_issue_read; [|done]. by eapply client_inv_same.
    + by eapply client_inv_same.
  - destruct (take_op _ w) as [w1|] eqn:Htake; [|done]. cbn. intros [= <-].
    pose proof (client_inv_take_op _ _ _ Hinv Htake) as Hinv1.
    unfold handle_read_body. destruct error; cbn [negb]; [by eapply client_inv_same|].
    apply client_inv_issue_read; [|done]. by eapply client_inv_same.
  - destruct (take_op _ w) as [w1|] eqn:Htake; [|done]. cbn. intros [= <-].
    pose proof (client_inv_take_op _ _ _ Hinv Htake) as Hinv1.
    pose proof (client_take_write_in_flight _ _ _ Hinv Htake) as Hfl.
    apply client_inv_handle_write; destruct error; try done. by eapply client_inv_same.
Qed.

Lemma client_reachable_inv w : reachable w → inv w.
Proof. induction 1; [apply client_inv_new|by eapply client_inv_step]. Qed.

Lemma client_inv_run es : ∀ w w', inv w → run es w = Some w' → inv w'.
Proof.
  induction es as [|e es IH]; intros w w' Hinv; cbn [run]; [by intros [= <-]|].
  destruct (step e w) as [w1|] eqn:Hs; [|done]. cbn.
  apply IH. by eapply client_inv_step.
Qed.

Lemma client_reachable_run es : ∀ w w',
  reachable w → run es w = Some w' → reachable w'.
Proof.
  induction es as [|e es IH]; intros w w' Hreach; cbn [run]; [by intros [= <-]|].
  destruct (step e w) as [w1|] eqn:Hs; [|done]. cbn.
  apply IH. by eapply reachable_step.
Qed.

Lemma client_write_done_ok bytes w w' :
  inv w → step (WriteDone bytes false) w = Some w' →
  wire w' = wire w ++ [bytes] ∧
  (∃ m, write_msgs_ (client w) = m :: write_msgs_ (client w') ∧
        bytes = Message.frame m) ∧
  in_flight w' =
    match write_msgs_ (client w') with
    | m' :: _ => [OpWrite (Message.frame m')]
    | [] => []
    end.
Proof.
  intros Hinv Hstep. pose proof (client_inv_step _ _ _ Hinv Hstep) as Hinv'.
  cbn [step] in Hstep.
  destruct (take_op (OpWrite bytes) w) as [w1|] eqn:Htake; [|done].
  cbn [mbind option_bind] in Hstep. injection Hstep as <-.
  destruct (client_take_op_fields _ _ _ Htake) as (Hin & Hp & Hc & _ & Hw & _).
  destruct (inv_head _ Hinv _ Hin) as (m & q & Hq & ->).
  assert (write_msgs_ (client w1) = m :: q) as Hq1 by (by rewrite Hc).
  pose proof (client_take_write_in_flight _ _ _ Hinv Htake) as Hfl.
  unfold handle_write. cbn [negb]. cbn zeta. cl_simpl. rewrite Hq1. cbn [tail].
  destruct q as [|m' q'].
  - rewrite bool_decide_eq_true_2 by done. cbn [negb]. cl_simpl.
    rewrite Hw, Hq. split_and!; [done|by exists m|done].
  - rewrite bool_decide_eq_false_2 by done. cbn [negb].
    unfold async_write_front. cl_simpl. rewrite Hw, Hq.
    split_and!; [done|by exists m|].
    unfold in_flight in *. cl_simpl. rewrite filter_app, Hfl.
    by rewrite filter_cons_True.
Qed.

Lemma client_write_done_error bytes w w' :
  inv w → step (WriteDone bytes true) w = Some w' →
  wire w' = wire w ∧ write_msgs_ (client w') = write_msgs_ (client w) ∧
  in_flight w' = [].
Proof.
  intros Hinv Hstep. cbn [step] in Hstep.
  destruct (take_op (OpWrite bytes) w) as [w1|] eqn:Htake; [|done].
  cbn in Hstep. injection Hstep as <-.
  pose proof (client_take_write_in_flight _ _ _ Hinv Htake) as Hfl.
  destruct (client_take_op_fields _ _ _ Htake) as (Hin & Hp & Hc & _ & Hw & _).
  unfold handle_write. cbn [negb]. cl_simpl. by rewrite Hc.
Qed.

Lemma client_do_write_fields msg w :
  wire (do_write msg w) = wire w ∧
  write_msgs_ (client (do_write msg w)) = write_msgs_ (client w) ++ [msg].
Proof.
  unfold do_write. cbn zeta. rewrite negb_involutive.
  case_bool_decide; [|done]. unfold async_write_front.
  by destruct (write_msgs_ (client (set_client _ w))).
Qed.

Lemma client_do_write_enqueues msg w :
  write_msgs_ (client (do_write msg w)) = write_msgs_ (client w) ++ [msg] ∧
  wire (do_write msg w) = wire w ∧
  pending (do_write msg w) =
    pending w ++
    (if bool_decide (write_msgs_ (client w) = []) then [OpWrite (Message.frame msg)] else []).
Proof.
  destruct (client_do_write_fields msg w) as [Hw Hq]. split_and!; [done|done|].
  unfold do_write. cbn zeta. rewrite negb_involutive.
  case_bool_decide as Hnil; [|cl_simpl; by rewrite app_nil_r].
  unfold async_write_front. cl_simpl. by rewrite Hnil.
Qed.

Lemma client_other_event e w w' :
  step e w = Some w' → (∀ bytes error, e ≠ WriteDone bytes error) →
  wire w' = wire w ∧ write_msgs_ (client w) `prefix_of` write_msgs_ (client w').
Proof.
  destruct e as [msg| |i|error|error bytes|n error bytes|bytes error];
    cbn [step]; intros Hstep He.
  - by injection Hstep as <-.
  - by injection Hstep as <-.
  - destruct (posted w !! i) as [t|]; [|done]. cbn in Hstep. injection Hstep as <-.
    destruct t as [msg|]; cbn [run_task]; [|done].
    destruct (client_do_write_fields msg (set_posted (delete i (posted w)) w)) as [-> ->].
    split; [done|]. by apply prefix_app_r.
  - destruct (take_op _ w) as [w1|] eqn:Htake; [|done]. cbn in Hstep. injection Hstep as <-.
    destruct (client_take_op_fields _ _ _ Htake) as (_ & _ & Hc & _ & Hw & _).
    unfold handle_connect. destruct error; cbn [negb]; cl_simpl; cl_simpl;
      by rewrite ?Hc, ?Hw.
  - destruct (take_op _ w) as [w1|] eqn:Htake; [|done]. cbn in Hstep. injection Hstep as <-.
    destruct (client_take_op_fields _ _ _ Htake) as (_ & _ & Hc & _ & Hw & _).
    unfold handle_read_header. destruct error; [cl_simpl; by rewrite ?Hc, ?Hw|].
    destruct (Message.decode_header _) as [[] m]; cl_simpl; by rewrite ?Hc, ?Hw.
  - destruct (take_op _ w) as [w1|] eqn:Htake; [|done]. cbn in Hstep. injection Hstep as <-.
    destruct (client_take_op_fields _ _ _ Htake) as (_ & _ & Hc & _ & Hw & _).
    unfold handle_read_body. destruct error; cbn [negb]; cl_simpl; by rewrite ?Hc, ?Hw.
  - by destruct (He bytes error).
Qed.

Lemma client_outbox_run es : ∀ w w',
  inv w → run es w = Some w' →
  (∀ bytes, WriteDone bytes true ∉ es) →
  outbox w `prefix_of` outbox w' ∧ wire w `prefix_of` wire w'.
Proof.
  induction es as [|e es IH]; intros w w' Hinv; cbn [run]; [by intros [= <-]|].
  destruct (step e w) as [w1|] eqn:Hstep; [|done]. cbn. intros Hrun Hok.
  pose proof (client_inv_step _ _ _ Hinv Hstep) as Hinv1.
  destruct (IH w1 w' Hinv1 Hrun) as [Hbox Hsent].
  { intros bytes Hin. apply (Hok bytes). by right. }
  assert (outbox w `prefix_of` outbox w1 ∧ wire w `prefix_of` wire w1) as [? ?];
    [|split; by etrans].
  assert ((∃ bytes error, e = WriteDone bytes error) ∨
          (∀ bytes error, e ≠ WriteDone bytes error))
    as [(bytes & error & ->)|Hother].
  { destruct e; try by right. left; eauto. }
  - destruct error; [destruct (Hok bytes); by left|].
    destruct (client_write_done_ok _ _ _ Hinv Hstep) as (Hs & (m & Hq & ->) & _).
    unfold outbox. rewrite Hs, Hq. cbn. rewrite <-app_assoc. split; [done|].
    by apply prefix_app_r.
  - destruct (client_other_event e w w1 Hstep) as [Hs Hq]; [done|].
    unfold outbox. rewrite Hs. split; [|done].
    destruct Hq as [k ->]. rewrite fmap_app. by apply prefix_app, prefix_app_r.
Qed.

End WithConfig.
End ClientFacts.

(** ** The outbound queue in both programs *)
Module OutboundQueue.

Section WithConfig.
Context `{cfg : FrameConfig}.

(** C4. On every connection, of the server and of the client, a frame
    is enqueued at the tail and its write is started only when the
    queue was empty; at most one write is in flight and it carries the
    frame at the head of the queue; a successful completion puts
    exactly that frame on the wire, pops it, and starts the write of
    the new head when there is one; a failed completion pops nothing
    and starts nothing; and along a run without a failed write the
    frames on the wire followed by the frames of the queue only ever
    grow at the end. *)
Theorem outbound_queue_fifo :
  (∀ p msg w s,
     Server.heap w !! p = Some s →
     Server.queue p (Server.ChatSession.deliver p msg w) = Server.write_msgs_ s ++ [msg] ∧
     Server.wire (Server.ChatSession.deliver p msg w) = Server.wire w ∧
     Server.pending (Server.ChatSession.deliver p msg w) =
       Server.pending w ++
       (if bool_decide (Server.write_msgs_ s = [])
        then [Server.OpWrite p (Message.frame msg)] else [])) ∧
  (∀ msg w,
     Client.write_msgs_ (Client.client (Client.do_write msg w)) =
       Client.write_msgs_ (Client.client w) ++ [msg] ∧
     Client.wire (Client.do_write msg w) = Client.wire w ∧
     Client.pending (Client.do_write msg w) =
       Client.pending w ++
       (if bool_decide (Client.write_msgs_ (Client.client w) = [])
        then [Client.OpWrite (Message.frame msg)] else [])) ∧
  (∀ ports w p, Server.reachable ports w →
     length (Server.in_flight p w) ≤ 1 ∧
     (∀ bytes, Server.OpWrite p bytes ∈ Server.pending w →
        ∃ m q, Server.queue p w = m :: q ∧ bytes = Message.frame m) ∧
     (∀ bytes w', Server.step (Server.WriteDone p bytes false) w = Some w' →
        Server.sent p w' = Server.sent p w ++ [bytes] ∧
        (∃ m, Server.queue p w = m :: Server.queue p w' ∧ bytes = Message.frame m) ∧
        Server.in_flight p w' =
          match Server.queue p w' with
          | m' :: _ => [Server.OpWrite p (Message.frame m')]
          | [] => []
          end) ∧
     (∀ bytes w', Server.step (Server.WriteDone p bytes true) w = Some w' →
        Server.sent p w' = Server.sent p w ∧ Server.in_flight p w' = [] ∧
        (Server.socket_open p w' → Server.queue p w' = Server.queue p w)) ∧
     (∀ es w', Server.run es w = Some w' →
        Server.socket_open p w → Server.socket_open p w' →
        (∀ bytes, Server.WriteDone p bytes true ∉ es) →
        Server.outbox p w `prefix_of` Server.outbox p w' ∧
        Server.sent p w `prefix_of` Server.sent p w')) ∧
  (∀ w, Client.reachable w →
     length (Client.in_flight w) ≤ 1 ∧
     (∀ bytes, Client.OpWrite bytes ∈ Client.pending w →
        ∃ m q, Client.write_msgs_ (Client.client w) = m :: q ∧
               bytes = Message.frame m) ∧
     (∀ bytes w', Client.step (Client.WriteDone bytes false) w = Some w' →
        Client.wire w' = Client.wire w ++ [bytes] ∧
        (∃ m, Client.write_msgs_ (Client.client w) =
                m :: Client.write_msgs_ (Client.client w') ∧
              bytes = Message.frame m) ∧
        Client.in_flight w' =
          match Client.write_msgs_ (Client.client w') with
          | m' :: _ => [Client.OpWrite (Message.frame m')]
          | [] => []
          end) ∧
     (∀ bytes w', Client.step (Client.WriteDone bytes true) w = Some w' →
        Client.wire w' = Client.wire w ∧
        Client.write_msgs_ (Client.client w') = Client.write_msgs_ (Client.client w) ∧
        Client.in_flight w' = []) ∧
     (∀ es w', Client.run es w = Some w' →
        (∀ bytes, Client.WriteDone bytes true ∉ es) →
        Client.outbox w `prefix_of` Client.outbox w' ∧
        Client.wire w `prefix_of` Client.wire w')).
Proof.
  split; [|split; [|split]].
  - intros p msg w s. apply QueueFacts.deliver_enqueues.
  - intros msg w. apply ClientFacts.client_do_write_enqueues.
  - intros ports w p Hinv%ReactorFacts.reachable_inv. split_and!.
    + apply Hinv.
    + apply Hinv.
    + intros bytes w'. by apply QueueFacts.write_done_ok.
    + intros bytes w'. by apply QueueFacts.write_done_error.
    + intros es w'. by apply QueueFacts.outbox_run.
  - intros w Hinv%ClientFacts.client_reachable_inv. split_and!.
    + apply Hinv.
    + apply Hinv.
    + intros bytes w'. by apply ClientFacts.client_write_done_ok.
    + intros bytes w'. by apply ClientFacts.client_write_done_error.
    + intros es w'. by apply ClientFacts.client_outbox_run.
Qed.

End WithConfig.
End OutboundQueue.

(** ** The concrete runs *)
Module ExampleFacts.
Import Server Examples.
Import ServerFacts ReactorFacts EffectFacts SessionFacts QueueFacts.
#[local] Existing Instance example_config.

Lemma chatter_runs : run chatter (boot [4000]) = Some after_chatter.
Proof. vm_compute. reflexivity. Qed.

Lemma after_chatter_reachable : reachable [4000] after_chatter.
Proof. eapply reachable_run; [apply reachable_boot|apply chatter_runs]. Qed.


Lemma one_room_counterexample :
  main [4000; 4001] = inr (boot [4000; 4001]) ∧
  reachable [4000; 4001] two_ports ∧
  length (servers two_ports) = 2 ∧
  (0 ∈ participants_ (room 0 two_ports)) ∧ (0 ∉ participants_ (room 1 two_ports)) ∧
  (1 ∈ participants_ (room 1 two_ports)) ∧ (1 ∉ participants_ (room 0 two_ports)).
Proof.
  split_and!.
  - reflexivity.
  - apply (reachable_run _ [AcceptDone 0 0 false; AcceptDone 1 1 false] (boot [4000; 4001]));
      [apply reachable_boot|]. vm_compute. reflexivity.
  - reflexivity.
  - apply (bool_decide_unpack _). vm_compute. exact I.
  - apply (bool_decide_unpack _). vm_compute. exact I.
  - apply (bool_decide_unpack _). vm_compute. exact I.
  - apply (bool_decide_unpack _). vm_compute. exact I.
Qed.

(** *** The theorems at concrete inputs *)

Lemma join_replays_history_witness :
  0 < length (servers after_chatter) ∧
  heap after_chatter !! 1 = Some (fresh 0) ∧
  Message.str <$> queue 1 (ChatRoom.join 0 1 after_chatter) = [text "hello"; text "world"].
Proof.
  assert (0 < length (servers after_chatter)) as H1 by (vm_compute; lia).
  assert (heap after_chatter !! 1 = Some (fresh 0)) as H2 by (vm_compute; reflexivity).
  split_and!; [done|done|].
  destruct join_replays_history as [Hjoin _].
  destruct (Hjoin 0 1 (fresh 0) after_chatter H1 H2) as (_ & _ & -> & _).
  vm_compute. reflexivity.
Defined.

Lemma recent_history_bounded_witness :
  0 < length (servers (boot [4000])) ∧
  recent_msgs_ (room 0 (boot [4000])) = [] ∧
  ∀ ops, length (recent_msgs_ (room 0
           (foldl (λ w op, apply_op 0 op w) (boot [4000]) ops))) ≤ 100.
Proof.
  assert (0 < length (servers (boot [4000]))) as H1 by (vm_compute; lia).
  assert (recent_msgs_ (room 0 (boot [4000])) = []) as H2 by reflexivity.
  split_and!; [done|done|].
  intros ops. destruct recent_history_bounded as [Hcalls _].
  by destruct (Hcalls 0 (boot [4000]) H1 H2 ops) as (_ & ? & _).
Defined.

Lemma deliver_broadcasts_witness :
  0 < length (servers after_chatter) ∧
  last (recent_msgs_ (room 0 (ChatRoom.deliver 0 hi after_chatter))) = Some hi ∧
  Message.str <$> queue 0 (ChatRoom.deliver 0 hi after_chatter)
    = [text "hello"; text "world"; text "hi"].
Proof.
  assert (0 < length (servers after_chatter)) as H1 by (vm_compute; lia).
  destruct deliver_broadcasts as [Hdeliver _].
  destruct (Hdeliver 0 hi after_chatter H1) as (_ & Hlast & _ & Hq & _).
  split_and!; [done|done|].
  destruct (heap after_chatter !! 0) as [s|] eqn:Hs; [|by vm_compute in Hs].
  rewrite (Hq 0 s); [|apply (bool_decide_unpack _); vm_compute; exact I|done].
  vm_compute in Hs. injection Hs as <-. vm_compute. reflexivity.
Defined.

Lemma client_writing_reachable : Client.reachable (client_writing hi).
Proof.
  apply (ClientFacts.client_reachable_run (client_events hi) Client.new);
    [apply Client.reachable_new|].
  vm_compute. reflexivity.
Qed.

Lemma outbound_queue_fifo_witness :
  length (in_flight 0 after_chatter) ≤ 1 ∧
  step first_write after_chatter = Some after_first_write ∧
  sent 0 after_first_write = [frame_of "hello"] ∧
  in_flight 0 after_first_write = [OpWrite 0 (frame_of "world")] ∧
  Client.step (Client.WriteDone (Message.frame hi) false) (client_writing hi)
    = Some (client_written hi) ∧
  Client.wire (client_written hi) = [Message.frame hi] ∧
  Client.in_flight (client_written hi) = [].
Proof.
  destruct (@OutboundQueue.outbound_queue_fifo example_config)
    as (_ & _ & Hserver & Hclient).
  destruct (Hserver [4000] after_chatter 0 after_chatter_reachable)
    as (Hone & _ & Hok & _).
  assert (step first_write after_chatter = Some after_first_write) as Hstep
    by (vm_compute; reflexivity).
  destruct (Hok _ _ Hstep) as (Hsent & _ & Hfl).
  destruct (Hclient (client_writing hi) client_writing_reachable) as (_ & _ & Hcok & _).
  assert (Client.step (Client.WriteDone (Message.frame hi) false) (client_writing hi)
          = Some (client_written hi)) as Hcstep by (vm_compute; reflexivity).
  destruct (Hcok _ _ Hcstep) as (Hcwire & _ & Hcfl).
  split_and!; [done|done| | |done| |].
  - rewrite Hsent. vm_compute. reflexivity.
  - rewrite Hfl. vm_compute. reflexivity.
  - rewrite Hcwire. vm_compute. reflexivity.
  - rewrite Hcfl. vm_compute. reflexivity.
Defined.





Lemma one_room_per_port_witness :
  length (servers two_ports) = 2 ∧
  ∀ r p, p ∈ participants_ (room r two_ports) → r < 2.
Proof.
  assert (reachable [4000; 4001] two_ports) as H1.
  { apply (reachable_run _ [AcceptDone 0 0 false; AcceptDone 1 1 false] (boot [4000; 4001]));
      [apply reachable_boot|]. vm_compute. reflexivity. }
  destruct (one_room_per_port [4000; 4001] two_ports H1) as (Hlen & Hmem & _).
  split; [done|]. intros r p Hp. by destruct (Hmem r p Hp).
Defined.

Lemma join_leave_frame_witness :
  ChatRoom.leave 0 0 (ChatRoom.leave 0 0 after_chatter) = ChatRoom.leave 0 0 after_chatter ∧
  recent_msgs_ (room 0 (ChatRoom.join 0 1 after_chatter))
    = recent_msgs_ (room 0 after_chatter).
Proof.
  destruct (join_leave_frame 0 0 after_chatter) as (_ & _ & _ & _ & _ & Htwice & _).
  destruct (join_leave_frame 0 1 after_chatter) as (Hjoin & _).
  split; [done|apply Hjoin].
Defined.

End ExampleFacts.

(** ** One completion at a time: what each event does *)
Module StepFacts.
Import Server ServerFacts ReactorFacts EffectFacts SessionFacts QueueFacts.

#[local] Set Warnings "-clear-no-such-hyp".

Ltac case_and H :=
  match goal with
  | |- context [decide (?P ∧ ?Q)] => destruct (decide (P ∧ Q)) as [H|H]
  end.

Section WithConfig.
Context `{cfg : FrameConfig}.

(** *** The handlers in closed form *)

Lemma set_write_msgs_same s : set_write_msgs (write_msgs_ s) s = s.
Proof. by destruct s. Qed.

Lemma set_read_msg_same s : set_read_msg (read_msg_ s) s = s.
Proof. by destruct s. Qed.

Lemma kick_idle msg w p s :
  heap w !! p = Some s → write_msgs_ s = [] →
  kick msg w p = [OpWrite p (Message.frame msg)].
Proof. intros Hs Hq. unfold kick. by rewrite Hs, Hq. Qed.

(** The handler of an accept. *)
Lemma dispatch_accept srv p error w w2 :
  inv w → dispatch (AcceptDone srv p error) w = Some w2 →
  ∃ s, heap w !! p = Some s ∧ room_ s = srv ∧ write_msgs_ s = [] ∧
       srv < length (servers w) ∧ (∀ r, p ∉ participants_ (room r w)) ∧
       OpAccept srv p ∈ pending w ∧
       let hist := if error then [] else recent_msgs_ (room srv w) in
       (∀ q, heap w2 !! q =
             if decide (q = next_ptr w) then Some (new_session srv)
             else if decide (q = p) then Some (set_write_msgs hist s)
             else heap w !! q) ∧
       pending w2 =
         remove_first (OpAccept srv p) (pending w) ++
         match hist with [] => [] | m :: _ => [OpWrite p (Message.frame m)] end ++
         reads_issued (AcceptDone srv p error) w ∧
       (∀ r, room r w2 =
             if decide (r = srv ∧ error = false) then
               {| participants_ := {[p]} ∪ participants_ (room r w);
                  recent_msgs_ := recent_msgs_ (room r w) |}
             else room r w) ∧
       next_ptr w2 = S (next_ptr w) ∧ wire w2 = wire w ∧ cout w2 = cout w.
Proof.
  intros Hinv Hd. cbn [dispatch] in Hd.
  destruct (take_op (OpAccept srv p) w) as [w1|] eqn:Htake; [|done].
  cbn in Hd. injection Hd as <-.
  destruct (take_op_fields _ _ _ Htake) as (Hin & Hp & Hsv & Hh & Hn & Hw & Hc).
  destruct (inv_accept _ Hinv _ _ Hin) as (Hsrv & (s & Hs & Hr & Hq) & Hnot).
  assert (heap w1 !! p = Some s) as Hs1 by (by rewrite Hh).
  pose proof (inv_bound _ Hinv p ltac:(eauto)) as Hlt.
  exists s. split_and!; try done.
  unfold ChatServer.handle_accept. destruct error; cbn [negb].
  - cbn zeta. split_and!.
    + intros q. unfold ChatServer.start_accept. wsimpl. rewrite Hn, Hh.
      rewrite lookup_insert. destruct (decide (next_ptr w = q)) as [<-|Hq'].
      * by rewrite decide_True.
      * rewrite decide_False by done. case_decide as Hqp; [|done].
        subst q. rewrite Hs. f_equal. rewrite <-Hq. by rewrite set_write_msgs_same.
    + unfold ChatServer.start_accept. wsimpl. by rewrite Hp, Hn.
    + intros r. rewrite decide_False by (by intros [_ ?]).
      apply room_servers. unfold ChatServer.start_accept. by wsimpl.
    + unfold ChatServer.start_accept. wsimpl. by rewrite Hn.
    + unfold ChatServer.start_accept. by wsimpl.
    + unfold ChatServer.start_accept. by wsimpl.
  - unfold ChatSession.start. rewrite Hs1, Hr. cbn zeta.
    unfold ChatServer.start_accept, async_read_header. rewrite join_eq. cbn zeta.
    rewrite (room_servers srv w1 w) by done.
    split_and!.
    + intros q. wsimpl. rewrite Hn, Hh.
      rewrite lookup_insert. destruct (decide (next_ptr w = q)) as [<-|Hq'].
      * by rewrite decide_True.
      * rewrite decide_False by done. rewrite lookup_alter.
        destruct (decide (p = q)) as [<-|Hpq].
        -- rewrite decide_True by done. rewrite Hs. cbn. by rewrite Hq.
        -- by rewrite decide_False by done.
    + wsimpl. rewrite Hp, Hn.
      rewrite <-!app_assoc. do 2 f_equal.
      destruct (recent_msgs_ (room srv w)) as [|m hist]; [done|].
      by rewrite (kick_idle _ _ _ _ Hs1 Hq).
    + intros r. wsimpl.
      match goal with |- room r ?w0 = _ =>
        change (room r w0) with
          (room r (update_room srv (λ rm,
             {| participants_ := {[p]} ∪ participants_ rm;
                recent_msgs_ := recent_msgs_ rm |}) w1)) end.
      rewrite room_update_room, !(room_servers _ w1 w) by done. rewrite Hsv.
      destruct (decide (srv = r)) as [<-|Hr'].
      * by rewrite !decide_True.
      * rewrite !decide_False; [done|by intros [? _]|by intros [? _]].
    + wsimpl. by rewrite Hn.
    + by wsimpl.
    + by wsimpl.
Qed.

(** The handler of a header read. *)
Lemma dispatch_read_header p error bytes w w2 :
  inv w → dispatch (ReadHeaderDone p error bytes) w = Some w2 →
  let e := ReadHeaderDone p error bytes in
  ∃ s, heap w !! p = Some s ∧ OpReadHeader p ∈ pending w ∧
       heap w2 = <[p := set_read_msg (read_msg_after e s) s]> (heap w) ∧
       pending w2 = remove_first (OpReadHeader p) (pending w) ++ reads_issued e w ∧
       (∀ r, room r w2 =
             if decide (r = room_ s ∧ reads_issued e w = []) then
               {| participants_ := participants_ (room r w) ∖ {[p]};
                  recent_msgs_ := recent_msgs_ (room r w) |}
             else room r w) ∧
       next_ptr w2 = next_ptr w ∧ wire w2 = wire w ∧ cout w2 = cout w.
Proof.
  intros Hinv Hd. cbn zeta. cbn [dispatch] in Hd.
  destruct (take_op (OpReadHeader p) w) as [w1|] eqn:Htake; [|done].
  cbn in Hd. injection Hd as <-.
  destruct (take_op_fields _ _ _ Htake) as (Hin & Hp & Hsv & Hh & Hn & Hw & Hc).
  destruct (inv_owner _ Hinv _ Hin) as [s Hs]. cbn [owner] in Hs.
  assert (heap w1 !! p = Some s) as Hs1 by (by rewrite Hh).
  exists s. split; [done|]. split; [done|].
  change (update_session p _ w1) with (update_session p (fill_header_of bytes) w1).
  pose proof (lookup_update_self p (fill_header_of bytes) w1 s Hs1) as Hfs.
  pose proof (heap_update_self p (fill_header_of bytes) w1 s Hs1) as Hhs.
  set (w1' := update_session p (fill_header_of bytes) w1) in *.
  assert (servers w1' = servers w) as Hsv' by done.
  unfold ChatSession.handle_read_header. rewrite Hfs.
  change (room_ (fill_header_of bytes s)) with (room_ s).
  change (read_msg_ (fill_header_of bytes s))
    with (Message.fill_header bytes (read_msg_ s)).
  cbn [reads_issued read_msg_after]. rewrite Hs.
  destruct error; cbn [negb andb].
  - assert (∀ x : list io_op,
      (let '(_, _) := Message.decode_header (Message.fill_header bytes (read_msg_ s))
       in x) = x) as Hx by (intros x; by destruct (Message.decode_header _)).
    rewrite Hx. split_and!.
    + change (heap (ChatRoom.leave _ p w1')) with (heap w1'). by rewrite Hhs, Hh.
    + change (pending (ChatRoom.leave _ p w1')) with (pending w1).
      by rewrite Hp, app_nil_r.
    + intros r. rewrite room_leave, !(room_servers _ w1' w) by done.
      destruct (decide (room_ s = r)) as [<-|Hr].
      * by rewrite decide_True.
      * rewrite decide_False; [done|]. by intros [? _].
    + by rewrite <-Hn.
    + by rewrite <-Hw.
    + by rewrite <-Hc.
  - destruct (Message.decode_header (Message.fill_header bytes (read_msg_ s)))
      as [ok m] eqn:Hm. cbn [snd].
    pose proof (lookup_update_self p (set_read_msg m) w1' _ Hfs) as Hfs2.
    pose proof (heap_update_self p (set_read_msg m) w1' _ Hfs) as Hhs2.
    set (w1'' := update_session p (set_read_msg m) w1') in *.
    assert (heap w1'' = <[p := set_read_msg m s]> (heap w)) as Hheap.
    { rewrite Hhs2, Hhs, Hh, insert_insert_eq. done. }
    destruct ok.
    + unfold async_read_body. rewrite Hfs2.
      change (read_msg_ (set_read_msg m (fill_header_of bytes s))) with m.
      split_and!.
      * done.
      * change (pending (issue ?op w1'')) with (pending w1 ++ [op]). by rewrite Hp.
      * intros r. rewrite decide_False by (by intros [_ ?]).
        by apply room_servers.
      * by rewrite <-Hn.
      * by rewrite <-Hw.
      * by rewrite <-Hc.
    + split_and!.
      * change (heap (ChatRoom.leave _ p w1'')) with (heap w1''). done.
      * change (pending (ChatRoom.leave _ p w1'')) with (pending w1).
        by rewrite Hp, app_nil_r.
      * intros r. rewrite room_leave, !(room_servers _ w1'' w) by done.
        destruct (decide (room_ s = r)) as [<-|Hr].
        -- by rewrite decide_True.
        -- rewrite decide_False; [done|]. by intros [? _].
      * by rewrite <-Hn.
      * by rewrite <-Hw.
      * by rewrite <-Hc.
Qed.

(** The handler of a body read. *)
Lemma dispatch_read_body p n error bytes w w2 :
  inv w → dispatch (ReadBodyDone p n error bytes) w = Some w2 →
  let e := ReadBodyDone p n error bytes in
  ∃ s, heap w !! p = Some s ∧ OpReadBody p n ∈ pending w ∧
       let msg := Message.fill_body bytes (read_msg_ s) in
       let h1 := <[p := set_read_msg msg s]> (heap w) in
       let members :=
         if error then ∅ else participants_ (room (room_ s) w) in
       (∀ q, heap w2 !! q =
             if decide (q ∈ members) then push msg <$> h1 !! q else h1 !! q) ∧
       (∃ ws, pending w2 =
                remove_first (OpReadBody p n) (pending w) ++ ws ++ reads_issued e w ∧
              Forall (λ op, is_write op = true ∧ owner op ∈ members) ws) ∧
       (∀ r, participants_ (room r w2) =
             if decide (r = room_ s ∧ error = true)
             then participants_ (room r w) ∖ {[p]}
             else participants_ (room r w)) ∧
       (∀ r, recent_msgs_ (room r w2) =
             if decide (r = room_ s ∧ error = false ∧ r < length (servers w))
             then ChatRoom.pop_excess (recent_msgs_ (room r w) ++ [msg])
             else recent_msgs_ (room r w)) ∧
       next_ptr w2 = next_ptr w ∧ wire w2 = wire w ∧ cout w2 = cout w ++ logged e w.
Proof.
  intros Hinv Hd. cbn zeta. cbn [dispatch] in Hd.
  destruct (take_op (OpReadBody p n) w) as [w1|] eqn:Htake; [|done].
  cbn in Hd. injection Hd as <-.
  destruct (take_op_fields _ _ _ Htake) as (Hin & Hp & Hsv & Hh & Hn & Hw & Hc).
  destruct (inv_owner _ Hinv _ Hin) as [s Hs]. cbn [owner] in Hs.
  assert (heap w1 !! p = Some s) as Hs1 by (by rewrite Hh).
  exists s. split; [done|]. split; [done|].
  change (update_session p _ w1) with (update_session p (fill_body_of bytes) w1).
  pose proof (lookup_update_self p (fill_body_of bytes) w1 s Hs1) as Hfs.
  pose proof (heap_update_self p (fill_body_of bytes) w1 s Hs1) as Hhs.
  set (w1' := update_session p (fill_body_of bytes) w1) in *.
  assert (servers w1' = servers w) as Hsv' by done.
  rewrite Hh in Hhs.
  change (fill_body_of bytes s)
    with (set_read_msg (Message.fill_body bytes (read_msg_ s)) s) in Hhs, Hfs.
  set (msg := Message.fill_body bytes (read_msg_ s)) in *.
  unfold ChatSession.handle_read_body. rewrite Hfs.
  change (room_ (set_read_msg msg s)) with (room_ s).
  change (read_msg_ (set_read_msg msg s)) with msg.
  cbn [reads_issued logged]. rewrite Hs. fold msg.
  destruct error; cbn [negb].
  - split_and!.
    + intros q. rewrite decide_False by set_solver.
      change (heap (ChatRoom.leave _ p w1')) with (heap w1'). by rewrite Hhs.
    + exists []. split; [|done].
      change (pending (ChatRoom.leave _ p w1')) with (pending w1).
      by rewrite Hp, !app_nil_r.
    + intros r. rewrite room_leave, !(room_servers _ w1' w) by done.
      destruct (decide (room_ s = r)) as [<-|Hr].
      * by rewrite decide_True.
      * rewrite decide_False; [done|]. by intros [? _].
    + intros r. rewrite room_leave, !(room_servers _ w1' w) by done.
      rewrite (decide_False (P := _ ∧ _)) by (by intros (_ & ? & _)).
      by case_decide; subst.
    + by rewrite <-Hn.
    + by rewrite <-Hw.
    + by rewrite <-Hc, app_nil_r.
  - unfold async_read_header.
    split_and!.
    + intros q. change (heap (issue _ ?w0)) with (heap w0).
      rewrite room_deliver_heap, (room_servers _ w1' w), Hhs by done. done.
    + exists (in_order (participants_ (room (room_ s) w)) ≫= kick msg w1').
      split.
      * change (pending (issue ?op ?w0)) with (pending w0 ++ [op]).
        rewrite room_deliver_pending, (room_servers _ w1' w) by done.
        change (pending w1') with (pending w1). rewrite Hp. by rewrite <-!app_assoc.
      * apply Forall_forall. intros op (q & Hop & Hq)%list_elem_of_bind.
        apply elem_of_kick in Hop as (-> & _).
        apply elem_of_in_order in Hq. done.
    + intros r. change (room r (issue _ ?w0)) with (room r w0).
      rewrite room_deliver_participants, (room_servers _ w1' w) by done.
      by rewrite decide_False by (by intros [_ ?]).
    + intros r. change (room r (issue _ ?w0)) with (room r w0).
      rewrite room_deliver, !(room_servers _ w1' w), Hsv' by done.
      destruct (decide (room_ s = r ∧ room_ s < length (servers w))) as [[<- Hlt]|Hr].
      * by rewrite decide_True.
      * rewrite decide_False; [done|]. intros (-> & _ & ?). by destruct Hr.
    + change (next_ptr (issue _ ?w0)) with (next_ptr w0).
      by rewrite (proj1 (proj2 (room_deliver_fields _ _ _))), <-Hn.
    + change (wire (issue _ ?w0)) with (wire w0).
      by rewrite (proj2 (proj2 (room_deliver_fields _ _ _))), <-Hw.
    + change (cout (issue _ ?w0)) with (cout w0).
      unfold ChatRoom.deliver. cbn zeta.
      match goal with |- context [foldl ?f ?w0 ?l] =>
        pose proof (broadcast_fields msg l w0) as (_ & _ & _ & Hco) end.
      cbn zeta in Hco. rewrite Hco.
      change (cout (update_room _ _ (print ?x w1'))) with (cout w1 ++ [x]).
      by rewrite Hc.
Qed.

(** The handler of a write. *)
Lemma dispatch_write p bytes error w w2 :
  inv w → dispatch (WriteDone p bytes error) w = Some w2 →
  ∃ s m q, heap w !! p = Some s ∧ write_msgs_ s = m :: q ∧ bytes = Message.frame m ∧
       OpWrite p bytes ∈ pending w ∧
       heap w2 = (if error then heap w else <[p := set_write_msgs q s]> (heap w)) ∧
       pending w2 =
         remove_first (OpWrite p bytes) (pending w) ++
         (if error then [] else
            match q with m' :: _ => [OpWrite p (Message.frame m')] | [] => [] end) ∧
       (∀ r, room r w2 =
             if decide (r = room_ s ∧ error = true) then
               {| participants_ := participants_ (room r w) ∖ {[p]};
                  recent_msgs_ := recent_msgs_ (room r w) |}
             else room r w) ∧
       next_ptr w2 = next_ptr w ∧
       wire w2 = wire w ++ emitted (WriteDone p bytes error) ∧
       cout w2 = cout w.
Proof.
  intros Hinv Hd. cbn [dispatch] in Hd.
  destruct (take_op (OpWrite p bytes) w) as [w1|] eqn:Htake; [|done].
  cbn in Hd. injection Hd as <-.
  destruct (take_op_fields _ _ _ Htake) as (Hin & Hp & Hsv & Hh & Hn & Hw & Hc).
  destruct (inv_owner _ Hinv _ Hin) as [s Hs]. cbn [owner] in Hs.
  destruct (inv_head _ Hinv _ _ Hin) as (m & q & Hq & ->).
  rewrite (queue_lookup _ _ _ Hs) in Hq.
  assert (heap w1 !! p = Some s) as Hs1 by (by rewrite Hh).
  exists s, m, q. split_and!; try done.
  - unfold ChatSession.handle_write. destruct error; cbn [negb].
    + rewrite Hs1. change (heap (ChatRoom.leave _ p w1)) with (heap w1). done.
    + assert (heap (transmit p (Message.frame m) w1) !! p = Some s) as Hst
        by (cbn; by rewrite Hh).
      rewrite Hst.
      pose proof (heap_update_self p pop_front _ _ Hst) as Hhq.
      assert (heap (update_session p pop_front (transmit p (Message.frame m) w1))
              = <[p := set_write_msgs q s]> (heap w)) as Hheap.
      { rewrite Hhq. cbn. rewrite Hh. unfold pop_front. by rewrite Hq. }
      destruct (negb (bool_decide _)); [|done].
      unfold async_write_front. destruct (queue p _); done.
  - unfold ChatSession.handle_write. destruct error; cbn [negb].
    + rewrite Hs1. change (pending (ChatRoom.leave _ p w1)) with (pending w1).
      by rewrite Hp, app_nil_r.
    + assert (heap (transmit p (Message.frame m) w1) !! p = Some s) as Hst
        by (cbn; by rewrite Hh).
      rewrite Hst.
      pose proof (lookup_update_self p pop_front _ _ Hst) as Hsq.
      assert (queue p (update_session p pop_front (transmit p (Message.frame m) w1)) = q)
        as Hqq by (rewrite (queue_lookup _ _ _ Hsq); cbn; by rewrite Hq).
      rewrite Hqq. destruct q as [|m' q'].
      * rewrite bool_decide_eq_true_2 by done. cbn [negb].
        change (pending (update_session _ _ (transmit _ _ w1))) with (pending w1).
        by rewrite Hp, app_nil_r.
      * rewrite bool_decide_eq_false_2 by done. cbn [negb].
        unfold async_write_front. rewrite Hqq.
        change (pending (issue ?op (update_session _ _ (transmit _ _ w1))))
          with (pending w1 ++ [op]).
        by rewrite Hp.
  - intros r. unfold ChatSession.handle_write. destruct error; cbn [negb].
    + rewrite Hs1. rewrite room_leave, !(room_servers _ w1 w) by done.
      destruct (decide (room_ s = r)) as [<-|Hr].
      * by rewrite decide_True.
      * rewrite decide_False; [done|]. by intros [? _].
    + rewrite decide_False by (by intros [_ ?]).
      destruct (heap (transmit _ _ w1) !! p); [|by apply room_servers].
      destruct (negb (bool_decide _)); [|by apply room_servers].
      unfold async_write_front. destruct (queue p _); by apply room_servers.
  - unfold ChatSession.handle_write. destruct error; cbn [negb].
    + rewrite Hs1. by rewrite <-Hn.
    + destruct (heap (transmit _ _ w1) !! p); [|by rewrite <-Hn].
      destruct (negb (bool_decide _)); [|by rewrite <-Hn].
      unfold async_write_front. destruct (queue p _); by rewrite <-Hn.
  - unfold ChatSession.handle_write. destruct error; cbn [negb emitted].
    + rewrite Hs1. by rewrite app_nil_r, <-Hw.
    + destruct (heap (transmit _ _ w1) !! p); [|cbn; by rewrite Hw].
      destruct (negb (bool_decide _)); [|cbn; by rewrite Hw].
      unfold async_write_front. destruct (queue p _); cbn; by rewrite Hw.
  - unfold ChatSession.handle_write. destruct error; cbn [negb].
    + rewrite Hs1. by rewrite <-Hc.
    + destruct (heap (transmit _ _ w1) !! p); [|by rewrite <-Hc].
      destruct (negb (bool_decide _)); [|by rewrite <-Hc].
      unfold async_write_front. destruct (queue p _); by rewrite <-Hc.
Qed.

(** *** What a step does, whatever the completion *)

Lemma release_room r w : room r (release w) = room r w.
Proof. done. Qed.

Lemma room_eq (a b : Server.ChatRoom) :
  participants_ a = participants_ b → recent_msgs_ a = recent_msgs_ b → a = b.
Proof. destruct a, b. cbn. by intros -> ->. Qed.

(** The operations in flight after a step: the completed one is gone,
    writes may have been started, for the session of a completed write
    or for participants of a room, and the handler has started the reads
    of [reads_issued]. *)
Lemma dispatch_pending e w w2 :
  inv w → dispatch e w = Some w2 →
  ∃ ws, pending w2 = remove_first (event_op e) (pending w) ++ ws ++ reads_issued e w ∧
        Forall (λ op, is_write op = true ∧
                 ((is_write (event_op e) = true ∧ owner op = event_session e) ∨
                  ∃ r, owner op ∈ participants_ (room r w2))) ws.
Proof.
  intros Hinv Hd. destruct e as [srv p error|p error bytes|p n error bytes|p bytes error].
  - destruct (dispatch_accept _ _ _ _ _ Hinv Hd)
      as (s & Hs & Hr & Hq & Hsrv & Hnot & Hin & Hh & Hp & Hroom & _).
    cbn zeta in *. eexists. split; [exact Hp|].
    destruct error; [done|].
    destruct (recent_msgs_ (room srv w)) as [|m hist]; [done|].
    apply Forall_singleton. split; [done|]. right. exists srv.
    rewrite Hroom, decide_True by done. cbn. set_solver.
  - destruct (dispatch_read_header _ _ _ _ _ Hinv Hd) as (s & Hs & Hin & Hh & Hp & _).
    exists []. split; [exact Hp|done].
  - destruct (dispatch_read_body _ _ _ _ _ _ Hinv Hd)
      as (s & Hs & Hin & Hh & (ws & Hp & Hws) & Hpart & _).
    cbn zeta in *. exists ws. split; [exact Hp|].
    eapply Forall_impl; [exact Hws|]. intros op [Hw Ho]. split; [done|].
    right. exists (room_ s). rewrite Hpart.
    destruct error; [set_solver|]. by rewrite decide_False by (by intros [_ ?]).
  - destruct (dispatch_write _ _ _ _ _ Hinv Hd)
      as (s & m & q & Hs & Hq & -> & Hin & Hh & Hp & _).
    eexists. split; [cbn [reads_issued]; rewrite app_nil_r; exact Hp|].
    destruct error; [done|]. destruct q as [|m' q']; [done|].
    apply Forall_singleton. split; [done|]. by left.
Qed.

(** A session that exists before a step is still on the heap when the
    handler returns, with its room; its [read_msg_] changes only by its
    own reads, and its queue only if it is the session of the completed
    write or a participant of a room. *)
Lemma dispatch_session e w w2 q s :
  inv w → dispatch e w = Some w2 → heap w !! q = Some s →
  ∃ s', heap w2 !! q = Some s' ∧ room_ s' = room_ s ∧
        read_msg_ s' =
          (if decide (q = event_session e) then read_msg_after e s else read_msg_ s) ∧
        (write_msgs_ s' = write_msgs_ s ∨
         (is_write (event_op e) = true ∧ q = event_session e) ∨
         ∃ r, q ∈ participants_ (room r w2)).
Proof.
  intros Hinv Hd Hq. pose proof (inv_bound _ Hinv q ltac:(eauto)) as Hlt.
  destruct e as [srv p error|p error bytes|p n error bytes|p bytes error];
    cbn [event_session event_op is_write].
  - destruct (dispatch_accept _ _ _ _ _ Hinv Hd)
      as (s0 & Hs & Hr & Hq0 & Hsrv & Hnot & Hin & Hh & Hp & Hroom & _).
    cbn zeta in *. rewrite Hh, decide_False by lia.
    destruct (decide (q = p)) as [->|Hqp]; [|by eauto 10].
    simplify_eq. eexists. split; [done|]. split; [done|]. split; [done|].
    destruct error; [left; by cbn|].
    right. right. exists (room_ s). rewrite Hroom, decide_True by done. cbn. set_solver.
  - destruct (dispatch_read_header _ _ _ _ _ Hinv Hd) as (s0 & Hs & Hin & Hh & _).
    cbn zeta in *. rewrite Hh, lookup_insert.
    destruct (decide (p = q)) as [->|Hqp].
    + simplify_eq. rewrite decide_True by done. eexists. split; [done|]. by eauto.
    + rewrite decide_False by done. eauto 10.
  - destruct (dispatch_read_body _ _ _ _ _ _ Hinv Hd)
      as (s0 & Hs & Hin & Hh & _ & Hpart & _).
    cbn zeta in *. rewrite Hh, lookup_insert.
    assert (∃ s1, (if decide (p = q)
                   then Some (set_read_msg (Message.fill_body bytes (read_msg_ s0)) s0)
                   else heap w !! q) = Some s1 ∧
                  room_ s1 = room_ s ∧ write_msgs_ s1 = write_msgs_ s ∧
                  read_msg_ s1 =
                    (if decide (q = p) then read_msg_after (ReadBodyDone p n error bytes) s
                     else read_msg_ s)) as (s1 & -> & Hr1 & Hq1 & Hm1).
    { destruct (decide (p = q)) as [->|Hqp].
      - simplify_eq. rewrite decide_True by done. by eexists.
      - rewrite decide_False by done. by eexists. }
    destruct (decide (q ∈ (if error then ∅ else participants_ (room (room_ s0) w))))
      as [Hmem|Hmem].
    + eexists. split; [done|]. cbn. split; [done|]. split; [done|].
      right. right. exists (room_ s0). rewrite Hpart.
      destruct error; [set_solver|]. by rewrite decide_False by (by intros [_ ?]).
    + eexists. split; [done|]. by eauto.
  - destruct (dispatch_write _ _ _ _ _ Hinv Hd)
      as (s0 & m & q0 & Hs & Hq0 & -> & Hin & Hh & _).
    rewrite Hh. destruct error.
    + exists s. split; [done|]. split; [done|]. split; [by case_decide|by left].
    + rewrite lookup_insert. destruct (decide (p = q)) as [->|Hqp].
      * simplify_eq. eexists. split; [done|]. split; [done|].
        split; [by rewrite decide_True|]. right. by left.
      * exists s. split; [done|]. split; [done|].
        split; [by rewrite decide_False|by left].
Qed.

(** Only [start_accept] creates a session. *)
Lemma dispatch_new_session e w w2 q s' :
  inv w → dispatch e w = Some w2 → heap w !! q = None → heap w2 !! q = Some s' →
  q = next_ptr w ∧ ∃ srv p error, e = AcceptDone srv p error ∧ s' = new_session srv.
Proof.
  intros Hinv Hd Hq Hq'.
  destruct e as [srv p error|p error bytes|p n error bytes|p bytes error].
  - destruct (dispatch_accept _ _ _ _ _ Hinv Hd) as (s0 & Hs & _ & _ & _ & _ & _ & Hh & _).
    cbn zeta in Hh. rewrite Hh in Hq'.
    destruct (decide (q = next_ptr w)) as [->|]; [simplify_eq; by eauto 10|].
    destruct (decide (q = p)) as [->|]; by simplify_eq.
  - destruct (dispatch_read_header _ _ _ _ _ Hinv Hd) as (s0 & Hs & Hin & Hh & _).
    cbn zeta in Hh. rewrite Hh, lookup_insert in Hq'.
    destruct (decide (p = q)); by simplify_eq.
  - destruct (dispatch_read_body _ _ _ _ _ _ Hinv Hd) as (s0 & Hs & Hin & Hh & _).
    cbn zeta in Hh. rewrite Hh, lookup_insert in Hq'.
    destruct (decide (p = q)) as [->|]; [by simplify_eq|].
    rewrite Hq in Hq'. by case_decide.
  - destruct (dispatch_write _ _ _ _ _ Hinv Hd)
      as (s0 & m & q0 & Hs & Hq0 & -> & Hin & Hh & _).
    rewrite Hh in Hq'. destruct error; [by simplify_eq|].
    rewrite lookup_insert in Hq'. destruct (decide (p = q)); by simplify_eq.
Qed.

(** Only a successful accept adds a participant to a room. *)
Lemma dispatch_participants e w w2 r q :
  inv w → dispatch e w = Some w2 →
  q ∈ participants_ (room r w2) →
  q ∈ participants_ (room r w) ∨ e = AcceptDone r q false.
Proof.
  intros Hinv Hd.
  destruct e as [srv p error|p error bytes|p n error bytes|p bytes error].
  - destruct (dispatch_accept _ _ _ _ _ Hinv Hd)
      as (s0 & _ & _ & _ & _ & _ & _ & _ & _ & Hroom & _).
    rewrite Hroom. case_and Hr; [|by intros; left].
    destruct Hr as [-> ->]. cbn. intros [->%elem_of_singleton|?]%elem_of_union; by eauto.
  - destruct (dispatch_read_header _ _ _ _ _ Hinv Hd) as (s0 & _ & _ & _ & _ & Hroom & _).
    cbn zeta in Hroom. rewrite Hroom. case_and Hr; [|by intros; left]. cbn. set_solver.
  - destruct (dispatch_read_body _ _ _ _ _ _ Hinv Hd)
      as (s0 & _ & _ & _ & _ & Hpart & _).
    rewrite Hpart. case_and Hr; [|by intros; left]. set_solver.
  - destruct (dispatch_write _ _ _ _ _ Hinv Hd)
      as (s0 & m & q0 & _ & _ & _ & _ & _ & _ & Hroom & _).
    rewrite Hroom. case_and Hr; [|by intros; left]. cbn. set_solver.
Qed.

(** The participants other than the session of the completion stay. *)
Lemma dispatch_participants_other e w w2 r q :
  inv w → dispatch e w = Some w2 → q ≠ event_session e →
  q ∈ participants_ (room r w2) ↔ q ∈ participants_ (room r w).
Proof.
  intros Hinv Hd Hne.
  destruct e as [srv p error|p error bytes|p n error bytes|p bytes error];
    cbn [event_session] in Hne.
  - destruct (dispatch_accept _ _ _ _ _ Hinv Hd)
      as (s0 & _ & _ & _ & _ & _ & _ & _ & _ & Hroom & _).
    rewrite Hroom. case_and Hr; [|done]. cbn. set_solver.
  - destruct (dispatch_read_header _ _ _ _ _ Hinv Hd) as (s0 & _ & _ & _ & _ & Hroom & _).
    cbn zeta in Hroom. rewrite Hroom. case_and Hr; [|done]. cbn. set_solver.
  - destruct (dispatch_read_body _ _ _ _ _ _ Hinv Hd)
      as (s0 & _ & _ & _ & _ & Hpart & _).
    rewrite Hpart. case_and Hr; [|done]. set_solver.
  - destruct (dispatch_write _ _ _ _ _ Hinv Hd)
      as (s0 & m & q0 & _ & _ & _ & _ & _ & _ & Hroom & _).
    rewrite Hroom. case_and Hr; [|done]. cbn. set_solver.
Qed.

(** Only [ChatRoom::deliver] prints. *)
Lemma dispatch_cout e w w2 :
  inv w → dispatch e w = Some w2 → cout w2 = cout w ++ logged e w.
Proof.
  intros Hinv Hd.
  destruct e as [srv p error|p error bytes|p n error bytes|p bytes error].
  - destruct (dispatch_accept _ _ _ _ _ Hinv Hd)
      as (s0 & _ & _ & _ & _ & _ & _ & _ & _ & _ & _ & _ & Hc).
    by rewrite Hc, app_nil_r.
  - destruct (dispatch_read_header _ _ _ _ _ Hinv Hd)
      as (s0 & _ & _ & _ & _ & _ & _ & _ & Hc).
    by rewrite Hc, app_nil_r.
  - destruct (dispatch_read_body _ _ _ _ _ _ Hinv Hd)
      as (s0 & _ & _ & _ & _ & _ & _ & _ & _ & Hc).
    done.
  - destruct (dispatch_write _ _ _ _ _ Hinv Hd)
      as (s0 & m & q0 & _ & _ & _ & _ & _ & _ & _ & _ & _ & Hc).
    by rewrite Hc, app_nil_r.
Qed.

(** A session that is still there after the step is the one the handler
    left. *)
Lemma step_lookup e w w2 w' q :
  dispatch e w = Some w2 → step e w = Some w' → socket_open q w' →
  heap w' !! q = heap w2 !! q.
Proof.
  intros Hd Hs [s' Hq]. unfold step in Hs. rewrite Hd in Hs. injection Hs as <-.
  rewrite lookup_release in *. by case_decide.
Qed.

Lemma step_dispatch e w w' :
  step e w = Some w' → ∃ w2, dispatch e w = Some w2 ∧ w' = release w2.
Proof.
  unfold step. destruct (dispatch e w) as [w2|]; [|done]. intros [= <-]. by eauto.
Qed.

End WithConfig.
End StepFacts.

(** ** Start-up and the accept loop *)
Module AcceptFacts.
Import Server ServerFacts ReactorFacts EffectFacts SessionFacts QueueFacts StepFacts.

#[local] Set Warnings "-clear-no-such-hyp".

Section WithConfig.
Context `{cfg : FrameConfig}.

(** *** What [main] builds *)

Lemma new_fields endpoint w :
  let w' := ChatServer.new endpoint w in
  servers w' = servers w ++ [{| acceptor_ := endpoint; server_room_ := empty_room |}] ∧
  heap w' = <[next_ptr w := new_session (length (servers w))]> (heap w) ∧
  next_ptr w' = S (next_ptr w) ∧
  pending w' = pending w ++ [OpAccept (length (servers w)) (next_ptr w)] ∧
  wire w' = wire w ∧ cout w' = cout w.
Proof. done. Qed.

Lemma boot_from ports : ∀ w,
  let w' := foldl (λ w port, ChatServer.new (endpoint_port port) w) w ports in
  servers w' =
    servers w ++ ((λ port, {| acceptor_ := endpoint_port port;
                              server_room_ := empty_room |}) <$> ports) ∧
  pending w' =
    pending w ++ imap (λ i _, OpAccept (length (servers w) + i) (next_ptr w + i)) ports ∧
  next_ptr w' = next_ptr w + length ports ∧
  (∀ q, heap w' !! q =
        if decide (next_ptr w ≤ q < next_ptr w + length ports)
        then Some (new_session (length (servers w) + (q - next_ptr w)))
        else heap w !! q) ∧
  wire w' = wire w ∧ cout w' = cout w.
Proof.
  induction ports as [|port ports IH]; intros w; cbn [foldl].
  - cbn. rewrite !app_nil_r, Nat.add_0_r. split_and!; try done.
    intros q. by rewrite decide_False by lia.
  - destruct (IH (ChatServer.new (endpoint_port port) w)) as (Hsv & Hp & Hn & Hh & Hw & Hc).
    destruct (new_fields (endpoint_port port) w) as (Hsv0 & Hh0 & Hn0 & Hp0 & Hw0 & Hc0).
    cbn zeta in *. rewrite Hsv0, Hp0, Hn0 in *. rewrite Hh0 in Hh.
    rewrite length_app in *. cbn [length] in *.
    split_and!.
    + by rewrite Hsv, <-app_assoc.
    + rewrite Hp, <-app_assoc. f_equal. cbn [imap]. rewrite !Nat.add_0_r. f_equal.
      apply imap_ext. intros i x _. cbn. f_equal; lia.
    + lia.
    + intros q. rewrite Hh. clear Hh.
      destruct (decide (S (next_ptr w) ≤ q < S (next_ptr w) + length ports)) as [Hq|Hq].
      * rewrite decide_True by lia. do 2 f_equal. lia.
      * rewrite lookup_insert. destruct (decide (next_ptr w = q)) as [Heq|Hne].
        -- subst q. rewrite !decide_True by lia. do 2 f_equal. lia.
        -- rewrite decide_False by done. by rewrite decide_False by lia.
    + by rewrite Hw.
    + by rewrite Hc.
Qed.




Lemma boot_fields ports :
  acceptor_ <$> servers (boot ports) = endpoint_port <$> ports ∧
  length (servers (boot ports)) = length ports ∧
  (∀ r, room r (boot ports) = empty_room) ∧
  pending (boot ports) = imap (λ i _, OpAccept i i) ports ∧
  (∀ q, heap (boot ports) !! q =
        if decide (q < length ports) then Some (new_session q) else None) ∧
  next_ptr (boot ports) = length ports ∧
  wire (boot ports) = [] ∧ cout (boot ports) = [].
Proof.
  destruct (boot_from ports empty_world) as (Hsv & Hp & Hn & Hh & Hw & Hc).
  cbn zeta in *. fold (boot ports) in *. cbn in Hsv, Hp, Hn, Hh, Hw, Hc.
  split_and!; try done.
  - by rewrite Hsv, <-list_fmap_compose.
  - by rewrite Hsv, length_fmap.
  - intros r. unfold room. rewrite Hsv, list_lookup_fmap.
    by destruct (ports !! r).
  - intros q. rewrite Hh. destruct (decide (q < length ports)) as [Hq|Hq].
    + rewrite decide_True by lia. do 2 f_equal. lia.
    + rewrite decide_False by lia. done.
Qed.


(** *** The accept loop *)

Lemma is_accept_of_write srv op : is_write op = true → is_accept_of srv op = false.
Proof. by destruct op. Qed.

Lemma accepts_reads_issued srv e w :
  filter (λ op, is_accept_of srv op = true) (reads_issued e w) =
  if is_accept_of srv (event_op e) then [OpAccept srv (next_ptr w)] else [].
Proof.
  destruct e as [srv' p error|p error bytes|p n error bytes|p bytes error];
    cbn [reads_issued event_op is_accept_of].
  - rewrite filter_app.
    assert (filter (λ op, is_accept_of srv op = true)
              (if error then [] else [OpReadHeader p]) = []) as ->.
    { destruct error; [done|]. by rewrite filter_cons_False. }
    cbn [app]. case_bool_decide as Hs.
    + subst. rewrite filter_cons_True; [done|]. cbn. by rewrite bool_decide_eq_true_2.
    + rewrite filter_cons_False; [done|]. cbn. by rewrite bool_decide_eq_false_2.
  - destruct (heap w !! p) as [s|]; [|done].
    destruct (Message.decode_header _) as [ok m].
    destruct (negb error && ok); [|done]. by rewrite filter_cons_False.
  - destruct error; [done|]. by rewrite filter_cons_False.
  - done.
Qed.

Lemma accepts_step srv e w w' :
  inv w → step e w = Some w' → length (accepts srv w') = length (accepts srv w).
Proof.
  intros Hinv (w2 & Hd & ->)%step_dispatch.
  destruct (dispatch_pending _ _ _ Hinv Hd) as (ws & Hp & Hws).
  pose proof (step_event_pending e w (release w2)) as Hin.
  unfold step in Hin. rewrite Hd in Hin. specialize (Hin eq_refl).
  unfold accepts. change (pending (release w2)) with (pending w2).
  rewrite Hp, !filter_app, accepts_reads_issued, !length_app.
  assert (filter (λ op, is_accept_of srv op = true) ws = []) as ->.
  { apply filter_nil_iff. intros op Hop.
    rewrite Forall_forall in Hws. destruct (Hws _ Hop) as [Hw _].
    by rewrite (is_accept_of_write _ _ Hw). }
  cbn [length]. destruct (is_accept_of srv (event_op e)) eqn:He.
  - rewrite <-(length_filter_remove_first _ (event_op e) (pending w)) by done.
    cbn. lia.
  - rewrite filter_remove_first_ne by (by rewrite He). cbn. lia.
Qed.

Lemma accepts_new srv endpoint w :
  accepts srv (ChatServer.new endpoint w) =
  accepts srv w ++ (if decide (srv = length (servers w))
                    then [OpAccept srv (next_ptr w)] else []).
Proof.
  unfold accepts. rewrite (proj1 (proj2 (proj2 (proj2 (new_fields endpoint w))))).
  rewrite filter_app. f_equal. case_decide as Hs.
  - subst. rewrite filter_cons_True; [done|]. cbn. by rewrite bool_decide_eq_true_2.
  - rewrite filter_cons_False; [done|]. cbn. rewrite bool_decide_eq_false_2; done.
Qed.

Lemma accepts_boot ports srv : ∀ w,
  length (accepts srv w) = (if decide (srv < length (servers w)) then 1 else 0) →
  let w' := foldl (λ w port, ChatServer.new (endpoint_port port) w) w ports in
  length (accepts srv w') = (if decide (srv < length (servers w')) then 1 else 0).
Proof.
  induction ports as [|port ports IH]; intros w Hw; cbn [foldl]; [done|].
  apply IH. rewrite accepts_new, length_app, Hw.
  rewrite (proj1 (new_fields (endpoint_port port) w)), length_app. cbn [length].
  repeat case_decide; cbn; lia.
Qed.

Lemma accepts_reachable ports w srv :
  reachable ports w →
  length (accepts srv w) = (if decide (srv < length (servers w)) then 1 else 0).
Proof.
  induction 1 as [|w e w' Hreach IH Hstep].
  - by apply accepts_boot.
  - rewrite (accepts_step _ _ _ _ (reachable_inv _ _ Hreach) Hstep), IH.
    by rewrite (step_servers _ _ _ Hstep).
Qed.

Lemma servers_reachable ports w : reachable ports w → length (servers w) = length ports.
Proof.
  induction 1 as [|w e w' _ IH Hstep].
  - apply boot_fields.
  - by rewrite (step_servers _ _ _ Hstep).
Qed.

Lemma elem_of_accepts srv op w :
  op ∈ accepts srv w ↔ op ∈ pending w ∧ ∃ p, op = OpAccept srv p.
Proof.
  unfold accepts. rewrite list_elem_of_filter. split.
  - intros [Ha Hop]. split; [done|]. destruct op as [s p| | |]; try done.
    cbn in Ha. apply bool_decide_eq_true in Ha. subst. by eauto.
  - intros [Hop [p ->]]. split; [|done]. cbn. by rewrite bool_decide_eq_true_2.
Qed.

(** X2. Whatever has happened, accepts that failed included, every server
    has exactly one accept in flight, and none is in flight for a server
    that does not exist.  The session that waits to be accepted is held
    for that server, has an empty outbound queue and is in no room. *)
Theorem accept_always_pending ports w srv :
  reachable ports w →
  (srv < length ports →
   ∃ p s, accepts srv w = [OpAccept srv p] ∧
          heap w !! p = Some s ∧ room_ s = srv ∧ write_msgs_ s = [] ∧
          reading p w = [OpAccept srv p] ∧ in_flight p w = [] ∧
          ∀ r, p ∉ participants_ (room r w)) ∧
  (length ports ≤ srv → accepts srv w = []).
Proof.
  intros Hreach. pose proof (reachable_inv _ _ Hreach) as Hinv.
  pose proof (accepts_reachable _ _ srv Hreach) as Hlen.
  rewrite (servers_reachable _ _ Hreach) in Hlen. split.
  - intros Hsrv. rewrite decide_True in Hlen by done.
    destruct (accepts srv w) as [|op [|op' l]] eqn:Hacc; cbn in Hlen; try lia.
    assert (op ∈ accepts srv w) as [Hop [p ->]]%elem_of_accepts by (rewrite Hacc; by left).
    destruct (inv_accept _ Hinv _ _ Hop) as (_ & (s & Hs & Hr & Hq) & Hnot).
    exists p, s. split_and!; try done.
    + apply length_le_1_elem; [apply Hinv|]. by apply list_elem_of_filter.
    + apply inv_no_write; [done|]. by rewrite (queue_lookup _ _ _ Hs).
  - intros Hsrv. rewrite decide_False in Hlen by lia. by apply length_zero_iff_nil.
Qed.

(** *** An accept that fails *)

(** X3. When an accept fails the session that was waiting is not started:
    it joins no room, no read is issued for it, and it is destroyed at
    once; no room and no other session changes; and the server goes on
    accepting with a new session. *)
Theorem failed_accept_is_dropped ports w srv p w' :
  reachable ports w → step (AcceptDone srv p true) w = Some w' →
  (∀ r, room r w' = room r w) ∧
  ¬ socket_open p w' ∧
  (∀ q, q ≠ p → q ≠ next_ptr w → heap w' !! q = heap w !! q) ∧
  heap w' !! next_ptr w = Some (new_session srv) ∧
  pending w' = remove_first (OpAccept srv p) (pending w) ++ [OpAccept srv (next_ptr w)] ∧
  wire w' = wire w ∧ cout w' = cout w.
Proof.
  intros Hreach Hstep. pose proof (reachable_inv _ _ Hreach) as Hinv.
  destruct (step_dispatch _ _ _ Hstep) as (w2 & Hd & ->).
  destruct (dispatch_accept _ _ _ _ _ Hinv Hd)
    as (s & Hs & Hr & Hq & Hsrv & Hnot & Hin & Hh & Hp & Hroom & Hn & Hw & Hc).
  cbn zeta in *. cbn [reads_issued app] in Hp.
  pose proof (inv_bound _ Hinv p ltac:(eauto)) as Hlt.
  assert (∀ r, room r w2 = room r w) as Hroom'.
  { intros r. rewrite Hroom. by rewrite decide_False by (by intros [_ ?]). }
  assert (∀ op, op ∈ pending w → owner op = p → op = OpAccept srv p) as Honly.
  { intros op Hop Ho. destruct (is_write op) eqn:Hwr.
    - assert (op ∈ in_flight p w) as Hfl by (by apply list_elem_of_filter).
      rewrite (inv_no_write _ _ Hinv) in Hfl by (by rewrite (queue_lookup _ _ _ Hs)).
      by apply elem_of_nil in Hfl.
    - assert (op ∈ reading p w) as Hrd by (by apply list_elem_of_filter).
      rewrite (length_le_1_elem (reading p w) (OpAccept srv p)) in Hrd.
      + by apply list_elem_of_singleton in Hrd.
      + apply Hinv.
      + by apply list_elem_of_filter. }
  assert (¬ OpAccept srv p ∈ remove_first (OpAccept srv p) (pending w)) as Hgone.
  { intros Hop.
    assert (OpAccept srv p ∈ filter (λ op, is_write op = false ∧ owner op = p)
              (remove_first (OpAccept srv p) (pending w))) as Hf
      by (by apply list_elem_of_filter).
    pose proof (inv_one_read _ Hinv p) as Hone. unfold reading in Hone.
    rewrite <-(length_filter_remove_first _ (OpAccept srv p) (pending w)) in Hone by done.
    destruct (filter _ (remove_first _ _)); [by apply elem_of_nil in Hf|cbn in Hone; lia]. }
  split_and!.
  - done.
  - unfold socket_open. rewrite lookup_release, decide_False; [by intros []|].
    rewrite referenced_room. intros [[r Hmem]|(op & Hop & Ho)].
    + rewrite Hroom' in Hmem. by apply (Hnot r).
    + rewrite Hp in Hop. apply elem_of_app in Hop as [Hop|Hop].
      * pose proof (elem_of_remove_first _ _ _ Hop) as Hop'.
        rewrite (Honly _ Hop' Ho) in Hop. done.
      * apply list_elem_of_singleton in Hop as ->. cbn in Ho. lia.
  - intros q Hqp Hqn. rewrite lookup_release, Hh.
    rewrite (decide_False (P := q = next_ptr w)), (decide_False (P := q = p)) by done.
    destruct (heap w !! q) as [sq|] eqn:Hsq; [|by destruct (decide (referenced w2 q))].
    rewrite decide_True; [done|]. rewrite referenced_room.
    destruct (proj1 (referenced_room _ _) (reachable_referenced _ _ q Hreach ltac:(eauto)))
      as [[r Hmem]|(op & Hop & Ho)].
    + left. exists r. by rewrite Hroom'.
    + right. exists op. split; [|done]. rewrite Hp. apply elem_of_app. left.
      apply elem_of_remove_first_ne; [|done]. intros ->. by cbn in Ho.
  - rewrite lookup_release, decide_True.
    + by rewrite Hh, decide_True.
    + apply (referenced_owner _ (OpAccept srv (next_ptr w))).
      rewrite Hp. apply elem_of_app. right. by left.
  - done.
  - done.
  - done.
Qed.

End WithConfig.
End AcceptFacts.

(** ** The read buffer of a session *)
Module BufferFacts.
Import Message.

Lemma length_store_any off bytes buf :
  List.length (store off bytes buf) = List.length buf.
Proof. unfold store. rewrite !length_app, !length_take, length_drop. lia. Qed.

Section WithConfig.
Context `{cfg : FrameConfig}.

Lemma decode_header_true m m' :
  decode_header m = (true, m') →
  m' = set_body_length (body_length_ m') m ∧
  Codec.decode_header (data_ m) = Some (body_length_ m') ∧
  body_length_ m' ≤ max_body_length.
Proof.
  unfold decode_header. destruct (Codec.decode_header (data_ m)) as [n|] eqn:Hd; [|done].
  intros [= <-]. split; [done|]. split; [done|].
  by apply CodecFacts.decode_header_Some in Hd as [_ ?].
Qed.

Lemma data_decode_header m : data_ (decode_header m).2 = data_ m.
Proof. unfold decode_header. by destruct (Codec.decode_header _). Qed.

Lemma length_fill_header bytes m :
  List.length (data_ (fill_header bytes m)) = List.length (data_ m).
Proof. apply length_store_any. Qed.

Lemma length_fill_body bytes m :
  List.length (data_ (fill_body bytes m)) = List.length (data_ m).
Proof. apply length_store_any. Qed.

Lemma length_new_message :
  List.length (data_ new_message) = header_length + max_body_length.
Proof. apply length_replicate. Qed.

(** The buffer after a header of [header_length] bytes has arrived. *)
Lemma data_fill_header hdr m :
  List.length hdr = header_length → header_length ≤ List.length (data_ m) →
  data_ (fill_header hdr m) = hdr ++ drop header_length (data_ m).
Proof.
  intros Hh Hm. cbn [fill_header data_]. unfold store.
  rewrite take_0, app_nil_l, Nat.add_0_l, Nat.sub_0_r.
  rewrite (take_ge hdr) by lia. rewrite (take_ge hdr) by lia. by rewrite Hh.
Qed.

Lemma decode_fill_header hdr m :
  List.length hdr = header_length → header_length ≤ List.length (data_ m) →
  Codec.decode_header (data_ (fill_header hdr m)) = Codec.decode_header hdr.
Proof.
  intros Hh Hm. rewrite data_fill_header by done. unfold Codec.decode_header.
  rewrite take_app_le by lia. done.
Qed.

(** A message whose header and body have been read in full holds
    exactly the bytes received: its frame is the header followed by the
    body, and its text is the body. *)
Lemma frame_received hdr body m n :
  List.length (data_ m) = header_length + max_body_length →
  List.length hdr = header_length → List.length body = n → n ≤ max_body_length →
  let m' := fill_body body (set_body_length n (fill_header hdr m)) in
  frame m' = hdr ++ body ∧ str m' = body ∧ take n (Message.body m') = body.
Proof.
  intros Hm Hh Hb Hn. cbn zeta.
  assert (data_ (fill_body body (set_body_length n (fill_header hdr m)))
          = hdr ++ body ++ drop n (drop header_length (data_ m))) as Hdata.
  { unfold fill_body, copy_body. cbn [data_ set_body_length body_length_].
    change (store 0 (take header_length hdr) (data_ m)) with (data_ (fill_header hdr m)).
    rewrite data_fill_header by lia. unfold store.
    rewrite take_app_length' by done.
    rewrite length_app, length_drop, Hh, Hm.
    rewrite (take_ge body) by lia. rewrite (take_ge body) by lia.
    rewrite drop_app_ge by lia. rewrite Hh, Hb.
    by replace (header_length + n - header_length) with n by lia. }
  unfold frame, str, Message.body, Message.length. rewrite Hdata.
  cbn [body_length_ fill_body copy_body set_body_length].
  split_and!.
  - rewrite take_app_ge by lia. rewrite Hh.
    replace (header_length + n - header_length) with n by lia.
    by rewrite take_app_length' by done.
  - rewrite drop_app_length' by done. by rewrite take_app_length' by done.
  - rewrite drop_app_length' by done. by rewrite take_app_length' by done.
Qed.

End WithConfig.
End BufferFacts.

(** ** The read loop of a session *)
Module ReadLoopFacts.
Import Server ServerFacts ReactorFacts EffectFacts SessionFacts QueueFacts StepFacts.
Import AcceptFacts.

#[local] Set Warnings "-clear-no-such-hyp".

Section WithConfig.
Context `{cfg : FrameConfig}.

(** *** The invariant of the read loops *)

Lemma length_read_msg_after e s :
  length (Message.data_ (read_msg_after e s)) = length (Message.data_ (read_msg_ s)).
Proof.
  destruct e as [| p error bytes | p n error bytes |]; cbn [read_msg_after]; try done.
  - destruct error.
    + apply BufferFacts.length_fill_header.
    + by rewrite BufferFacts.data_decode_header, BufferFacts.length_fill_header.
  - apply BufferFacts.length_fill_body.
Qed.

(** The completed operation was the only copy of it in flight. *)
Lemma read_op_gone e w p :
  inv w → event_op e ∈ pending w → is_write (event_op e) = false →
  owner (event_op e) = p →
  filter (λ op, is_write op = false ∧ owner op = p)
         (remove_first (event_op e) (pending w)) = [].
Proof.
  intros Hinv Hin Hw Ho. apply length_zero_iff_nil.
  pose proof (inv_one_read _ Hinv p) as Hone. unfold reading in Hone.
  rewrite <-(length_filter_remove_first _ (event_op e) (pending w)) in Hone by done.
  lia.
Qed.

Lemma event_owner e : owner (event_op e) = event_session e.
Proof. by destruct e. Qed.

Lemma reads_issued_spec e w op :
  op ∈ reads_issued e w →
  is_write op = false ∧ is_write (event_op e) = false ∧
  (owner op = event_session e ∨ ∃ srv, op = OpAccept srv (next_ptr w)).
Proof.
  destruct e as [srv p error|p error bytes|p n error bytes|p bytes error];
    cbn [reads_issued event_op event_session is_write].
  - intros [Hop|Hop]%elem_of_app.
    + destruct error; [by apply elem_of_nil in Hop|].
      apply list_elem_of_singleton in Hop as ->. by eauto.
    + apply list_elem_of_singleton in Hop as ->. by eauto.
  - destruct (heap w !! p) as [s|]; [|by intros ?%elem_of_nil].
    destruct (Message.decode_header _) as [ok m].
    destruct (negb error && ok); [|by intros ?%elem_of_nil].
    intros ->%list_elem_of_singleton. by eauto.
  - destruct error; [by intros ?%elem_of_nil|].
    intros ->%list_elem_of_singleton. by eauto.
  - by intros ?%elem_of_nil.
Qed.

Lemma read_inv_boot ports : read_inv (boot ports).
Proof.
  destruct (boot_fields ports) as (_ & _ & Hroom & Hp & Hh & _).
  split.
  - intros p n. rewrite Hp. intros (i & x & Hop & _)%elem_of_lookup_imap. done.
  - intros r p. rewrite Hroom. cbn. set_solver.
  - intros p s. rewrite Hh. case_decide; [|done]. intros [= <-].
    apply BufferFacts.length_new_message.
Qed.

Lemma read_inv_step e w w' :
  inv w → read_inv w → step e w = Some w' → read_inv w'.
Proof.
  intros Hinv Hrd Hstep. pose proof (inv_step _ _ _ Hinv Hstep) as Hinv'.
  destruct (step_dispatch _ _ _ Hstep) as (w2 & Hd & Hw').
  pose proof (step_event_pending _ _ _ Hstep) as Hin.
  destruct (dispatch_pending _ _ _ Hinv Hd) as (ws & Hp & Hws).
  assert (pending w' = pending w2) as Hpw by (by subst w').
  rewrite Forall_forall in Hws.
  split.
  - (* a body read in flight *)
    intros p n Hop.
    destruct (inv_owner _ Hinv' _ Hop) as [s' Hs']. cbn [owner] in Hs'.
    pose proof (step_lookup _ _ _ _ p Hd Hstep ltac:(by eexists)) as Hl.
    rewrite Hs' in Hl. symmetry in Hl.
    exists s'. split; [done|].
    rewrite Hpw, Hp in Hop. apply elem_of_app in Hop as [Hop|Hop].
    + pose proof (elem_of_remove_first _ _ _ Hop) as Hop0.
      destruct (rd_body _ Hrd _ _ Hop0) as (s & Hs & Hlen & Hmax).
      destruct (dispatch_session _ _ _ _ _ Hinv Hd Hs) as (s'' & Hs'' & _ & Hm & _).
      simplify_eq. rewrite Hm. case_decide as Hself; [|done].
      destruct (is_write (event_op e)) eqn:Hwr.
      * by destruct e.
      * pose proof (read_op_gone e w p Hinv Hin Hwr) as Hgone.
        rewrite event_owner in Hgone. specialize (Hgone (eq_sym Hself)).
        assert (OpReadBody p (Message.body_length_ (read_msg_ s))
                  ∈ filter (λ op, is_write op = false ∧ owner op = p)
                      (remove_first (event_op e) (pending w))) as Hf
          by (by apply list_elem_of_filter).
        rewrite Hgone in Hf. by apply elem_of_nil in Hf.
    + apply elem_of_app in Hop as [Hop|Hop]; [by destruct (Hws _ Hop) as [? _]|].
      destruct e as [srv q error|q error bytes|q m error bytes|q bytes error];
        cbn [reads_issued] in Hop.
      * apply elem_of_app in Hop as [Hop|Hop].
        -- destruct error; [by apply elem_of_nil in Hop|].
           by apply list_elem_of_singleton in Hop.
        -- by apply list_elem_of_singleton in Hop.
      * destruct (dispatch_read_header _ _ _ _ _ Hinv Hd) as (s & Hs & _ & Hh & _).
        cbn zeta in Hh. cbn [read_msg_after] in Hh. rewrite Hs in Hop.
        destruct (Message.decode_header (Message.fill_header bytes (read_msg_ s)))
          as [ok m] eqn:Hm.
        destruct error; cbn [negb andb] in Hop; [by apply elem_of_nil in Hop|].
        destruct ok; [|by apply elem_of_nil in Hop].
        apply list_elem_of_singleton in Hop. injection Hop as -> ->.
        rewrite Hh, lookup_insert_eq in Hl. injection Hl as <-. cbn.
        split; [done|]. by apply BufferFacts.decode_header_true in Hm as (_ & _ & ?).
      * destruct error; [by apply elem_of_nil in Hop|].
        by apply list_elem_of_singleton in Hop.
      * by apply elem_of_nil in Hop.
  - (* every participant is being read from *)
    intros r p Hmem. rewrite Hw', release_room in Hmem.
    assert (∀ op, op ∈ pending w' → is_write op = false → owner op = p →
                  reading p w' ≠ []) as Hne.
    { intros op Hop Hwr Ho Hnil.
      assert (op ∈ reading p w') as Hf by (by apply list_elem_of_filter).
      rewrite Hnil in Hf. by apply elem_of_nil in Hf. }
    destruct (dispatch_participants _ _ _ _ _ Hinv Hd Hmem) as [Hold | ->].
    + destruct (reading p w) as [|op l] eqn:Hread; [by destruct (rd_member _ Hrd _ _ Hold)|].
      assert (op ∈ reading p w) as [[Hwr Ho] Hop]%list_elem_of_filter
        by (rewrite Hread; by left).
      destruct (decide (op = event_op e)) as [->|Hother].
      * (* the read of [p] has completed: it was followed by another,
           or [p] has left the room *)
        rewrite event_owner in Ho.
        destruct (reads_issued e w) as [|op' l'] eqn:Hri.
        -- exfalso.
           destruct (inv_member _ Hinv _ _ Hold) as (_ & s & Hs & Hr).
           destruct e as [srv q error|q error bytes|q m error bytes|q bytes error];
             cbn [event_session] in Ho; subst q; [by destruct error| | |done].
           ++ destruct (dispatch_read_header _ _ _ _ _ Hinv Hd)
                as (s0 & Hs0 & _ & _ & _ & Hroom & _).
              cbn zeta in Hroom. simplify_eq. rewrite Hroom, Hri in Hmem.
              rewrite decide_True in Hmem by done. cbn in Hmem. set_solver.
           ++ destruct (dispatch_read_body _ _ _ _ _ _ Hinv Hd)
                as (s0 & Hs0 & _ & _ & _ & Hpart & _).
              simplify_eq. rewrite Hpart in Hmem.
              destruct error; [|done].
              rewrite decide_True in Hmem by done. set_solver.
        -- assert (op' ∈ reads_issued e w) as Hop' by (rewrite Hri; by left).
           destruct (reads_issued_spec _ _ _ Hop') as (Hwr' & _ & [Ho'|[srv ->]]).
           ++ apply (Hne op'); [|done|congruence].
              rewrite Hpw, Hp. apply elem_of_app. right. apply elem_of_app. right. by left.
           ++ exfalso.
              destruct e as [srv' q error|q error bytes|q m error bytes|q bytes error];
                cbn [event_session reads_issued] in *; subst q.
              ** apply (inv_not_accepting_member _ _ _ Hinv Hold). by exists srv'.
              ** destruct (heap w !! p) as [s|]; [|done].
                 destruct (Message.decode_header _) as [ok m0].
                 destruct (negb error && ok); simplify_eq.
              ** destruct error; simplify_eq.
              ** done.
      * apply (Hne op); [|done|done].
        rewrite Hpw, Hp. apply elem_of_app. left. by apply elem_of_remove_first_ne.
    + apply (Hne (OpReadHeader p)); [|done|done].
      rewrite Hpw, Hp. cbn [reads_issued]. rewrite !elem_of_app. right. right. left.
      by left.
  - (* the buffers keep their size *)
    intros p s' Hs'.
    pose proof (step_lookup _ _ _ _ p Hd Hstep ltac:(by eexists)) as Hl.
    rewrite Hs' in Hl. symmetry in Hl.
    destruct (heap w !! p) as [s|] eqn:Hs.
    + destruct (dispatch_session _ _ _ _ _ Hinv Hd Hs) as (s'' & Hs'' & _ & Hm & _).
      simplify_eq. rewrite Hm. case_decide.
      * rewrite length_read_msg_after. by eapply rd_buffer.
      * by eapply rd_buffer.
    + destruct (dispatch_new_session _ _ _ _ _ Hinv Hd Hs Hl) as (_ & srv & q & err & _ & ->).
      apply BufferFacts.length_new_message.
Qed.

Lemma reachable_read_inv ports w : reachable ports w → read_inv w.
Proof.
  induction 1 as [|w e w' Hreach IH Hstep].
  - apply read_inv_boot.
  - eapply read_inv_step; [by eapply reachable_inv|done|done].
Qed.

(** X4. Every session has at most one read in flight; a participant of a
    room always has one, of its next header or of the body its last
    header announced; and a body is read with the length that was
    decoded from its header, which is at most [max_body_length] and
    fits the buffer behind the header. *)
Theorem read_loop ports w p :
  reachable ports w →
  length (reading p w) ≤ 1 ∧
  (∀ r, p ∈ participants_ (room r w) →
        reading p w = [OpReadHeader p] ∨ ∃ n, reading p w = [OpReadBody p n]) ∧
  (∀ n, OpReadBody p n ∈ pending w →
        ∃ s, heap w !! p = Some s ∧
             Message.body_length_ (read_msg_ s) = n ∧ n ≤ max_body_length ∧
             header_length + n ≤ length (Message.data_ (read_msg_ s))).
Proof.
  intros Hreach. pose proof (reachable_inv _ _ Hreach) as Hinv.
  pose proof (reachable_read_inv _ _ Hreach) as Hrd.
  split_and!.
  - apply Hinv.
  - intros r Hmem. pose proof (rd_member _ Hrd _ _ Hmem) as Hne.
    pose proof (inv_one_read _ Hinv p) as Hone.
    destruct (reading p w) as [|op [|op' l]] eqn:Hread; [done| |cbn in Hone; lia].
    assert (op ∈ reading p w) as [[Hwr Ho] Hop]%list_elem_of_filter
      by (rewrite Hread; by left).
    destruct op as [srv q|q|q n|q bytes]; cbn in Ho, Hwr; subst; [|by left|by eauto|done].
    destruct (inv_not_accepting_member _ _ _ Hinv Hmem). by exists srv.
  - intros n Hop. destruct (rd_body _ Hrd _ _ Hop) as (s & Hs & Hlen & Hmax).
    exists s. split_and!; try done.
    rewrite (rd_buffer _ Hrd _ _ Hs). lia.
Qed.

(** *** What is relayed *)

(** The message a session holds when a header of [header_length] bytes
    that announces the body and then the body have been read. *)
Lemma read_message ports w p s hdr body w1 :
  reachable ports w → heap w !! p = Some s →
  length hdr = header_length → Codec.decode_header hdr = Some (length body) →
  step (ReadHeaderDone p false hdr) w = Some w1 →
  OpReadBody p (length body) ∈ pending w1 →
  ∃ s1, heap w1 !! p = Some s1 ∧ room_ s1 = room_ s ∧
        Message.frame (Message.fill_body body (read_msg_ s1)) = hdr ++ body ∧
        Message.str (Message.fill_body body (read_msg_ s1)) = body.
Proof.
  intros Hreach Hs Hh Hdec Hstep1 Hop2.
  pose proof (reachable_inv _ _ Hreach) as Hinv.
  pose proof (reachable_read_inv _ _ Hreach) as Hrd.
  assert (reachable ports w1) as Hreach1 by (by eapply reachable_step).
  pose proof (reachable_inv _ _ Hreach1) as Hinv1.
  pose proof (rd_buffer _ Hrd _ _ Hs) as Hbuf.
  destruct (step_dispatch _ _ _ Hstep1) as (w1' & Hd1 & Hw1).
  destruct (inv_owner _ Hinv1 _ Hop2) as [s1 Hs1]. cbn [owner] in Hs1.
  pose proof (step_lookup _ _ _ _ p Hd1 Hstep1 ltac:(by eexists)) as Hl.
  destruct (dispatch_read_header _ _ _ _ _ Hinv Hd1) as (s0 & Hs0 & _ & Hheap & _).
  cbn zeta in Hheap. rewrite Hs in Hs0. injection Hs0 as <-.
  assert (Message.decode_header (Message.fill_header hdr (read_msg_ s))
          = (true, Message.set_body_length (length body)
                     (Message.fill_header hdr (read_msg_ s)))) as Hm.
  { unfold Message.decode_header.
    by rewrite BufferFacts.decode_fill_header, Hdec by lia. }
  cbn [read_msg_after] in Hheap. rewrite Hm in Hheap. cbn [snd] in Hheap.
  rewrite Hs1, Hheap, lookup_insert_eq in Hl. injection Hl as Hl.
  pose proof (proj2 (proj1 (CodecFacts.decode_header_Some _ _) Hdec)) as Hmax.
  destruct (BufferFacts.frame_received hdr body (read_msg_ s) (length body)
              Hbuf Hh eq_refl Hmax) as (Hframe & Hstr & _).
  cbn zeta in Hframe, Hstr.
  exists s1. subst s1. cbn [room_ read_msg_ set_read_msg]. by split_and!.
Qed.

(** Every participant of the room gets that message. *)
Lemma relay_frame ports w p s hdr body w1 w2 :
  reachable ports w → heap w !! p = Some s →
  length hdr = header_length → Codec.decode_header hdr = Some (length body) →
  step (ReadHeaderDone p false hdr) w = Some w1 →
  step (ReadBodyDone p (length body) false body) w1 = Some w2 →
  ∀ q, q ∈ participants_ (room (room_ s) w1) →
       ∃ m, queue q w2 = queue q w1 ++ [m] ∧ Message.frame m = hdr ++ body.
Proof.
  intros Hreach Hs Hh Hdec Hstep1 Hstep2 q Hq.
  assert (reachable ports w1) as Hreach1 by (by eapply reachable_step).
  pose proof (step_event_pending _ _ _ Hstep2) as Hop2. cbn [event_op] in Hop2.
  destruct (read_message _ _ _ _ _ _ _ Hreach Hs Hh Hdec Hstep1 Hop2)
    as (s1 & Hs1 & Hroom & Hframe & _).
  eexists. split; [|exact Hframe].
  apply (read_body_broadcasts ports w1 p s1 _ _ _ Hreach1 Hs1 Hstep2).
  by rewrite Hroom.
Qed.

(** X5. When a header of [header_length] bytes that announces [n] bytes and
    then a body of [n] bytes have been read from a connection, every
    participant of the room of its session gets one more message in its
    queue, whose frame is exactly the bytes received, header then body;
    the log gets the body between brackets, and the session goes on
    with the read of the next header. *)
Theorem relays_received_bytes ports w p s hdr body n w1 w2 :
  reachable ports w → heap w !! p = Some s →
  length hdr = header_length → Codec.decode_header hdr = Some n → length body = n →
  step (ReadHeaderDone p false hdr) w = Some w1 →
  step (ReadBodyDone p n false body) w1 = Some w2 →
  (∀ q, q ∈ participants_ (room (room_ s) w1) →
        ∃ m, queue q w2 = queue q w1 ++ [m] ∧ Message.frame m = hdr ++ body) ∧
  cout w2 = cout w1 ++ ["["%char :: body ++ ["]"%char]] ∧
  reading p w2 = [OpReadHeader p].
Proof.
  intros Hreach Hs Hh Hdec Hb Hstep1 Hstep2. subst n.
  assert (reachable ports w1) as Hreach1 by (by eapply reachable_step).
  assert (reachable ports w2) as Hreach2 by (by eapply reachable_step).
  pose proof (reachable_inv _ _ Hreach1) as Hinv1.
  pose proof (step_event_pending _ _ _ Hstep2) as Hop2. cbn [event_op] in Hop2.
  destruct (read_message _ _ _ _ _ _ _ Hreach Hs Hh Hdec Hstep1 Hop2)
    as (s1 & Hs1 & Hroom & _ & Hstr).
  destruct (step_dispatch _ _ _ Hstep2) as (w2' & Hd2 & Hw2).
  split_and!.
  - exact (relay_frame ports w p s hdr body w1 w2 Hreach Hs Hh Hdec Hstep1 Hstep2).
  - rewrite Hw2. change (cout (release w2')) with (cout w2').
    rewrite (dispatch_cout _ _ _ Hinv1 Hd2). cbn [logged]. rewrite Hs1.
    by rewrite Hstr.
  - apply length_le_1_elem; [apply (reachable_inv _ _ Hreach2)|].
    apply list_elem_of_filter. split; [done|].
    destruct (dispatch_pending _ _ _ Hinv1 Hd2) as (ws & Hp & _).
    rewrite Hw2. change (pending (release w2')) with (pending w2'). rewrite Hp.
    cbn [reads_issued]. apply elem_of_app. right. apply elem_of_app. right. by left.
Qed.

End WithConfig.
End ReadLoopFacts.

(** ** Sessions that fail, and the rooms they were in *)
Module LifetimeFacts.
Import Server ServerFacts ReactorFacts EffectFacts SessionFacts QueueFacts StepFacts.
Import AcceptFacts ReadLoopFacts.

#[local] Set Warnings "-clear-no-such-hyp".

Section WithConfig.
Context `{cfg : FrameConfig}.

(** *** A session that receives nothing any more *)

Lemma accept_reads_issued e w srv q :
  OpAccept srv q ∈ reads_issued e w → q = next_ptr w.
Proof.
  destruct e as [srv' p error|p error bytes|p n error bytes|p bytes error];
    cbn [reads_issued].
  - intros [Hop|Hop]%elem_of_app.
    + destruct error; [by apply elem_of_nil in Hop|].
      by apply list_elem_of_singleton in Hop.
    + apply list_elem_of_singleton in Hop. by injection Hop as _ ->.
  - destruct (heap w !! p) as [s|]; [|by intros ?%elem_of_nil].
    destruct (Message.decode_header _) as [ok m].
    destruct (negb error && ok); [|by intros ?%elem_of_nil].
    by intros ?%list_elem_of_singleton.
  - destruct error; [by intros ?%elem_of_nil|].
    by intros ?%list_elem_of_singleton.
  - by intros ?%elem_of_nil.
Qed.

Lemma muted_step e p w w' :
  inv w → step e w = Some w' → muted p w →
  muted p w' ∧ sent p w' = sent p w ∧
  (socket_open p w' → queue p w' = queue p w).
Proof.
  intros Hinv Hstep (Hlt & Hroom & Hfl & Hacc).
  destruct (step_dispatch _ _ _ Hstep) as (w2 & Hd & Hw').
  pose proof (step_event_pending _ _ _ Hstep) as Hin.
  destruct (dispatch_pending _ _ _ Hinv Hd) as (ws & Hp & Hws).
  rewrite Forall_forall in Hws.
  assert (pending w' = pending w2) as Hpw by (by subst w').
  pose proof (proj1 (in_flight_nil _ _) Hfl) as Hnow.
  assert (∀ r, p ∉ participants_ (room r w2)) as Hroom2.
  { intros r Hmem. destruct (dispatch_participants _ _ _ _ _ Hinv Hd Hmem) as [Hold | ->].
    - by apply (Hroom r).
    - apply Hacc. by exists r. }
  assert (∀ bytes error, e ≠ WriteDone p bytes error) as Hnotw.
  { intros bytes error ->. by apply (Hnow bytes). }
  split_and!.
  - split_and!.
    + apply step_next_ptr in Hstep. lia.
    + intros r. rewrite Hw', release_room. apply Hroom2.
    + apply in_flight_nil. intros bytes. rewrite Hpw, Hp.
      intros [Hop|[Hop|Hop]%elem_of_app]%elem_of_app.
      * by apply (Hnow bytes), (elem_of_remove_first _ _ _ Hop).
      * destruct (Hws _ Hop) as [_ [[Hwr Ho]|[r Hmem]]].
        -- cbn [owner] in Ho. destruct e as [| | |q bytes' error]; try done.
           cbn in Ho. subst q. by apply (Hnotw bytes' error).
        -- by apply (Hroom2 r).
      * by destruct (reads_issued_spec _ _ _ Hop) as [? _].
    + intros [srv Hop]. rewrite Hpw, Hp in Hop.
      apply elem_of_app in Hop as [Hop|[Hop|Hop]%elem_of_app].
      * apply Hacc. exists srv. by apply (elem_of_remove_first _ _ _ Hop).
      * by destruct (Hws _ Hop) as [? _].
      * apply accept_reads_issued in Hop. lia.
  - rewrite (sent_step _ p _ _ Hstep).
    destruct e as [| | |q bytes []]; cbn [emitted];
      rewrite ?filter_nil, ?app_nil_r; try done.
    rewrite filter_cons_False, filter_nil; [by rewrite app_nil_r|].
    cbn. intros ->. by apply (Hnotw bytes false).
  - intros Hopen.
    destruct (step_heap _ _ _ _ Hstep Hopen) as [[s Hs]|?]; [|lia].
    rewrite (queue_lookup _ _ _ Hs). unfold queue.
    rewrite (step_lookup _ _ _ _ p Hd Hstep Hopen).
    destruct (dispatch_session _ _ _ _ _ Hinv Hd Hs) as (s' & -> & _ & _ & Hq).
    cbn. destruct Hq as [Hq|[[Hwr Ho]|[r Hmem]]].
    + done.
    + destruct e as [| | |q bytes error]; try done.
      cbn in Ho. subst q. by destruct (Hnotw bytes error).
    + by destruct (Hroom2 r).
Qed.

Lemma muted_run es : ∀ p w w',
  inv w → run es w = Some w' → muted p w →
  muted p w' ∧ sent p w' = sent p w ∧
  (socket_open p w' → queue p w' = queue p w).
Proof.
  induction es as [|e es IH]; intros p w w' Hinv; cbn [run].
  - by intros [= <-].
  - destruct (step e w) as [w1|] eqn:Hs; [|done]. cbn. intros Hrun Hm.
    destruct (muted_step _ _ _ _ Hinv Hs Hm) as (Hm1 & Hsent1 & Hq1).
    destruct (IH p w1 w' (inv_step _ _ _ Hinv Hs) Hrun Hm1) as (Hm' & Hsent' & Hq').
    split_and!; [done|congruence|].
    intros Hopen. rewrite Hq' by done. apply Hq1.
    destruct (decide (socket_open p w1)) as [|Hclosed]; [done|].
    destruct Hm1 as (Hlt & _). by destruct (closed_run _ _ _ _ Hrun Hlt Hclosed).
Qed.

(** X6. After a write to a session has failed, the session is in no room,
    nothing is written to its connection and nothing is added to its
    queue, ever again; but its read goes on, so what its client sends
    is still delivered to the participants of its room. *)
Theorem write_failure_mutes ports w p bytes w' :
  reachable ports w → step (WriteDone p bytes true) w = Some w' →
  muted p w' ∧ reading p w' = reading p w ∧
  (∀ es w'', run es w' = Some w'' →
     muted p w'' ∧ sent p w'' = sent p w ∧
     (socket_open p w'' → queue p w'' = queue p w)) ∧
  (∀ es w'' s n body w3,
     run es w' = Some w'' → heap w'' !! p = Some s →
     step (ReadBodyDone p n false body) w'' = Some w3 →
     ∀ q, q ∈ participants_ (room (room_ s) w'') →
          queue q w3 = queue q w'' ++ [Message.fill_body body (read_msg_ s)]).
Proof.
  intros Hreach Hstep. pose proof (reachable_inv _ _ Hreach) as Hinv.
  assert (reachable ports w') as Hreach' by (by eapply reachable_step).
  pose proof (reachable_inv _ _ Hreach') as Hinv'.
  destruct (write_done_error _ _ _ _ Hinv Hstep) as (Hsent & Hfl & Hq).
  destruct (step_dispatch _ _ _ Hstep) as (w2 & Hd & Hw').
  destruct (dispatch_write _ _ _ _ _ Hinv Hd)
    as (s & m & q0 & Hs & Hq0 & -> & Hin & Hh & Hp & Hroom & Hn & _).
  rewrite app_nil_r in Hp.
  assert (muted p w') as Hm.
  { split_and!.
    - pose proof (inv_bound _ Hinv p ltac:(eauto)). apply step_next_ptr in Hstep. lia.
    - intros r. rewrite Hw', release_room, Hroom.
      destruct (decide (r = room_ s ∧ true = true)) as [_|Hr]; [cbn; set_solver|].
      intros (_ & s0 & Hs0 & Hr0)%(inv_member _ Hinv). simplify_eq. by destruct Hr.
    - done.
    - intros [srv Hop]. rewrite Hw' in Hop. change (pending (release w2)) with (pending w2) in Hop.
      rewrite Hp in Hop. apply elem_of_remove_first in Hop.
      destruct (inv_accept _ Hinv _ _ Hop) as (_ & (s0 & Hs0 & _ & Hempty) & _).
      simplify_eq. by rewrite Hq0 in Hempty. }
  split_and!.
  - done.
  - unfold reading. rewrite Hw'. change (pending (release w2)) with (pending w2).
    rewrite Hp. apply filter_remove_first_ne. by intros [? _].
  - intros es w'' Hrun.
    destruct (muted_run _ _ _ _ Hinv' Hrun Hm) as (Hm' & Hsent' & Hq').
    split_and!; [done|congruence|].
    intros Hopen. rewrite Hq' by done. apply Hq.
    destruct (decide (socket_open p w')) as [|Hclosed]; [done|].
    destruct Hm as (Hlt & _). by destruct (closed_run _ _ _ _ Hrun Hlt Hclosed).
  - intros es w'' s' n body w3 Hrun Hs' Hstep3.
    apply (read_body_broadcasts ports w'' p s' n body w3); [|done|done].
    by eapply reachable_run.
Qed.

(** *** A broadcast stays in its room *)

(** X8. When the body of a message has been read from a session, nothing
    changes outside the room of that session: the other rooms keep
    their participants and their history, and a session that is not a
    participant of that room, such as every session of another server,
    keeps its queue and its operations in flight; nothing is written to
    the wire by the broadcast itself. *)
Theorem broadcast_stays_in_room ports w p s n body w' :
  reachable ports w → heap w !! p = Some s →
  step (ReadBodyDone p n false body) w = Some w' →
  (∀ r, r ≠ room_ s → room r w' = room r w) ∧
  (∀ q, q ≠ p → q ∉ participants_ (room (room_ s) w) →
        heap w' !! q = heap w !! q ∧
        in_flight q w' = in_flight q w ∧ reading q w' = reading q w) ∧
  (∀ q sq, heap w !! q = Some sq → room_ sq ≠ room_ s →
           q ≠ p ∧ q ∉ participants_ (room (room_ s) w)) ∧
  wire w' = wire w.
Proof.
  intros Hreach Hs Hstep. pose proof (reachable_inv _ _ Hreach) as Hinv.
  destruct (step_dispatch _ _ _ Hstep) as (w2 & Hd & Hw').
  destruct (dispatch_read_body _ _ _ _ _ _ Hinv Hd)
    as (s0 & Hs0 & Hin & Hh & (ws & Hp & Hws) & Hpart & Hrec & Hn & Hw & Hc).
  cbn zeta in *. simplify_eq. rewrite Forall_forall in Hws.
  assert (∀ r, participants_ (room r w2) = participants_ (room r w)) as Hpart'.
  { intros r. rewrite Hpart. by rewrite decide_False by (by intros [_ ?]). }
  split_and!.
  - intros r Hr. change (room r (release w2)) with (room r w2).
    apply room_eq; [apply Hpart'|]. rewrite Hrec.
    by rewrite decide_False by (by intros [? _]).
  - intros q Hqp Hq. split_and!.
    + rewrite lookup_release, Hh.
      rewrite (decide_False (P := q ∈ participants_ (room (room_ s) w))) by done.
      rewrite lookup_insert_ne by done.
      destruct (heap w !! q) as [sq|] eqn:Hsq; [|by destruct (decide (referenced w2 q))].
      rewrite decide_True; [done|]. rewrite referenced_room.
      destruct (proj1 (referenced_room _ _) (reachable_referenced _ _ q Hreach ltac:(eauto)))
        as [[r Hmem]|(op & Hop & Ho)].
      * left. exists r. by rewrite Hpart'.
      * right. exists op. split; [|done]. rewrite Hp. apply elem_of_app. left.
        apply elem_of_remove_first_ne; [|done]. intros ->. by cbn in Ho.
    + unfold in_flight. change (pending (release w2)) with (pending w2).
      rewrite Hp, !filter_app. cbn [reads_issued].
      rewrite filter_remove_first_ne by (by intros [? _]).
      rewrite filter_cons_False, filter_nil, app_nil_r by (by intros [? _]).
      assert (filter (λ op, is_write op = true ∧ owner op = q) ws = []) as ->.
      { apply filter_nil_iff. intros op Hop [_ Ho].
        destruct (Hws _ Hop) as [_ Hmem]. by rewrite Ho in Hmem. }
      by rewrite app_nil_r.
    + unfold reading. change (pending (release w2)) with (pending w2).
      rewrite Hp, !filter_app. cbn [reads_issued].
      rewrite filter_remove_first_ne by (intros [_ ?]; by cbn in *).
      rewrite filter_cons_False, filter_nil, app_nil_r by (intros [_ ?]; by cbn in *).
      assert (filter (λ op, is_write op = false ∧ owner op = q) ws = []) as ->.
      { apply filter_nil_iff. intros op Hop [Hwr _].
        destruct (Hws _ Hop) as [Hwr' _]. congruence. }
      by rewrite app_nil_r.
  - intros q sq Hsq Hr. split; [intros ->; by simplify_eq|].
    intros (_ & s1 & Hs1 & Hr1)%(inv_member _ Hinv). by simplify_eq.
  - exact Hw.
Qed.

End WithConfig.
End LifetimeFacts.

(** ** The log of the server *)
Module LogFacts.
Import Server ServerFacts ReactorFacts EffectFacts SessionFacts QueueFacts StepFacts.
Import AcceptFacts.

#[local] Set Warnings "-clear-no-such-hyp".

Section WithConfig.
Context `{cfg : FrameConfig}.

Lemma step_cout e w w' :
  inv w → step e w = Some w' → cout w' = cout w ++ logged e w.
Proof.
  intros Hinv (w2 & Hd & ->)%step_dispatch.
  change (cout (release w2)) with (cout w2). by apply dispatch_cout.
Qed.

Lemma logged_spec e w :
  inv w → event_op e ∈ pending w →
  length (logged e w) = (if delivers e then 1 else 0) ∧ Forall bracketed (logged e w).
Proof.
  intros Hinv Hin. destruct e as [| |p n [] bytes|]; try done.
  cbn [logged delivers]. cbn [event_op] in Hin.
  destruct (inv_owner _ Hinv _ Hin) as [s Hs]. cbn [owner] in Hs. rewrite Hs.
  split; [done|]. apply Forall_singleton. by eexists.
Qed.

Lemma log_run es : ∀ w w',
  inv w → run es w = Some w' →
  length (cout w') = length (cout w) + length (filter (λ e, delivers e = true) es) ∧
  (Forall bracketed (cout w) → Forall bracketed (cout w')).
Proof.
  induction es as [|e es IH]; intros w w' Hinv; cbn [run].
  - intros [= <-]. cbn. split; [lia|done].
  - destruct (step e w) as [w1|] eqn:Hs; [|done]. cbn [mbind option_bind]. intros Hrun.
    destruct (IH _ _ (inv_step _ _ _ Hinv Hs) Hrun) as [Hlen Hall].
    pose proof (step_cout _ _ _ Hinv Hs) as Hc.
    destruct (logged_spec e w Hinv (step_event_pending _ _ _ Hs)) as [Hl Hb].
    rewrite Hc, length_app, Hl in Hlen. split.
    + rewrite Hlen. destruct (delivers e) eqn:Hdel.
      * rewrite filter_cons_True by done. cbn. lia.
      * rewrite filter_cons_False by (by rewrite Hdel). lia.
    + intros Hw. apply Hall. rewrite Hc. by apply Forall_app.
Qed.

(** X9. The server prints one entry, the text of the message between
    brackets, each time the body of a message has been read, and
    nothing else: a join, a leave, a failed read, an accept or a write
    print nothing. *)
Theorem log_records_deliveries ports es w :
  run es (boot ports) = Some w →
  length (cout w) = length (filter (λ e, delivers e = true) es) ∧
  Forall bracketed (cout w) ∧
  (∀ e w', step e w = Some w' →
           cout w' = cout w ++ logged e w ∧
           length (logged e w) = if delivers e then 1 else 0).
Proof.
  intros Hrun.
  destruct (log_run es _ _ (inv_boot ports) Hrun) as [Hlen Hall].
  destruct (boot_fields ports) as (_ & _ & _ & _ & _ & _ & _ & Hc).
  rewrite Hc in Hlen, Hall. split_and!.
  - done.
  - by apply Hall.
  - intros e w' Hstep.
    assert (inv w) as Hinv by (by eapply inv_run; [apply inv_boot|]).
    split; [by apply step_cout|].
    by apply logged_spec; [|eapply step_event_pending].
Qed.

End WithConfig.
End LogFacts.

(** ** The read loop of the client *)
Module ClientReadFacts.
Import Client ClientFacts.
Import ReactorFacts (elem_of_remove_first, elem_of_remove_first_ne,
  filter_remove_first_ne, length_filter_remove_first, filter_nil_iff).
Import SessionFacts (length_le_1_elem).

#[local] Set Warnings "-clear-no-such-hyp".

Section WithConfig.
Context `{cfg : FrameConfig}.

(** *** What a step of the client does *)

Lemma reads_issue op w :
  reads (issue op w) = reads w ++ (if is_write op then [] else [op]).
Proof.
  unfold reads. cl_simpl. rewrite filter_app. f_equal.
  destruct (is_write op) eqn:Hop.
  - rewrite filter_cons_False by congruence. done.
  - rewrite filter_cons_True by done. done.
Qed.

Lemma reads_same w w' : pending w' = pending w → reads w' = reads w.
Proof. unfold reads. by intros ->. Qed.

Lemma reads_do_write msg w : reads (do_write msg w) = reads w.
Proof.
  unfold reads. rewrite (proj2 (proj2 (client_do_write_enqueues msg w))).
  rewrite filter_app. case_bool_decide.
  - rewrite filter_cons_False by done. by rewrite filter_nil, app_nil_r.
  - by rewrite filter_nil, app_nil_r.
Qed.

Lemma reads_handle_write error w : reads (handle_write error w) = reads w.
Proof.
  unfold handle_write. destruct error; cbn [negb]; [done|].
  destruct (negb (bool_decide _)); [|done].
  unfold async_write_front. destruct (write_msgs_ (client _)) as [|m q]; [done|].
  rewrite reads_issue. cbn. by rewrite app_nil_r.
Qed.

Lemma do_write_fields msg w :
  socket_ (client (do_write msg w)) = socket_ (client w) ∧
  read_msg_ (client (do_write msg w)) = read_msg_ (client w) ∧
  cout (do_write msg w) = cout w.
Proof.
  unfold do_write. cbn zeta. destruct (negb (negb _)); [|done].
  unfold async_write_front. by destruct (write_msgs_ (client (set_client _ w))).
Qed.

Lemma handle_write_fields error w :
  (socket_ (client (handle_write error w)) = true → socket_ (client w) = true) ∧
  read_msg_ (client (handle_write error w)) = read_msg_ (client w) ∧
  cout (handle_write error w) = cout w.
Proof.
  unfold handle_write. destruct error; cbn [negb]; [done|].
  destruct (negb (bool_decide _)); [|done].
  unfold async_write_front. by destruct (write_msgs_ (client _)).
Qed.

Lemma elem_of_reads op w : op ∈ reads w ↔ op ∈ pending w ∧ is_write op = false.
Proof. unfold reads. rewrite list_elem_of_filter. tauto. Qed.

(** The completed read was the only read in flight. *)
Lemma take_read op w w1 :
  read_inv w → is_write op = false → take_op op w = Some w1 →
  reads w1 = [] ∧ op ∈ pending w ∧ reads w = [op] ∧
  client w1 = client w ∧ cout w1 = cout w.
Proof.
  intros Hrd Hop (Hin & Hp & Hc & _ & _ & Hco)%client_take_op_fields.
  pose proof (rd_one _ Hrd) as Hone. split_and!; try done.
  - apply length_zero_iff_nil. unfold reads in *. rewrite Hp.
    rewrite <-(length_filter_remove_first _ op (pending w)) in Hone by done. lia.
  - apply length_le_1_elem; [done|]. by apply elem_of_reads.
Qed.

(** The reads in flight, the read buffer, the output and the socket
    after a step. *)
Lemma step_reads e w w' :
  read_inv w → step e w = Some w' →
  reads w' = (if event_op e is Some op then
                if is_write op then reads w else [] else reads w) ++ reads_issued e w ∧
  read_msg_ (client w') = read_msg_after e (read_msg_ (client w)) ∧
  cout w' = cout w ++ printed e w ∧
  (socket_ (client w') = true → socket_ (client w) = true) ∧
  (∀ op, event_op e = Some op → op ∈ pending w).
Proof.
  intros Hrd. destruct e as [msg| |i|error|error bytes|n error bytes|bytes error];
    cbn [step event_op reads_issued read_msg_after printed is_write].
  - intros [= <-]. rewrite !app_nil_r. split_and!; by eauto.
  - intros [= <-]. rewrite !app_nil_r. split_and!; by eauto.
  - destruct (posted w !! i) as [t|]; [|done]. cbn. intros [= <-].
    rewrite !app_nil_r. destruct t as [msg|]; cbn [run_task].
    + rewrite reads_do_write.
      destruct (do_write_fields msg (set_posted (delete i (posted w)) w)) as (-> & -> & ->).
      split_and!; by eauto.
    + split_and!; by eauto.
  - destruct (take_op _ w) as [w1|] eqn:Htake; [|done]. cbn. intros [= <-].
    destruct (take_read OpConnect _ _ Hrd eq_refl Htake) as (Hr1 & Hin & _ & Hc & Hco).
    rewrite app_nil_r. unfold handle_connect. destruct error; cbn [negb].
    + rewrite Hr1, Hc, Hco. split_and!; [done|done|done|by eauto|by intros ? [= <-]].
    + unfold async_read_header. rewrite reads_issue. cbn [is_write].
      rewrite Hr1. cl_simpl. rewrite Hc, Hco.
      split_and!; [done|done|done|by eauto|by intros ? [= <-]].
  - destruct (take_op _ w) as [w1|] eqn:Htake; [|done]. cbn. intros [= <-].
    destruct (take_read OpReadHeader _ _ Hrd eq_refl Htake) as (Hr1 & Hin & _ & Hc & Hco).
    unfold handle_read_header. rewrite Hc. cl_simpl.
    destruct error; cbn [negb andb].
    + assert (∀ x : list io_op,
        (let '(_, _) := Message.decode_header
                          (Message.fill_header bytes (read_msg_ (client w))) in x) = x)
        as Hx by (intros x; by destruct (Message.decode_header _)).
      rewrite Hx, !app_nil_r. cl_simpl.
      split_and!; [by rewrite <-Hr1|done|done|done|by intros ? [= <-]].
    + destruct (Message.decode_header _) as [ok m] eqn:Hm. cbn [snd].
      destruct ok; cl_simpl.
      * rewrite app_nil_r, Hco. split_and!; [|done|done|by eauto|by intros ? [= <-]].
        change (reads (issue (OpReadBody (Message.body_length_ m))
                  (set_client (set_read_msg m (client w)) w1))
                = [OpReadBody (Message.body_length_ m)]).
        rewrite reads_issue. cbn [is_write]. rewrite (reads_same w1) by done.
        by rewrite Hr1.
      * rewrite !app_nil_r, Hco.
        split_and!; [by rewrite <-Hr1|done|done|done|by intros ? [= <-]].
  - destruct (take_op _ w) as [w1|] eqn:Htake; [|done]. cbn. intros [= <-].
    destruct (take_read (OpReadBody n) _ _ Hrd eq_refl Htake)
      as (Hr1 & Hin & _ & Hc & Hco).
    unfold handle_read_body. rewrite Hc. destruct error; cbn [negb]; cl_simpl.
    + rewrite !app_nil_r, Hco.
      split_and!; [by rewrite <-Hr1|done|done|by eauto|by intros ? [= <-]].
    + rewrite Hco, <-app_assoc. split_and!; [|done|done|by eauto|by intros ? [= <-]].
      rewrite reads_issue. cbn [is_write]. rewrite (reads_same w1) by done.
      by rewrite Hr1.
  - destruct (take_op _ w) as [w1|] eqn:Htake; [|done]. cbn. intros [= <-].
    destruct (client_take_op_fields _ _ _ Htake) as (Hin & Hp & Hc & _ & _ & Hco).
    rewrite !app_nil_r, reads_handle_write.
    assert (reads (if error then w1 else set_wire (wire w1 ++ [bytes]) w1) = reads w) as ->.
    { rewrite (reads_same w1) by (by destruct error).
      unfold reads. rewrite Hp. by apply filter_remove_first_ne. }
    destruct (handle_write_fields error
                (if error then w1 else set_wire (wire w1 ++ [bytes]) w1)) as (Hs & -> & ->).
    split_and!.
    + done.
    + by destruct error; cl_simpl; rewrite Hc.
    + by destruct error; cl_simpl; rewrite Hco.
    + intros Hopen. apply Hs in Hopen. by destruct error; cl_simpl; rewrite <-Hc.
    + by intros ? [= <-].
Qed.

Lemma client_length_read_msg_after e m :
  length (Message.data_ (read_msg_after e m)) = length (Message.data_ m).
Proof.
  destruct e as [| | | |error bytes|n error bytes|]; cbn [read_msg_after]; try done.
  - destruct error.
    + apply BufferFacts.length_fill_header.
    + by rewrite BufferFacts.data_decode_header, BufferFacts.length_fill_header.
  - apply BufferFacts.length_fill_body.
Qed.

(** *** The invariant of the read loop *)

Lemma read_inv_new : read_inv new.
Proof.
  split.
  - unfold reads. cbn [new pending]. rewrite filter_cons_True by done. cbn. lia.
  - intros n Hop. cbn [new pending] in Hop. by apply list_elem_of_singleton in Hop.
  - apply BufferFacts.length_new_message.
  - done.
Qed.

Lemma client_read_inv_step e w w' : read_inv w → step e w = Some w' → read_inv w'.
Proof.
  intros Hrd Hstep.
  destruct (step_reads _ _ _ Hrd Hstep) as (Hreads & Hmsg & Hcout & Hsock & Hin).
  split.
  - rewrite Hreads. pose proof (rd_one _ Hrd) as Hone.
    destruct e as [msg| |i|error|error bytes|m error bytes|bytes error];
      cbn [event_op is_write reads_issued]; rewrite ?app_nil_r; try done.
    + destruct error; cbn; lia.
    + destruct (Message.decode_header _) as [ok m0].
      destruct (negb error && ok); cbn; lia.
    + destruct error; cbn; lia.
  - intros n Hop.
    assert (OpReadBody n ∈ reads w') as Hop' by (by apply elem_of_reads).
    clear Hop. revert Hop'. rewrite Hreads, Hmsg.
    destruct e as [msg| |i|error|error bytes|m error bytes|bytes error];
      cbn [event_op reads_issued is_write read_msg_after] in *;
      rewrite ?app_nil_r.
    + intros [Hop _]%elem_of_reads. by apply Hrd.
    + intros [Hop _]%elem_of_reads. by apply Hrd.
    + intros [Hop _]%elem_of_reads. by apply Hrd.
    + destruct error; cbn; [by intros ?%elem_of_nil|].
      by intros ?%list_elem_of_singleton.
    + destruct (Message.decode_header _) as [ok m] eqn:Hm.
      destruct error; cbn [negb andb app]; [by intros ?%elem_of_nil|].
      destruct ok; [|by intros ?%elem_of_nil].
      intros [= ->]%list_elem_of_singleton. cbn [snd]. split; [done|].
      by apply BufferFacts.decode_header_true in Hm as (_ & _ & ?).
    + destruct error; cbn; [by intros ?%elem_of_nil|].
      by intros ?%list_elem_of_singleton.
    + intros [Hop _]%elem_of_reads. by apply Hrd.
  - rewrite Hmsg, client_length_read_msg_after. apply Hrd.
  - intros Hop.
    assert (OpConnect ∈ reads w') as Hop' by (by apply elem_of_reads).
    rewrite Hreads in Hop'.
    assert (OpConnect ∈ reads w ∧ printed e w = []) as (Hc & Hpr).
    { destruct e as [msg| |i|error|error bytes|m error bytes|bytes error];
        cbn [event_op reads_issued is_write printed] in *;
        rewrite ?app_nil_r in Hop'; try done.
      - destruct error; cbn in Hop'; [by apply elem_of_nil in Hop'|].
        by apply list_elem_of_singleton in Hop'.
      - destruct (Message.decode_header _) as [ok m].
        destruct (negb error && ok); cbn in Hop'; [|by apply elem_of_nil in Hop'].
        by apply list_elem_of_singleton in Hop'.
      - destruct error; cbn in Hop'; [by apply elem_of_nil in Hop'|].
        by apply list_elem_of_singleton in Hop'. }
    apply elem_of_reads in Hc as [Hc _].
    by rewrite Hcout, (rd_connect _ Hrd Hc), Hpr.
Qed.

Lemma client_reachable_read_inv w : reachable w → read_inv w.
Proof. induction 1; [apply read_inv_new|by eapply client_read_inv_step]. Qed.

(** X11. In the client the connect or at most one read is in flight;
    until the connect completes no read was started and nothing was
    printed; and a body is read with the length that was decoded from
    its header, which is at most [max_body_length] and fits the buffer
    behind the header. *)
Theorem client_read_loop w :
  reachable w →
  length (reads w) ≤ 1 ∧
  (OpConnect ∈ pending w → reads w = [OpConnect] ∧ cout w = []) ∧
  (∀ n, OpReadBody n ∈ pending w →
        Message.body_length_ (read_msg_ (client w)) = n ∧ n ≤ max_body_length ∧
        header_length + n ≤ length (Message.data_ (read_msg_ (client w)))).
Proof.
  intros Hrd%client_reachable_read_inv. split_and!.
  - apply Hrd.
  - intros Hop. split; [|by apply Hrd].
    apply length_le_1_elem; [apply Hrd|]. by apply elem_of_reads.
  - intros n Hop. destruct (rd_body _ Hrd _ Hop) as [Hlen Hmax].
    split_and!; [done|done|]. rewrite (rd_buffer _ Hrd). lia.
Qed.

(** *** What the client prints *)

(** What the client prints for a header and a body read in full. *)
Lemma print_frame w hdr body w1 w2 :
  read_inv w →
  length hdr = header_length → Codec.decode_header hdr = Some (length body) →
  step (ReadHeaderDone false hdr) w = Some w1 →
  step (ReadBodyDone (length body) false body) w1 = Some w2 →
  cout w2 = cout w ++ [body; [newline]] ∧
  reads w1 = [OpReadBody (length body)] ∧ reads w2 = [OpReadHeader].
Proof.
  intros Hrd Hh Hdec Hstep1 Hstep2.
  pose proof (client_read_inv_step _ _ _ Hrd Hstep1) as Hrd1.
  destruct (step_reads _ _ _ Hrd Hstep1) as (Hreads1 & Hmsg1 & Hcout1 & _ & _).
  destruct (step_reads _ _ _ Hrd1 Hstep2) as (Hreads2 & Hmsg2 & Hcout2 & _ & _).
  cbn [event_op is_write reads_issued read_msg_after printed app] in *.
  pose proof (rd_buffer _ Hrd) as Hbuf.
  assert (Message.decode_header (Message.fill_header hdr (read_msg_ (client w)))
          = (true, Message.set_body_length (length body)
                     (Message.fill_header hdr (read_msg_ (client w))))) as Hm.
  { unfold Message.decode_header.
    by rewrite BufferFacts.decode_fill_header, Hdec by lia. }
  rewrite Hm in Hreads1, Hmsg1. cbn [negb andb snd Message.body_length_
    Message.set_body_length] in Hreads1, Hmsg1.
  pose proof (proj2 (proj1 (CodecFacts.decode_header_Some _ _) Hdec)) as Hmax.
  destruct (BufferFacts.frame_received hdr body (read_msg_ (client w)) (length body)
              Hbuf Hh eq_refl Hmax) as (_ & _ & Hbody).
  cbn zeta in Hbody.
  split_and!; [|done|done].
  rewrite Hcout2, Hcout1, app_nil_r, Hmsg1. do 2 f_equal. exact Hbody.
Qed.

(** X12. When a header of [header_length] bytes that announces [n] bytes and
    then a body of [n] bytes have been read, the client prints exactly
    that body and a newline, goes on with the read of the next header,
    and leaves its socket and its queue of messages to write alone. *)
Theorem client_prints_received_body w hdr body n w1 w2 :
  reachable w →
  length hdr = header_length → Codec.decode_header hdr = Some n → length body = n →
  step (ReadHeaderDone false hdr) w = Some w1 →
  step (ReadBodyDone n false body) w1 = Some w2 →
  cout w2 = cout w ++ [body; [newline]] ∧
  reads w1 = [OpReadBody n] ∧ reads w2 = [OpReadHeader] ∧
  socket_ (client w2) = socket_ (client w) ∧
  write_msgs_ (client w2) = write_msgs_ (client w).
Proof.
  intros Hreach Hh Hdec Hb Hstep1 Hstep2. subst n.
  pose proof (client_reachable_read_inv _ Hreach) as Hrd.
  destruct (print_frame _ _ _ _ _ Hrd Hh Hdec Hstep1 Hstep2) as (Hc & Hr1 & Hr2).
  assert (Message.decode_header (Message.fill_header hdr (read_msg_ (client w)))
          = (true, Message.set_body_length (length body)
                     (Message.fill_header hdr (read_msg_ (client w))))) as Hm.
  { unfold Message.decode_header.
    rewrite BufferFacts.decode_fill_header, Hdec; [done|done|].
    rewrite (rd_buffer _ Hrd). lia. }
  split_and!; try done.
  - unfold step in Hstep1, Hstep2.
    destruct (take_op OpReadHeader w) as [w0|] eqn:Ht1; [|done].
    destruct (take_op (OpReadBody (length body)) w1) as [w0'|] eqn:Ht2; [|done].
    cbn in Hstep1, Hstep2. injection Hstep1 as Hw1. injection Hstep2 as Hw2.
    destruct (client_take_op_fields _ _ _ Ht1) as (_ & _ & Hc1 & _).
    destruct (client_take_op_fields _ _ _ Ht2) as (_ & _ & Hc2 & _).
    rewrite <-Hw2. unfold handle_read_body. cbn [negb]. cl_simpl. rewrite Hc2.
    rewrite <-Hw1. unfold handle_read_header. cl_simpl. rewrite Hc1, Hm. by cl_simpl.
  - unfold step in Hstep1, Hstep2.
    destruct (take_op OpReadHeader w) as [w0|] eqn:Ht1; [|done].
    destruct (take_op (OpReadBody (length body)) w1) as [w0'|] eqn:Ht2; [|done].
    cbn in Hstep1, Hstep2. injection Hstep1 as Hw1. injection Hstep2 as Hw2.
    destruct (client_take_op_fields _ _ _ Ht1) as (_ & _ & Hc1 & _).
    destruct (client_take_op_fields _ _ _ Ht2) as (_ & _ & Hc2 & _).
    rewrite <-Hw2. unfold handle_read_body. cbn [negb]. cl_simpl. rewrite Hc2.
    rewrite <-Hw1. unfold handle_read_header. cl_simpl. rewrite Hc1, Hm. by cl_simpl.
Qed.

(** *** A read that fails *)





End WithConfig.
End ClientReadFacts.

(** ** Lines of the console and their messages *)
Module ConsoleLineFacts.
Import Client ConsoleFacts.

#[local] Set Warnings "-clear-no-such-hyp".

(** *** [strlen] *)

Lemma strlen_app l k : Message.nul ∉ l → strlen (l ++ k) = length l + strlen k.
Proof.
  induction l as [|c l IH]; intros Hl; [done|]. cbn [app strlen length].
  rewrite decide_False by set_solver. rewrite IH by set_solver. done.
Qed.

Lemma strlen_nul k : strlen (Message.nul :: k) = 0.
Proof. cbn. by rewrite decide_True. Qed.

Lemma strlen_terminated l : strlen (l ++ [Message.nul]) = strlen l.
Proof.
  induction l as [|c l IH]; cbn [app strlen]; [by rewrite decide_True|].
  case_decide; [done|]. by rewrite IH.
Qed.

Lemma take_strlen_terminated l :
  take (strlen l) (l ++ [Message.nul]) = take (strlen l) l.
Proof. apply take_app_le, strlen_le. Qed.

Section WithConfig.
Context `{cfg : FrameConfig}.

(** *** [getline] *)

Lemma getline_aux_line l : ∀ room rest stored,
  newline ∉ l → length l ≤ room →
  getline_aux room (l ++ newline :: rest) stored = (stored ++ l, rest, false).
Proof.
  induction l as [|c l IH]; intros room rest stored Hl Hroom; cbn [app getline_aux].
  - rewrite decide_True by done. by rewrite app_nil_r.
  - rewrite decide_False by set_solver. cbn [length] in Hroom.
    destruct room as [|room]; [lia|].
    rewrite IH by (set_solver || lia). by rewrite <-app_assoc.
Qed.

Lemma getline_aux_eof l : ∀ room stored,
  newline ∉ l → length l ≤ room →
  getline_aux room l stored = (stored ++ l, [], false).
Proof.
  induction l as [|c l IH]; intros room stored Hl Hroom; cbn [getline_aux].
  - by rewrite app_nil_r.
  - rewrite decide_False by set_solver. cbn [length] in Hroom.
    destruct room as [|room]; [lia|].
    rewrite IH by (set_solver || lia). by rewrite <-app_assoc.
Qed.

Lemma getline_aux_long l : ∀ room rest stored,
  newline ∉ l → room < length l →
  ∃ s r, getline_aux room (l ++ rest) stored = (s, r, true).
Proof.
  induction l as [|c l IH]; intros room rest stored Hl Hroom; cbn [length] in Hroom; [lia|].
  cbn [app getline_aux]. rewrite decide_False by set_solver.
  destruct room as [|room]; [by eauto|].
  apply IH; [set_solver|lia].
Qed.

(** A line that fits the buffer is delivered whole, the newline is
    consumed and not stored. *)
Lemma getline_line n l rest :
  newline ∉ l → length l ≤ n - 1 →
  getline n (l ++ newline :: rest) = (l ++ [Message.nul], rest, false).
Proof.
  intros Hl Hlen. unfold getline.
  destruct (l ++ newline :: rest) as [|c k] eqn:Heq; [by destruct l|].
  rewrite <-Heq. by rewrite getline_aux_line.
Qed.

(** The characters before the end of the input are a line too. *)
Lemma getline_last n l :
  l ≠ [] → newline ∉ l → length l ≤ n - 1 →
  getline n l = (l ++ [Message.nul], [], false).
Proof.
  intros Hne Hl Hlen. unfold getline. destruct l as [|c k] eqn:Heq; [done|].
  rewrite <-Heq in *. by rewrite getline_aux_eof.
Qed.

(** A line that does not fit the buffer sets [failbit]. *)
Lemma getline_long n l rest :
  newline ∉ l → n - 1 < length l →
  ∃ s r, getline n (l ++ rest) = (s, r, true).
Proof.
  intros Hl Hlen. unfold getline.
  destruct (l ++ rest) as [|c k] eqn:Heq; [by eauto|].
  rewrite <-Heq. destruct (getline_aux_long l (n - 1) rest [] Hl Hlen) as (s & r & ->).
  by eauto.
Qed.

(** *** The loop *)

Lemma console_loop_mono fuel : ∀ fuel' input msgs,
  console_loop fuel input = Some msgs → fuel ≤ fuel' →
  console_loop fuel' input = Some msgs.
Proof.
  induction fuel as [|fuel IH]; intros fuel' input msgs; [done|].
  destruct fuel' as [|fuel']; [lia|]. cbn [console_loop].
  destruct (getline _ _) as [[line rest] fail]. destruct fail; [done|].
  destruct (console_loop fuel rest) as [msgs'|] eqn:Hloop; [|done].
  intros [= <-] Hle. by rewrite (IH fuel' rest msgs' Hloop ltac:(lia)).
Qed.

Lemma line_input_cons l ls :
  line_input (l :: ls) = l ++ newline :: line_input ls.
Proof. unfold line_input. cbn. by rewrite <-app_assoc. Qed.

Lemma length_line_input ls : length ls ≤ length (line_input ls).
Proof.
  induction ls as [|l ls IH]; [done|].
  rewrite line_input_cons, length_app. cbn. lia.
Qed.

Lemma console_loop_lines ls : ∀ fuel tail msgs,
  Forall (λ l, (newline ∉ l) ∧ length l ≤ max_body_length) ls →
  console_loop fuel tail = Some msgs →
  console_loop (length ls + fuel) (line_input ls ++ tail) =
    Some ((message_of <$> ls) ++ msgs).
Proof.
  induction ls as [|l ls IH]; intros fuel tail msgs Hls Hloop; [done|].
  apply Forall_cons in Hls as [[Hl Hlen] Hls].
  rewrite line_input_cons, <-app_assoc. cbn [length Nat.add console_loop app].
  rewrite getline_line by (done || lia).
  by rewrite (IH _ _ _ Hls Hloop).
Qed.

Lemma main_posts_loop fuel input msgs :
  console_loop fuel input = Some msgs → fuel ≤ S (length input) →
  main_posts input = Some ((DoWrite <$> msgs) ++ [DoClose]).
Proof.
  intros Hloop Hle. unfold main_posts.
  by rewrite (console_loop_mono _ _ _ _ Hloop Hle).
Qed.

(** X14. The client posts one write for each line of its input, in order,
    with the message built from exactly that line, an empty line
    included and a last line without a newline too, and then the
    close. *)
Theorem console_sends_each_line ls last :
  Forall (λ l, (newline ∉ l) ∧ length l ≤ max_body_length) ls →
  newline ∉ last → length last ≤ max_body_length →
  main_posts (line_input ls ++ last) =
    Some ((DoWrite <$> ((message_of <$> ls) ++
                        (if decide (last = []) then [] else [message_of last])))
          ++ [DoClose]).
Proof.
  intros Hls Hlast Hlen.
  assert (∃ fuel, console_loop fuel last =
                    Some (if decide (last = []) then [] else [message_of last]) ∧
                  fuel ≤ S (length last)) as (fuel & Hloop & Hfuel).
  { destruct (decide (last = [])) as [->|Hne].
    - exists 1. done.
    - exists 2. split.
      + cbn [console_loop]. rewrite getline_last by (done || lia). done.
      + destruct last; [done|cbn; lia]. }
  eapply main_posts_loop; [by apply console_loop_lines|].
  rewrite length_app. pose proof (length_line_input ls). lia.
Qed.

(** X15. A line longer than [max_body_length] ends the loop: the lines
    before it are sent, the long line and all that follows it never
    are, and the client closes. *)
Theorem console_stops_at_long_line ls long rest :
  Forall (λ l, (newline ∉ l) ∧ length l ≤ max_body_length) ls →
  newline ∉ long → max_body_length < length long →
  main_posts (line_input ls ++ long ++ rest) =
    Some ((DoWrite <$> (message_of <$> ls)) ++ [DoClose]).
Proof.
  intros Hls Hlong Hlen.
  assert (console_loop 1 (long ++ rest) = Some []) as Hloop.
  { cbn [console_loop].
    destruct (getline_long (max_body_length + 1) long rest Hlong ltac:(lia))
      as (s & r & ->). done. }
  pose proof (console_loop_lines ls _ _ _ Hls Hloop) as Hall.
  rewrite app_nil_r in Hall.
  eapply main_posts_loop; [exact Hall|].
  rewrite length_app. pose proof (length_line_input ls). lia.
Qed.

(** *** The message of a line *)

Lemma length_encode_header b : length (Codec.encode_header b) = header_length.
Proof.
  unfold Codec.encode_header. rewrite length_take, length_app, length_replicate. lia.
Qed.

Lemma message_of_frame l :
  strlen l ≤ max_body_length →
  Message.body_length_ (message_of l) = strlen l ∧
  Message.str (message_of l) = take (strlen l) l ∧
  Message.frame (message_of l) = Codec.encode_header (strlen l) ++ take (strlen l) l.
Proof.
  intros Hmax. pose proof (strlen_le l) as Hle.
  set (n := strlen l) in *. set (b := take n l).
  assert (length b = n) as Hb by (unfold b; rewrite length_take; lia).
  assert (Message.data_ (message_of l) =
          Codec.encode_header n ++ b ++
          replicate (max_body_length - n) Message.nul) as Hdata.
  { unfold message_of, message_of_line.
    cbn [Message.encode_header Message.copy_body Message.set_body_length
         Message.data_ Message.body_length_ Message.new_message].
    rewrite strlen_terminated. fold n. rewrite (take_app_le l) by lia. fold b.
    unfold Message.store.
    rewrite take_0, app_nil_l, Nat.add_0_l, Nat.sub_0_r.
    rewrite !length_app, !length_take, !length_drop, !length_replicate.
    rewrite (take_ge (Codec.encode_header n)) by (rewrite length_encode_header; lia).
    f_equal. rewrite length_encode_header, Hb.
    rewrite take_replicate, drop_replicate.
    rewrite drop_app_length'
      by (rewrite length_replicate; lia).
    rewrite (take_ge b) by lia. f_equal. f_equal. lia. }
  assert (Message.body_length_ (message_of l) = n) as Hlen.
  { unfold message_of, message_of_line. cbn. apply strlen_terminated. }
  split_and!.
  - done.
  - unfold Message.str, Message.body. rewrite Hlen, Hdata.
    rewrite drop_app_length' by (by rewrite length_encode_header).
    by rewrite take_app_length' by done.
  - unfold Message.frame, Message.length. rewrite Hlen, Hdata.
    rewrite app_assoc. rewrite take_app_length'; [done|].
    rewrite length_app, length_encode_header. lia.
Qed.

Lemma strlen_no_nul l : Message.nul ∉ l → strlen l = length l.
Proof.
  intros Hnul. pose proof (strlen_app l [] Hnul) as Hs.
  rewrite app_nil_r in Hs. rewrite Hs. cbn. lia.
Qed.

(** X16. The message built from a line holds the characters of the line up
    to its first NUL, all of them if there is none, and its frame is
    the header of that length followed by those characters. *)
Theorem console_line_frame l :
  strlen l ≤ max_body_length →
  Message.body_length_ (message_of l) = strlen l ∧
  Message.str (message_of l) = take (strlen l) l ∧
  Message.frame (message_of l) = Codec.encode_header (strlen l) ++ take (strlen l) l ∧
  (Message.nul ∉ l → take (strlen l) l = l) ∧
  (∀ l1 l2, l = l1 ++ Message.nul :: l2 → Message.nul ∉ l1 → take (strlen l) l = l1).
Proof.
  intros Hmax. destruct (message_of_frame l Hmax) as (Hlen & Hstr & Hframe).
  split_and!; [done|done|done| |].
  - intros Hnul. rewrite (strlen_no_nul _ Hnul). apply firstn_all.
  - intros l1 l2 -> Hnul.
    rewrite (strlen_app l1 _ Hnul), strlen_nul, Nat.add_0_r.
    by rewrite take_app_length.
Qed.

End WithConfig.
End ConsoleLineFacts.

(** ** A room without participants *)
Module RoomCallFacts.
Import Server ServerFacts ReactorFacts.

#[local] Set Warnings "-clear-no-such-hyp".

Section WithConfig.
Context `{cfg : FrameConfig}.

Lemma in_order_empty : in_order ∅ = [].
Proof.
  apply elem_of_nil_inv. intros p Hp%elem_of_in_order. set_solver.
Qed.

(** X10. A message delivered while the room has no participant is enqueued
    to nobody and starts no write, but it enters the history, and the
    next session that joins gets it replayed behind the older ones. *)
Theorem deliver_to_empty_room r msg w :
  r < length (servers w) → participants_ (room r w) = ∅ →
  heap (ChatRoom.deliver r msg w) = heap w ∧
  pending (ChatRoom.deliver r msg w) = pending w ∧
  wire (ChatRoom.deliver r msg w) = wire w ∧
  recent_msgs_ (room r (ChatRoom.deliver r msg w)) =
    ChatRoom.pop_excess (recent_msgs_ (room r w) ++ [msg]) ∧
  ∀ p s, heap w !! p = Some s →
         queue p (ChatRoom.join r p (ChatRoom.deliver r msg w)) =
         write_msgs_ s ++ ChatRoom.pop_excess (recent_msgs_ (room r w) ++ [msg]).
Proof.
  intros Hr Hempty.
  assert (heap (ChatRoom.deliver r msg w) = heap w) as Hh.
  { apply map_eq. intros q. rewrite room_deliver_heap, Hempty.
    by rewrite decide_False by set_solver. }
  assert (recent_msgs_ (room r (ChatRoom.deliver r msg w)) =
          ChatRoom.pop_excess (recent_msgs_ (room r w) ++ [msg])) as Hrec.
  { rewrite room_deliver. by rewrite decide_True. }
  split_and!.
  - done.
  - rewrite room_deliver_pending, Hempty, in_order_empty. cbn. by rewrite app_nil_r.
  - apply room_deliver_fields.
  - done.
  - intros p s Hs.
    destruct (join_replay r p s (ChatRoom.deliver r msg w)) as (_ & _ & Hq & _).
    + by rewrite (proj1 (room_deliver_fields r msg w)).
    + by rewrite Hh.
    + by rewrite Hq, Hrec.
Qed.

End WithConfig.
End RoomCallFacts.

(** ** From one console to the others *)
Module EndToEnd.

#[local] Set Warnings "-clear-no-such-hyp".

Section WithConfig.
Context `{cfg : FrameConfig}.

(** X17. A line typed at one client is printed by the others as it was
    typed.  The frame the client writes for a line without NUL is the
    header of its length followed by the line; once the server has read
    that header and that body from the connection, every participant of
    the room has one more message in its queue, with that same frame;
    and a client that reads that header and that body prints the line
    and a newline.  The constants are such that the decimal text of
    [max_body_length] fits the header. *)
Theorem line_reaches_other_clients ports w p s c l w1 w2 c1 c2 :
  0 < header_length → max_body_length < 10 ^ header_length →
  Message.nul ∉ l → length l ≤ max_body_length →
  Server.reachable ports w → Server.heap w !! p = Some s →
  Server.step (Server.ReadHeaderDone p false (Codec.encode_header (length l))) w
    = Some w1 →
  Server.step (Server.ReadBodyDone p (length l) false l) w1 = Some w2 →
  Client.reachable c →
  Client.step (Client.ReadHeaderDone false (Codec.encode_header (length l))) c
    = Some c1 →
  Client.step (Client.ReadBodyDone (length l) false l) c1 = Some c2 →
  Message.frame (Client.message_of l) = Codec.encode_header (length l) ++ l ∧
  (∀ q, q ∈ Server.participants_ (Server.room (Server.room_ s) w1) →
        ∃ m, Server.queue q w2 = Server.queue q w1 ++ [m] ∧
             Message.frame m = Message.frame (Client.message_of l)) ∧
  Client.cout c2 = Client.cout c ++ [l; [Client.newline]].
Proof.
  intros Hpos Hfit Hnul Hlen Hreach Hs Hstep1 Hstep2 Hc Hcstep1 Hcstep2.
  pose proof (ConsoleLineFacts.strlen_no_nul l Hnul) as Hstr.
  destruct (ConsoleLineFacts.message_of_frame l ltac:(lia)) as (_ & _ & Hframe).
  rewrite Hstr, firstn_all in Hframe.
  pose proof (ConsoleLineFacts.length_encode_header (length l)) as Hh.
  pose proof (CodecFacts.decode_encode_header (length l) Hpos Hfit Hlen) as Hdec.
  split_and!.
  - done.
  - intros q Hq. rewrite Hframe.
    by apply (ReadLoopFacts.relay_frame ports w p s _ _ w1 w2).
  - by destruct (ClientReadFacts.print_frame c _ l c1 c2
                   (ClientReadFacts.client_reachable_read_inv _ Hc) Hh Hdec Hcstep1 Hcstep2).
Qed.

End WithConfig.
End EndToEnd.

(** ** Concrete runs of the server *)
Module ScenarioFacts.
Import Server Examples.
Import ServerFacts ReactorFacts EffectFacts SessionFacts QueueFacts ExampleFacts.
Import AcceptFacts ReadLoopFacts LifetimeFacts LogFacts.
#[local] Existing Instance example_config.

Lemma two_ports_reachable : reachable [4000; 4001] two_ports.
Proof.
  apply (reachable_run _ [AcceptDone 0 0 false; AcceptDone 1 1 false] (boot [4000; 4001]));
    [apply reachable_boot|]. vm_compute. reflexivity.
Qed.

Lemma two_ports_header_step : step hi_header two_ports = Some two_ports_header.
Proof. vm_compute. reflexivity. Qed.

Lemma two_ports_hi_step : step hi_body two_ports_header = Some two_ports_hi.
Proof. vm_compute. reflexivity. Qed.

Lemma two_ports_header_reachable : reachable [4000; 4001] two_ports_header.
Proof.
  apply (reachable_step _ two_ports hi_header two_ports_header);
    [apply two_ports_reachable|apply two_ports_header_step].
Qed.

Lemma accept_always_pending_witness :
  accepts 0 after_chatter = [OpAccept 0 1] ∧ accepts 1 after_chatter = [].
Proof.
  destruct (accept_always_pending [4000] after_chatter 0 after_chatter_reachable)
    as [Hsome _].
  destruct (accept_always_pending [4000] after_chatter 1 after_chatter_reachable)
    as [_ Hnone].
  split; [|apply Hnone; simpl; lia].
  destruct Hsome as (p & s & Hacc & _); [simpl; lia|].
  rewrite Hacc. vm_compute in Hacc. injection Hacc as <-. reflexivity.
Defined.

Lemma failed_accept_is_dropped_witness :
  step failed_accept (boot [4000]) = Some after_failed_accept ∧
  ¬ socket_open 0 after_failed_accept ∧
  pending after_failed_accept = [OpAccept 0 1] ∧
  participants_ (room 0 after_failed_accept) = ∅.
Proof.
  assert (step failed_accept (boot [4000]) = Some after_failed_accept) as H1
    by (vm_compute; reflexivity).
  destruct (failed_accept_is_dropped [4000] (boot [4000]) 0 0 after_failed_accept
              (reachable_boot [4000]) H1) as (Hroom & Hclosed & _ & _ & Hp & _).
  split_and!; [done|done| |].
  - rewrite Hp. vm_compute. reflexivity.
  - rewrite Hroom. reflexivity.
Defined.

Lemma read_loop_witness :
  reading 0 after_chatter = [OpReadHeader 0] ∧
  ∀ n, OpReadBody 0 n ∈ pending two_ports_header → n ≤ 512.
Proof.
  destruct (read_loop [4000] after_chatter 0 after_chatter_reachable) as (_ & Hmem & _).
  destruct (read_loop [4000; 4001] two_ports_header 0 two_ports_header_reachable)
    as (_ & _ & Hbody).
  split.
  - destruct (Hmem 0) as [Hr|[n Hr]].
    + apply (bool_decide_unpack _). vm_compute. exact I.
    + done.
    + vm_compute in Hr. discriminate.
  - intros n Hop. by destruct (Hbody n Hop) as (s & _ & _ & Hmax & _).
Defined.

Lemma relays_received_bytes_witness :
  cout two_ports_hi = [text "[hi]"] ∧
  ∃ m, queue 0 two_ports_hi = queue 0 two_ports_header ++ [m] ∧
       Message.frame m = frame_of "hi".
Proof.
  destruct (relays_received_bytes [4000; 4001] two_ports 0 (fresh 0)
              (Codec.encode_header 2) (text "hi") 2 two_ports_header two_ports_hi)
    as (Hq & Hc & _).
  - apply two_ports_reachable.
  - vm_compute. reflexivity.
  - vm_compute. reflexivity.
  - vm_compute. reflexivity.
  - reflexivity.
  - apply two_ports_header_step.
  - apply two_ports_hi_step.
  - split.
    + rewrite Hc. vm_compute. reflexivity.
    + apply (Hq 0). apply (bool_decide_unpack _). vm_compute. exact I.
Defined.

Lemma write_failure_mutes_witness :
  muted 0 after_write_failure ∧
  reading 0 after_write_failure = [OpReadHeader 0] ∧
  sent 0 after_muted_says = [] ∧
  queue 0 after_muted_says = queue 0 after_chatter.
Proof.
  assert (step write_failure after_chatter = Some after_write_failure) as H1
    by (vm_compute; reflexivity).
  assert (run muted_says after_write_failure = Some after_muted_says) as H2
    by (vm_compute; reflexivity).
  destruct (write_failure_mutes [4000] after_chatter 0 (frame_of "hello")
              after_write_failure after_chatter_reachable H1)
    as (Hm & Hread & Hrun & _).
  destruct (Hrun _ _ H2) as (_ & Hsent & Hq).
  split_and!.
  - done.
  - rewrite Hread. vm_compute. reflexivity.
  - rewrite Hsent. vm_compute. reflexivity.
  - apply Hq. vm_compute. eexists. reflexivity.
Defined.

Lemma broadcast_stays_in_room_witness :
  room 1 two_ports_hi = room 1 two_ports_header ∧
  heap two_ports_hi !! 1 = heap two_ports_header !! 1 ∧
  queue 1 two_ports_hi = [] ∧
  wire two_ports_hi = [].
Proof.
  destruct (broadcast_stays_in_room [4000; 4001] two_ports_header 0
              (set_read_msg (Message.set_body_length 2
                 (Message.fill_header (Codec.encode_header 2) Message.new_message))
                 (fresh 0))
              2 (text "hi") two_ports_hi)
    as (Hroom & Hother & _ & Hwire).
  - apply two_ports_header_reachable.
  - vm_compute. reflexivity.
  - apply two_ports_hi_step.
  - destruct (Hother 1) as (Hh & _); [done| |].
    + apply (bool_decide_unpack _). vm_compute. exact I.
    + split_and!.
      * by apply Hroom.
      * done.
      * unfold queue. rewrite Hh. vm_compute. reflexivity.
      * rewrite Hwire. vm_compute. reflexivity.
Defined.

Lemma log_records_deliveries_witness :
  length (cout after_chatter) = 2 ∧ Forall bracketed (cout after_chatter).
Proof.
  destruct (log_records_deliveries [4000] chatter after_chatter chatter_runs)
    as (Hlen & Hall & _).
  split; [|done]. rewrite Hlen. vm_compute. reflexivity.
Defined.

Lemma deliver_to_empty_room_witness :
  pending (ChatRoom.deliver 0 hi after_write_failure) = pending after_write_failure ∧
  Message.str <$> queue 1 (ChatRoom.join 0 1 (ChatRoom.deliver 0 hi after_write_failure))
    = [text "hello"; text "world"; text "hi"].
Proof.
  destruct (RoomCallFacts.deliver_to_empty_room 0 hi after_write_failure)
    as (_ & Hp & _ & _ & Hq).
  - vm_compute. lia.
  - vm_compute. reflexivity.
  - split; [done|]. rewrite (Hq 1 (fresh 0)); [|vm_compute; reflexivity].
    vm_compute. reflexivity.
Defined.


End ScenarioFacts.

(** ** Concrete runs of the client *)
Module ClientScenarioFacts.
Import Client Examples.
Import ClientFacts ClientReadFacts ConsoleLineFacts ExampleFacts.
#[local] Existing Instance example_config.

Lemma client_read_loop_witness :
  reads new = [OpConnect] ∧
  reads (client_writing hi) = [OpReadHeader] ∧
  ∀ n, OpReadBody n ∈ pending client_header → n ≤ 512.
Proof.
  assert (reachable client_header) as Hreach.
  { apply (reachable_step (client_writing hi)
             (ReadHeaderDone false (Codec.encode_header 2)) client_header);
      [apply client_writing_reachable|]. vm_compute. reflexivity. }
  destruct (client_read_loop new reachable_new) as (_ & Hconn & _).
  destruct (client_read_loop client_header Hreach) as (_ & _ & Hbody).
  split_and!.
  - apply Hconn. apply (bool_decide_unpack _). vm_compute. exact I.
  - vm_compute. reflexivity.
  - intros n Hop. by destruct (Hbody n Hop) as (_ & ? & _).
Defined.

Lemma client_prints_received_body_witness :
  cout client_heard = [Examples.text "hi"; [newline]] ∧
  reads client_heard = [OpReadHeader].
Proof.
  destruct (client_prints_received_body (client_writing hi) (Codec.encode_header 2)
              (Examples.text "hi") 2 client_header client_heard)
    as (Hc & _ & Hr & _).
  - apply client_writing_reachable.
  - vm_compute. reflexivity.
  - vm_compute. reflexivity.
  - reflexivity.
  - vm_compute. reflexivity.
  - vm_compute. reflexivity.
  - split; [|done]. rewrite Hc. vm_compute. reflexivity.
Defined.


Lemma console_sends_each_line_witness :
  main_posts two_lines =
    Some [DoWrite (message_of (Examples.text "hi"));
          DoWrite (message_of (Examples.text "you")); DoClose].
Proof.
  pose proof (console_sends_each_line [Examples.text "hi"] (Examples.text "you")) as H.
  apply H.
  - apply Forall_singleton. split; [|simpl; lia].
    apply (bool_decide_unpack _). vm_compute. exact I.
  - apply (bool_decide_unpack _). vm_compute. exact I.
  - simpl. lia.
Defined.

Lemma console_stops_at_long_line_witness :
  main_posts (line_input [Examples.text "hi"] ++ long_line ++ [newline] ++ Examples.text "you") =
    Some [DoWrite (message_of (Examples.text "hi")); DoClose].
Proof.
  apply (console_stops_at_long_line [Examples.text "hi"] long_line
           ([newline] ++ Examples.text "you")).
  - apply Forall_singleton. split; [|simpl; lia].
    apply (bool_decide_unpack _). vm_compute. exact I.
  - unfold long_line. intros [Heq _]%elem_of_replicate. discriminate.
  - unfold long_line. rewrite length_replicate. simpl. lia.
Defined.

Lemma console_line_frame_witness :
  Message.frame (message_of (Examples.text "hi")) = Examples.frame_of "hi" ∧
  Message.str (message_of (Examples.text "a" ++ Message.nul :: Examples.text "b"))
    = Examples.text "a".
Proof.
  destruct (console_line_frame (Examples.text "hi")) as (_ & _ & Hframe & _);
    [vm_compute; lia|].
  destruct (console_line_frame (Examples.text "a" ++ Message.nul :: Examples.text "b"))
    as (_ & Hstr & _ & _ & Hcut); [vm_compute; lia|].
  split.
  - rewrite Hframe. vm_compute. reflexivity.
  - rewrite Hstr. apply (Hcut (Examples.text "a") (Examples.text "b")); [done|].
    apply (bool_decide_unpack _). vm_compute. exact I.
Defined.

Lemma line_reaches_other_clients_witness :
  Message.frame (message_of (Examples.text "hi")) = Examples.frame_of "hi" ∧
  (∃ m, Server.queue 0 two_ports_hi = Server.queue 0 two_ports_header ++ [m] ∧
        Message.frame m = Message.frame (message_of (Examples.text "hi"))) ∧
  cout client_heard = [Examples.text "hi"; [newline]].
Proof.
  destruct (EndToEnd.line_reaches_other_clients [4000; 4001] two_ports 0 (fresh 0)
              (client_writing hi) (Examples.text "hi")
              two_ports_header two_ports_hi client_header client_heard)
    as (Hf & Hq & Hc).
  - simpl. lia.
  - apply Nat.ltb_lt. vm_compute. reflexivity.
  - apply (bool_decide_unpack _). vm_compute. exact I.
  - simpl. lia.
  - apply ScenarioFacts.two_ports_reachable.
  - vm_compute. reflexivity.
  - apply ScenarioFacts.two_ports_header_step.
  - apply ScenarioFacts.two_ports_hi_step.
  - apply client_writing_reachable.
  - vm_compute. reflexivity.
  - vm_compute. reflexivity.
  - split_and!.
    + rewrite Hf. vm_compute. reflexivity.
    + apply (Hq 0). apply (bool_decide_unpack _). vm_compute. exact I.
    + rewrite Hc. vm_compute. reflexivity.
Defined.

End ClientScenarioFacts.
